(** * Charlton formula evaluation: [charlton/desc.py]

    A shallow embedding of the term algebra of [charlton/desc.py]: the
    [Term] and [ModelDesc] value classes, the [IntermediateExpr] carried
    through the tree walk, the operator rules [_eval_*] and the
    [Evaluator] dispatch, followed by the properties of the formula
    calculus proved about them. *)

From Stdlib Require Import String Ascii List ZArith Bool Lia.
From stdpp Require Import base decidable countable gmap sets strings.
Import ListNotations.

Local Open Scope string_scope.
Local Open Scope list_scope.

(** ** Python exceptions and the error monad *)

(** [charlton.origin.Origin]: a span of the formula text. *)
Record Origin := mkOrigin {
  o_code : string;
  o_start : nat;
  o_end : nat
}.

(** [charlton.parse_formula.Token]; [extra] is [None] for operator
    tokens and the source text for literals and Python expressions. *)
Record Token := mkToken {
  tok_type : string;
  tok_origin : Origin;
  extra : option string
}.

(** [charlton.parse_formula.ParseNode]. *)
Unset Elimination Schemes.
Inductive ParseNode : Type :=
  Node (type : string) (token : Token) (args : list ParseNode) (origin : Origin).
Set Elimination Schemes.

Definition type (tree : ParseNode) : string :=
  match tree with Node ty _ _ _ => ty end.
Definition token (tree : ParseNode) : Token :=
  match tree with Node _ tok _ _ => tok end.
Definition args (tree : ParseNode) : list ParseNode :=
  match tree with Node _ _ a _ => a end.
Definition origin (tree : ParseNode) : Origin :=
  match tree with Node _ _ _ o => o end.

(** What the code hands over as the place of an error or of an
    intercept: an [Origin], or an object that has one (a node, a token). *)
Inductive Where : Type :=
| AtOrigin (o : Origin)
| AtNode (n : ParseNode)
| AtToken (t : Token).

Inductive Exception : Type :=
| CharltonError (message : string) (place : option Where)
| AssertionError
| TypeError
| IndexError.

Inductive Result (A : Type) : Type :=
| Ok (a : A)
| Raise (e : Exception).
Arguments Ok {A} a.
Arguments Raise {A} e.

Definition bind {A B} (m : Result A) (k : A -> Result B) : Result B :=
  match m with
  | Ok a => k a
  | Raise e => Raise e
  end.

Declare Scope py_scope.
Delimit Scope py_scope with py.
Notation "x <- m ;; k" := (bind m (fun x => k))
  (at level 100, m at next level, right associativity) : py_scope.
Notation "m ;; k" := (bind m (fun _ => k))
  (at level 100, right associativity) : py_scope.
Local Open Scope py_scope.

(** ** Factors *)

(** Modelled from the spec: [EvalFactor] of [charlton.eval], the
    expression factor, whose name is the source text of the expression,
    which carries an origin, and which compares by its identity key (the
    text; the evaluation environment is the one of the [Evaluator]
    throughout a walk).  [LookupFactor] is the class of this file. *)
Inductive Factor : Type :=
| LookupFactor (name : string) (origin : option Origin)
| EvalFactor (code : string) (origin : Origin).

Definition factor_name (f : Factor) : string :=
  match f with
  | LookupFactor n _ => n
  | EvalFactor c _ => c
  end.

(** The key [__eq__] and [__hash__] of a factor look at: the class and
    the name. *)
Definition factor_key (f : Factor) : string + string :=
  match f with
  | LookupFactor n _ => inl n
  | EvalFactor c _ => inr c
  end.

(** [f == g] on factors. *)
Definition factor_eqb (f g : Factor) : bool :=
  bool_decide (factor_key f = factor_key g).

(** [obj in seq], by the [==] of the elements. *)
Definition py_in {A} (eqb : A -> A -> bool) (obj : A) (seq : list A) : bool :=
  existsb (eqb obj) seq.

(** Modelled from the spec: the loop of [to_unique_tuple] of
    [charlton.util], which appends to [seq_new] each object that is not
    [in] it yet. *)
Fixpoint to_unique_loop {A} (eqb : A -> A -> bool) (seq seq_new : list A) : list A :=
  match seq with
  | [] => seq_new
  | obj :: rest =>
      if py_in eqb obj seq_new then to_unique_loop eqb rest seq_new
      else to_unique_loop eqb rest (seq_new ++ [obj])
  end.

(** Modelled from the spec: [to_unique_tuple] of [charlton.util], which
    removes duplicates (by [==]) while preserving the first-seen order. *)
Definition to_unique_tuple {A} (eqb : A -> A -> bool) (seq : list A) : list A :=
  to_unique_loop eqb seq [].

(** ** Term *)

(** A [Term] object.  The module keeps one of them under the name
    [INTERCEPT = Term([])]; the code tells this object from the others
    (the class has [__eq__] and [__hash__] but no [__ne__], so under
    Python 2, which the file is written in, [term != INTERCEPT] compares
    identities).  [INTERCEPT] is that object, [mkTerm] any other one. *)
Inductive Term : Type :=
| INTERCEPT
| mkTerm (fs : list Factor).

Definition factors (self : Term) : list Factor :=
  match self with
  | INTERCEPT => []
  | mkTerm fs => fs
  end.

(** [Term.__init__]. *)
Definition Term_init (fs : list Factor) : Term :=
  mkTerm (to_unique_tuple factor_eqb fs).

(** [frozenset(factors)]: a frozenset keeps one element of each class of
    [==], and its own [==] and [hash] see the classes only. *)
Definition frozenset (fs : list Factor) : gset (string + string) :=
  list_to_set (map factor_key fs).

(** [Term.__eq__], between two terms. *)
Definition Term_eq (self other : Term) : bool :=
  bool_decide (frozenset (factors other) = frozenset (factors self)).

Section Hash.
(** The builtin [hash], on the pair [(Term, frozenset(...))]. *)
Variable py_hash : gset (string + string) -> Z.

(** [Term.__hash__]. *)
Definition Term_hash (self : Term) : Z :=
  py_hash (frozenset (factors self)).
End Hash.

(** [Term.name]. *)
Definition Term_name (self : Term) : string :=
  match factors self with
  | [] => "Intercept"
  | fs => String.concat ":" (map factor_name fs)
  end.

(** [term != INTERCEPT]: true of every object but [INTERCEPT] itself. *)
Definition ne_INTERCEPT (term : Term) : bool :=
  match term with
  | INTERCEPT => false
  | mkTerm _ => true
  end.

(** ** ModelDesc *)

Record ModelDesc := mkModelDesc {
  lhs_termlist : list Term;
  rhs_termlist : list Term
}.

(** [ModelDesc.__init__]. *)
Definition ModelDesc_init (lhs rhs : list Term) : ModelDesc :=
  mkModelDesc (to_unique_tuple Term_eq lhs) (to_unique_tuple Term_eq rhs).

(** The local function [term_code] of [describe]. *)
Definition term_code (term : Term) : string :=
  if Term_eq term INTERCEPT then "1" else Term_name term.

(** [tuple == tuple]: same length and elements equal by [==]. *)
Fixpoint tuple_eq {A} (eqb : A -> A -> bool) (s t : list A) : bool :=
  match s, t with
  | [], [] => true
  | x :: s', y :: t' => eqb x y && tuple_eq eqb s' t'
  | _, _ => false
  end.

(** [ModelDesc.describe]. *)
Definition describe (self : ModelDesc) : string :=
  let result := String.concat " + " (map term_code (lhs_termlist self)) in
  let result :=
    if String.eqb result "" then result +:+ "~ " else result +:+ " ~ " in
  if tuple_eq Term_eq (rhs_termlist self) [INTERCEPT] then
    result +:+ term_code INTERCEPT
  else
    let term_names :=
      if negb (py_in Term_eq INTERCEPT (rhs_termlist self)) then ["0"] else [] in
    let term_names :=
      term_names ++
      map term_code
        (List.filter (fun term => ne_INTERCEPT term) (rhs_termlist self)) in
    result +:+ String.concat " + " term_names.

(** ** IntermediateExpr *)

Record IntermediateExpr := mkIntermediateExpr {
  intercept : bool;
  intercept_origin : option Where;
  intercept_removed : bool;
  terms : list Term
}.

(** Truth value of an [intercept_origin]: [None] is false, an object is
    true. *)
Definition truthy {A} (o : option A) : bool :=
  match o with Some _ => true | None => false end.

(** [IntermediateExpr.__init__], with its two assertions. *)
Definition IntermediateExpr_init (intercept : bool) (intercept_origin : option Where)
    (intercept_removed : bool) (terms : list Term) : Result IntermediateExpr :=
  let self :=
    mkIntermediateExpr intercept intercept_origin intercept_removed
      (to_unique_tuple Term_eq terms) in
  if intercept && negb (truthy intercept_origin) then Raise AssertionError
  else if intercept && intercept_removed then Raise AssertionError
  else Ok self.

Inductive Value : Type :=
| VExpr (e : IntermediateExpr)
| VModel (m : ModelDesc).

(** ** The builtin [int] on the text of a number token *)

Definition is_space (c : ascii) : bool :=
  let n := nat_of_ascii c in
  Nat.eqb n 32 || (Nat.leb 9 n && Nat.leb n 13).

Fixpoint lstrip (cs : list ascii) : list ascii :=
  match cs with
  | c :: rest => if is_space c then lstrip rest else cs
  | [] => []
  end.

Definition strip (cs : list ascii) : list ascii :=
  rev (lstrip (rev (lstrip cs))).

Definition digit_of (c : ascii) : option Z :=
  let n := nat_of_ascii c in
  if Nat.leb 48 n && Nat.leb n 57 then Some (Z.of_nat (n - 48)) else None.

Fixpoint digits_value (acc : Z) (cs : list ascii) : option Z :=
  match cs with
  | [] => Some acc
  | c :: rest =>
      match digit_of c with
      | Some d => digits_value (10 * acc + d) rest
      | None => None
      end
  end.

(** [int(text)] in base ten: blanks around, an optional sign, digits;
    [None] stands for [ValueError]. *)
Definition py_int (text : string) : option Z :=
  match strip (list_ascii_of_string text) with
  | [] => None
  | c :: rest =>
      if Ascii.eqb c "+" then
        match rest with [] => None | _ => digits_value 0 rest end
      else if Ascii.eqb c "-" then
        match rest with [] => None | _ => option_map Z.opp (digits_value 0 rest) end
      else digits_value 0 (c :: rest)
  end.

(** ** The operator rules *)

(** Each rule takes [evaluator.eval] (with [require_evalexpr] left at its
    default [True]) and the node. [tree.args[i]] on a short list raises
    [IndexError]. *)
Section Rules.
Variable evaluator : ParseNode -> Result IntermediateExpr.

Definition _maybe_add_intercept (doit : bool) (terms : list Term) : list Term :=
  if doit then INTERCEPT :: terms else terms.

(** [[evaluator.eval(arg) for arg in tree.args]]. *)
Definition eval_args : list ParseNode -> Result (list IntermediateExpr) :=
  fix go (l : list ParseNode) : Result (list IntermediateExpr) :=
    match l with
    | [] => Ok []
    | arg :: rest =>
        expr <- evaluator arg ;;
        exprs <- go rest ;;
        Ok (expr :: exprs)
    end.

Definition _eval_any_tilde (tree : ParseNode) : Result Value :=
  exprs <- eval_args (args tree) ;;
  exprs <-
    (if Nat.eqb (length exprs) 1 then
       zero <- IntermediateExpr_init false None true [] ;;
       Ok (zero :: exprs)
     else Ok exprs) ;;
  match exprs with
  | [e0; e1] =>
      Ok (VModel
            (ModelDesc_init
               (_maybe_add_intercept (intercept e0) (terms e0))
               (_maybe_add_intercept (negb (intercept_removed e1)) (terms e1))))
  | _ => Raise AssertionError
  end.

Definition _eval_binary_plus (tree : ParseNode) : Result Value :=
  match args tree with
  | [] => Raise IndexError
  | a0 :: rest =>
      left_expr <- evaluator a0 ;;
      match rest with
      | [] => Raise IndexError
      | a1 :: _ =>
          if String.eqb (type a1) "ZERO" then
            r <- IntermediateExpr_init false None true (terms left_expr) ;;
            Ok (VExpr r)
          else
            right_expr <- evaluator a1 ;;
            if intercept right_expr then
              r <- IntermediateExpr_init true (intercept_origin right_expr) false
                     (terms left_expr ++ terms right_expr) ;;
              Ok (VExpr r)
            else
              r <- IntermediateExpr_init (intercept left_expr)
                     (intercept_origin left_expr)
                     (intercept_removed left_expr)
                     (terms left_expr ++ terms right_expr) ;;
              Ok (VExpr r)
      end
  end.

Definition _eval_binary_minus (tree : ParseNode) : Result Value :=
  match args tree with
  | [] => Raise IndexError
  | a0 :: rest =>
      left_expr <- evaluator a0 ;;
      match rest with
      | [] => Raise IndexError
      | a1 :: _ =>
          if String.eqb (type a1) "ZERO" then
            r <- IntermediateExpr_init true (Some (AtNode a1)) false
                   (terms left_expr) ;;
            Ok (VExpr r)
          else if String.eqb (type a1) "ONE" then
            r <- IntermediateExpr_init false None true (terms left_expr) ;;
            Ok (VExpr r)
          else
            right_expr <- evaluator a1 ;;
            let terms' :=
              List.filter
                (fun term => negb (py_in Term_eq term (terms right_expr)))
                (terms left_expr) in
            if intercept right_expr then
              r <- IntermediateExpr_init false None true terms' ;;
              Ok (VExpr r)
            else
              r <- IntermediateExpr_init (intercept left_expr)
                     (intercept_origin left_expr)
                     (intercept_removed left_expr)
                     terms' ;;
              Ok (VExpr r)
      end
  end.

Definition _check_interactable (expr : IntermediateExpr) : Result unit :=
  if intercept expr then
    Raise (CharltonError "intercept term cannot interact with anything else"
             (intercept_origin expr))
  else Ok tt.

Definition _interaction (left_expr right_expr : IntermediateExpr)
    : Result IntermediateExpr :=
  _check_interactable left_expr ;;
  _check_interactable right_expr ;;
  let terms' :=
    flat_map
      (fun l_term =>
         map (fun r_term => Term_init (factors l_term ++ factors r_term))
           (terms right_expr))
      (terms left_expr) in
  IntermediateExpr_init false None false terms'.

(** [_interaction] is applied to the unpacked list and takes exactly two
    arguments. *)
Definition _eval_binary_prod (tree : ParseNode) : Result Value :=
  exprs <- eval_args (args tree) ;;
  match exprs with
  | [] | [_] => Raise IndexError
  | [e0; e1] =>
      inter <- _interaction e0 e1 ;;
      r <- IntermediateExpr_init false None false
             (terms e0 ++ terms e1 ++ terms inter) ;;
      Ok (VExpr r)
  | _ => Raise TypeError
  end.

Definition _eval_binary_div (tree : ParseNode) : Result Value :=
  match args tree with
  | [] => Raise IndexError
  | a0 :: rest =>
      left_expr <- evaluator a0 ;;
      match rest with
      | [] => Raise IndexError
      | a1 :: _ =>
          right_expr <- evaluator a1 ;;
          let terms0 := terms left_expr in
          _check_interactable left_expr ;;
          let left_factors := flat_map factors (terms left_expr) in
          left_combined_expr <-
            IntermediateExpr_init false None false [Term_init left_factors] ;;
          inter <- _interaction left_combined_expr right_expr ;;
          r <- IntermediateExpr_init false None false (terms0 ++ terms inter) ;;
          Ok (VExpr r)
      end
  end.

Definition _eval_binary_interact (tree : ParseNode) : Result Value :=
  exprs <- eval_args (args tree) ;;
  match exprs with
  | [e0; e1] => r <- _interaction e0 e1 ;; Ok (VExpr r)
  | _ => Raise TypeError
  end.

(** The [for i in xrange(1, power)] loop, [n] iterations to go. *)
Fixpoint power_loop (n : nat) (left_expr big_expr : IntermediateExpr)
    (all_terms : list Term) : Result (list Term) :=
  match n with
  | O => Ok all_terms
  | S n' =>
      big_expr <- _interaction left_expr big_expr ;;
      power_loop n' left_expr big_expr (all_terms ++ terms big_expr)
  end.

Definition _eval_binary_power (tree : ParseNode) : Result Value :=
  match args tree with
  | [] => Raise IndexError
  | a0 :: rest =>
      left_expr <- evaluator a0 ;;
      _check_interactable left_expr ;;
      match rest with
      | [] => Raise IndexError
      | a1 :: _ =>
          power <-
            (if py_in String.eqb (type a1) ["ONE"; "NUMBER"] then
               match extra (token a1) with
               | None => Raise TypeError
               | Some expr =>
                   match py_int expr with
                   | Some n => Ok n
                   | None => Ok (-1)%Z
                   end
               end
             else Ok (-1)%Z) ;;
          if (power <? 1)%Z then
            Raise (CharltonError "'**' requires a positive integer"
                     (Some (AtNode a1)))
          else
            let power := Z.min (Z.of_nat (length (terms left_expr))) power in
            all_terms <-
              power_loop (Z.to_nat (power - 1)) left_expr left_expr
                (terms left_expr) ;;
            r <- IntermediateExpr_init false None false all_terms ;;
            Ok (VExpr r)
      end
  end.

Definition _eval_unary_plus (tree : ParseNode) : Result Value :=
  match args tree with
  | [] => Raise IndexError
  | a0 :: _ => r <- evaluator a0 ;; Ok (VExpr r)
  end.

Definition _eval_unary_minus (tree : ParseNode) : Result Value :=
  match args tree with
  | [] => Raise IndexError
  | a0 :: _ =>
      if String.eqb (type a0) "ZERO" then
        r <- IntermediateExpr_init true (Some (AtOrigin (origin tree))) false [] ;;
        Ok (VExpr r)
      else if String.eqb (type a0) "ONE" then
        r <- IntermediateExpr_init false None true [] ;;
        Ok (VExpr r)
      else
        Raise (CharltonError "Unary minus can only be applied to 1 or 0"
                 (Some (AtNode tree)))
  end.

Definition _eval_zero (tree : ParseNode) : Result Value :=
  r <- IntermediateExpr_init false None true [] ;; Ok (VExpr r).

Definition _eval_one (tree : ParseNode) : Result Value :=
  r <- IntermediateExpr_init true (Some (AtOrigin (origin tree))) false [] ;;
  Ok (VExpr r).

Definition _eval_number (tree : ParseNode) : Result Value :=
  Raise (CharltonError "numbers besides '0' and '1' are only allowed with **"
           (Some (AtNode tree))).

Definition _eval_python_expr (tree : ParseNode) : Result Value :=
  match extra (token tree) with
  | None => Raise TypeError
  | Some code =>
      let factor := EvalFactor code (origin tree) in
      r <- IntermediateExpr_init false None false [Term_init [factor]] ;;
      Ok (VExpr r)
  end.
End Rules.

(** ** Evaluator *)

(** The rules an [Evaluator] registers. *)
Inductive Rule : Type :=
| R_any_tilde | R_binary_plus | R_binary_minus | R_binary_prod | R_binary_div
| R_binary_interact | R_binary_power | R_unary_plus | R_unary_minus
| R_zero | R_one | R_number | R_python_expr.

Definition call (rule : Rule) (evaluator : ParseNode -> Result IntermediateExpr)
    (tree : ParseNode) : Result Value :=
  match rule with
  | R_any_tilde => _eval_any_tilde evaluator tree
  | R_binary_plus => _eval_binary_plus evaluator tree
  | R_binary_minus => _eval_binary_minus evaluator tree
  | R_binary_prod => _eval_binary_prod evaluator tree
  | R_binary_div => _eval_binary_div evaluator tree
  | R_binary_interact => _eval_binary_interact evaluator tree
  | R_binary_power => _eval_binary_power evaluator tree
  | R_unary_plus => _eval_unary_plus evaluator tree
  | R_unary_minus => _eval_unary_minus tree
  | R_zero => _eval_zero tree
  | R_one => _eval_one tree
  | R_number => _eval_number tree
  | R_python_expr => _eval_python_expr tree
  end.

(** [Evaluator.add_op]: [self._evaluators[op, arity] = evaluator]. *)
Definition add_op (op : string) (arity : nat) (rule : Rule)
    (_evaluators : gmap (string * nat) Rule) : gmap (string * nat) Rule :=
  <[(op, arity) := rule]> _evaluators.

(** The table [Evaluator.__init__] builds, in its order. *)
Definition _evaluators : gmap (string * nat) Rule :=
  add_op "PYTHON_EXPR" 0 R_python_expr
    (add_op "NUMBER" 0 R_number
    (add_op "ONE" 0 R_one
    (add_op "ZERO" 0 R_zero
    (add_op "-" 1 R_unary_minus
    (add_op "+" 1 R_unary_plus
    (add_op "**" 2 R_binary_power
    (add_op ":" 2 R_binary_interact
    (add_op "/" 2 R_binary_div
    (add_op "*" 2 R_binary_prod
    (add_op "-" 2 R_binary_minus
    (add_op "+" 2 R_binary_plus
    (add_op "~" 1 R_any_tilde
    (add_op "~" 2 R_any_tilde ∅))))))))))))).

(** The check at the end of [Evaluator.eval] when [require_evalexpr]
    holds; with the closed set of rules a result that is not an
    [IntermediateExpr] is a [ModelDesc]. *)
Definition check_evalexpr (tree : ParseNode) (result : Value) : Result IntermediateExpr :=
  match result with
  | VExpr e => Ok e
  | VModel _ =>
      Raise (CharltonError "~ can only be used once, and only at the top level"
               (Some (AtNode tree)))
  end.

(** [Evaluator.eval] up to the result of the rule. *)
Fixpoint dispatch (tree : ParseNode) {struct tree} : Result Value :=
  match _evaluators !! (type tree, length (args tree)) with
  | None =>
      Raise (CharltonError
               ("I don't know how to evaluate this '" +:+ type tree +:+ "' operator")
               (Some (AtToken (token tree))))
  | Some rule =>
      call rule
        (fun arg => result <- dispatch arg ;; check_evalexpr arg result)
        tree
  end.

(** [Evaluator.eval]. *)
Definition eval (tree : ParseNode) (require_evalexpr : bool) : Result Value :=
  result <- dispatch tree ;;
  if require_evalexpr then e <- check_evalexpr tree result ;; Ok (VExpr e)
  else Ok result.

(** [evaluator.eval(arg)] as the rules call it. *)
Definition eval_expr (tree : ParseNode) : Result IntermediateExpr :=
  result <- dispatch tree ;; check_evalexpr tree result.

(** [ModelDesc.from_formula] on a tree; a result that is no [ModelDesc]
    fails its assertion. *)
Definition from_formula (tree : ParseNode) : Result ModelDesc :=
  value <- eval tree false ;;
  match value with
  | VModel m => Ok m
  | VExpr _ => Raise AssertionError
  end.

(** * Definitions used by the statements *)

(** ** Induction on parse trees *)

Fixpoint ParseNode_ind (P : ParseNode -> Prop)
    (step : forall ty tok l org, Forall P l -> P (Node ty tok l org))
    (tree : ParseNode) {struct tree} : P tree :=
  match tree with
  | Node ty tok l org =>
      step ty tok l org
        ((fix all (l : list ParseNode) : Forall P l :=
            match l with
            | [] => List.Forall_nil P
            | arg :: rest =>
                @List.Forall_cons _ P arg rest (ParseNode_ind P step arg) (all rest)
            end) l)
  end.

(** No two elements of the list are [==], [key] being what [==] compares. *)
Definition unique {A K} (key : A -> K) (l : list A) : Prop := List.NoDup (map key l).

(** What [Term.__eq__] compares. *)
Definition term_key (t : Term) : gset (string + string) := frozenset (factors t).

(** ** Well-formed intermediate results *)

(** What holds of every [IntermediateExpr] of a walk: its terms are
    pairwise different and none is the intercept term, a present
    intercept has an origin, and it is not both present and removed. *)
Definition wf_expr (e : IntermediateExpr) : Prop :=
  unique term_key (terms e)
  /\ (forall t, In t (terms e) -> factors t <> [])
  /\ (intercept e = true -> truthy (intercept_origin e) = true)
  /\ intercept e && intercept_removed e = false.

Definition wf_value (v : Value) : Prop :=
  match v with
  | VExpr e => wf_expr e
  | VModel _ => True
  end.

(** A computation that does not fail an assertion and whose result, if
    any, satisfies [P]. *)
Definition good {A} (P : A -> Prop) (m : Result A) : Prop :=
  match m with
  | Ok a => P a
  | Raise e => e <> AssertionError
  end.

(** [evaluator] is good on every node of the list. *)
Definition evaluator_good (evaluator : ParseNode -> Result IntermediateExpr)
    (l : list ParseNode) : Prop :=
  Forall (fun arg => good wf_expr (evaluator arg)) l.

(** ** Trees of the example formulas *)

(** The nodes [parse_formula] builds: a leaf carries its text in the
    token, an operator node spans its operands. *)
Definition leaf (code ty : string) (s e : nat) (text : string) : ParseNode :=
  Node ty (mkToken ty (mkOrigin code s e) (Some text)) [] (mkOrigin code s e).

Definition binop (code ty : string) (s e : nat) (l r : ParseNode) : ParseNode :=
  Node ty (mkToken ty (mkOrigin code s e) None) [l; r]
    (mkOrigin code (o_start (origin l)) (o_end (origin r))).

Definition var (code : string) (s : nat) (text : string) : ParseNode :=
  leaf code "PYTHON_EXPR" s (s + 1) text.

(** ["y ~ a + b"] *)
Definition f_y_a_b : ParseNode :=
  let c := "y ~ a + b" in
  binop c "~" 2 3 (var c 0 "y") (binop c "+" 6 7 (var c 4 "a") (var c 8 "b")).

(** ["1 + 0"] and ["0 + 1"] *)
Definition f_1_plus_0 : ParseNode :=
  let c := "1 + 0" in binop c "+" 2 3 (leaf c "ONE" 0 1 "1") (leaf c "ZERO" 4 5 "0").
Definition f_0_plus_1 : ParseNode :=
  let c := "0 + 1" in binop c "+" 2 3 (leaf c "ZERO" 0 1 "0") (leaf c "ONE" 4 5 "1").

(** ["(a + b)/c"] and ["a/1"] *)
Definition f_ab_div_c : ParseNode :=
  let c := "(a + b)/c" in
  binop c "/" 7 8 (binop c "+" 3 4 (var c 1 "a") (var c 5 "b")) (var c 8 "c").
Definition f_a_div_1 : ParseNode :=
  let c := "a/1" in binop c "/" 1 2 (var c 0 "a") (leaf c "ONE" 2 3 "1").

(** ["(a+b+c+d)**2"] *)
Definition f_abcd_pow_2 : ParseNode :=
  let c := "(a+b+c+d)**2" in
  Node "**" (mkToken "**" (mkOrigin c 9 11) None)
    [binop c "+" 6 7
       (binop c "+" 4 5 (binop c "+" 2 3 (var c 1 "a") (var c 3 "b")) (var c 5 "c"))
       (var c 7 "d");
     leaf c "NUMBER" 11 12 "2"]
    (mkOrigin c 0 12).

(** ["a:b - a:b"] and ["a:b - b:a"] *)
Definition f_ab_minus_ab : ParseNode :=
  let c := "a:b - a:b" in
  binop c "-" 4 5 (binop c ":" 1 2 (var c 0 "a") (var c 2 "b"))
    (binop c ":" 7 8 (var c 6 "a") (var c 8 "b")).
Definition f_ab_minus_ba : ParseNode :=
  let c := "a:b - b:a" in
  binop c "-" 4 5 (binop c ":" 1 2 (var c 0 "a") (var c 2 "b"))
    (binop c ":" 7 8 (var c 6 "b") (var c 8 "a")).

(** ["a:1"] *)
Definition f_a_inter_1 : ParseNode :=
  let c := "a:1" in binop c ":" 1 2 (var c 0 "a") (leaf c "ONE" 2 3 "1").

(** ["(a - 1):b"] *)
Definition f_a_minus_1_inter_b : ParseNode :=
  let c := "(a - 1):b" in
  binop c ":" 7 8 (binop c "-" 3 4 (var c 1 "a") (leaf c "ONE" 5 6 "1")) (var c 8 "b").

(** The names of the factors of each term, in their order. *)
Definition term_names (ts : list Term) : list (list string) :=
  map (fun t => map factor_name (factors t)) ts.

(** ** Definitions in the words of the specification *)

(** The terms the two loops of [_interaction] build: for every term of
    the left list and every term of the right list, in that order, the
    term of the factors of the first followed by those of the second. *)
Definition pairwise_terms (lts rts : list Term) : list Term :=
  flat_map
    (fun l_term => map (fun r_term => Term_init (factors l_term ++ factors r_term)) rts)
    lts.

(** The interactions of order [j] of a list of terms: the list itself at
    order one, and at each further order the interaction of the list with
    the order before. *)
Fixpoint interaction_order (ts : list Term) (j : nat) : list Term :=
  match j with
  | O => []
  | S j' =>
      match j' with
      | O => ts
      | S _ => to_unique_tuple Term_eq (pairwise_terms ts (interaction_order ts j'))
      end
  end.

(** The message of [_check_interactable]. *)
Definition intercept_message : string :=
  "intercept term cannot interact with anything else".

(** The node is a positive integer literal of value [k]: a [ONE] or
    [NUMBER] leaf whose text [int] reads as [k >= 1]. *)
Definition positive_integer_literal (r : ParseNode) (k : Z) : Prop :=
  (type r = "ONE" \/ type r = "NUMBER")
  /\ (exists expr, extra (token r) = Some expr /\ py_int expr = Some k)
  /\ (1 <= k)%Z.

(** The term is the intercept term: it has no factors. *)
Definition is_intercept (t : Term) : bool :=
  match factors t with
  | [] => true
  | _ :: _ => false
  end.

(** The text of a term in a description: [1] for the intercept, the names
    of the factors joined by [:] otherwise. *)
Definition term_text (t : Term) : string :=
  if is_intercept t then "1" else String.concat ":" (map factor_name (factors t)).

(** The right side of a description: [1] when the list is an intercept
    term alone; otherwise the texts of the terms other than the object
    [INTERCEPT], joined by [ + ], behind a [0] when the list has no
    intercept term. *)
Definition rhs_text (rhs : list Term) : string :=
  let general :=
    String.concat " + "
      ((if existsb is_intercept rhs then [] else ["0"])
       ++ map term_text (List.filter ne_INTERCEPT rhs)) in
  match rhs with
  | [t] => if is_intercept t then "1" else general
  | _ => general
  end.

Definition lhs_text (lhs : list Term) : string :=
  String.concat " + " (map term_text lhs).

(** The description as C8 states it: the left text, [ ~ ], the right
    text. *)
Definition describe_as_stated (md : ModelDesc) : string :=
  (lhs_text (lhs_termlist md) +:+ " ~ ") +:+ rhs_text (rhs_termlist md).

(** The description with the empty left side set apart. *)
Definition describe_amended (md : ModelDesc) : string :=
  (if String.eqb (lhs_text (lhs_termlist md)) "" then "~ "
   else lhs_text (lhs_termlist md) +:+ " ~ ")
  +:+ rhs_text (rhs_termlist md).

(** The model of [test_ModelDesc]. *)
Definition test_model : ModelDesc :=
  let f1 := LookupFactor "a" None in
  let f2 := LookupFactor "b" None in
  ModelDesc_init [INTERCEPT; Term_init [f1]] [Term_init [f1]; Term_init [f1; f2]].

(** ** Definitions used by the further properties *)

(** The keys [Evaluator.__init__] registers. *)
Definition registered_keys : list (string * nat) :=
  [("~", 2); ("~", 1); ("+", 2); ("-", 2); ("*", 2); ("/", 2); (":", 2); ("**", 2);
   ("+", 1); ("-", 1); ("ZERO", 0); ("ONE", 0); ("NUMBER", 0); ("PYTHON_EXPR", 0)].

(** The binary operators of the table. *)
Definition binary_operators : list string := ["~"; "+"; "-"; "*"; "/"; ":"; "**"].

(** The messages of the errors of the walk. *)
Definition unknown_operator_message (ty : string) : string :=
  "I don't know how to evaluate this '" +:+ ty +:+ "' operator".
Definition misplaced_tilde_message : string :=
  "~ can only be used once, and only at the top level".
Definition power_message : string := "'**' requires a positive integer".
Definition number_message : string :=
  "numbers besides '0' and '1' are only allowed with **".
Definition unary_minus_message : string :=
  "Unary minus can only be applied to 1 or 0".

(** The exponent node gives [**] no positive integer: it is no [ONE] or
    [NUMBER] node, or [int] rejects its text, or reads it below one. *)
Definition bad_exponent (r : ParseNode) : Prop :=
  (type r <> "ONE" /\ type r <> "NUMBER")
  \/ (exists expr,
         extra (token r) = Some expr
         /\ (py_int expr = None \/ exists k, py_int expr = Some k /\ (k < 1)%Z)).

(** The factors [_eval_python_expr] makes of the [PYTHON_EXPR] leaves of a
    tree, from left to right. *)
Fixpoint python_factors (tree : ParseNode) : list Factor :=
  match tree with
  | Node ty tok l org =>
      (match extra tok, l with
       | Some code, [] =>
           if String.eqb ty "PYTHON_EXPR" then [EvalFactor code org] else []
       | _, _ => []
       end)
      ++ (fix all (l : list ParseNode) : list Factor :=
            match l with
            | [] => []
            | arg :: rest => python_factors arg ++ all rest
            end) l
  end.

(** A term [Term(...)] built of factors that satisfy [F]: not the object
    [INTERCEPT], at least one factor, no factor twice. *)
Definition term_built (F : Factor -> Prop) (t : Term) : Prop :=
  exists fs,
    t = mkTerm fs /\ fs <> [] /\ unique factor_key fs /\ Forall F fs.

(** The names of the factors of a term joined by [:], its text in a
    description. *)
Definition factor_names (t : Term) : string :=
  String.concat ":" (map factor_name (factors t)).

(** The result, if there is one, satisfies [P]. *)
Definition holds {A} (P : A -> Prop) (m : Result A) : Prop :=
  match m with
  | Ok a => P a
  | Raise _ => True
  end.

(** Every term of the expression is built of factors that satisfy [F]. *)
Definition built_expr (F : Factor -> Prop) (e : IntermediateExpr) : Prop :=
  Forall (term_built F) (terms e).

Definition built_value (F : Factor -> Prop) (v : Value) : Prop :=
  match v with
  | VExpr e => built_expr F e
  | VModel _ => True
  end.


(** * Properties *)

(** ** [to_unique_tuple] *)

Lemma NoDup_snoc {K} (ks : list K) (k : K) :
  List.NoDup ks -> ~ In k ks -> List.NoDup (ks ++ [k]).
Proof.
  induction ks as [|k' ks IH]; simpl; intros Hks Hk.
  - apply List.NoDup_cons; [intros [] | apply List.NoDup_nil].
  - apply List.NoDup_cons_iff in Hks as [Hk' Hks]. apply List.NoDup_cons_iff. split.
    + rewrite in_app_iff. simpl. intros [H | [H | []]]; [auto |].
      apply Hk. left. symmetry. exact H.
    + apply IH; [exact Hks |]. intros H. apply Hk. right. exact H.
Qed.

Section Unique.
Context {A K : Type} (key : A -> K) (eqb : A -> A -> bool).
Hypothesis eqb_key : forall x y, eqb x y = true <-> key x = key y.

Local Abbreviation unique := (unique key).

Lemma py_in_key x l : py_in eqb x l = true <-> In (key x) (map key l).
Proof.
  unfold py_in. rewrite existsb_exists, in_map_iff. split.
  - intros (y & Hy & Hxy). exists y. apply eqb_key in Hxy. auto.
  - intros (y & Hy & Hin). exists y. split; [exact Hin | apply eqb_key; auto].
Qed.

Lemma py_in_key_false x l : py_in eqb x l = false <-> ~ In (key x) (map key l).
Proof.
  rewrite <- py_in_key. destruct (py_in eqb x l); split; intros; congruence.
Qed.

Lemma unique_snoc l x : unique l -> ~ In (key x) (map key l) -> unique (l ++ [x]).
Proof.
  unfold unique. intros Hl Hx. rewrite map_app. simpl.
  apply NoDup_snoc; assumption.
Qed.

Lemma to_unique_loop_unique seq acc :
  unique acc -> unique (to_unique_loop eqb seq acc).
Proof.
  revert acc. induction seq as [|x seq IH]; intros acc Hacc; simpl; [exact Hacc |].
  destruct (py_in eqb x acc) eqn:Hin; apply IH; [exact Hacc |].
  apply unique_snoc; [exact Hacc | apply py_in_key_false; exact Hin].
Qed.

Lemma to_unique_tuple_unique seq : unique (to_unique_tuple eqb seq).
Proof. apply to_unique_loop_unique. constructor. Qed.

Lemma to_unique_loop_In seq acc x :
  In x (to_unique_loop eqb seq acc) -> In x seq \/ In x acc.
Proof.
  revert acc. induction seq as [|y seq IH]; intros acc; simpl; [auto |].
  destruct (py_in eqb y acc); intros H; apply IH in H.
  - tauto.
  - rewrite in_app_iff in H. simpl in H. tauto.
Qed.

Lemma to_unique_tuple_In seq x : In x (to_unique_tuple eqb seq) -> In x seq.
Proof. intros H. apply to_unique_loop_In in H as [H | []]. exact H. Qed.

Lemma to_unique_loop_keys seq acc k :
  In k (map key (to_unique_loop eqb seq acc))
  <-> In k (map key seq) \/ In k (map key acc).
Proof.
  revert acc. induction seq as [|y seq IH]; intros acc; simpl; [tauto |].
  destruct (py_in eqb y acc) eqn:Hin; rewrite IH.
  - apply py_in_key in Hin. split; [tauto |].
    intros [[<- | H] | H]; auto.
  - rewrite map_app, in_app_iff. simpl. tauto.
Qed.

Lemma to_unique_tuple_keys seq k :
  In k (map key (to_unique_tuple eqb seq)) <-> In k (map key seq).
Proof. unfold to_unique_tuple. rewrite to_unique_loop_keys. simpl. tauto. Qed.

Lemma py_in_to_unique_tuple x seq :
  py_in eqb x (to_unique_tuple eqb seq) = py_in eqb x seq.
Proof.
  destruct (py_in eqb x seq) eqn:H.
  - apply py_in_key, to_unique_tuple_keys, py_in_key, H.
  - apply py_in_key_false. rewrite to_unique_tuple_keys.
    apply py_in_key_false, H.
Qed.

(** Nothing is dropped from a list that has no duplicates. *)
Lemma to_unique_loop_id seq acc :
  unique (acc ++ seq) -> to_unique_loop eqb seq acc = acc ++ seq.
Proof.
  revert acc. induction seq as [|x seq IH]; intros acc H; simpl.
  - symmetry. apply app_nil_r.
  - assert (Hx : py_in eqb x acc = false).
    { apply py_in_key_false. unfold unique in H. rewrite map_app in H. simpl in H.
      apply NoDup_remove_2 in H. intros Hin. apply H. apply in_app_iff. auto. }
    rewrite Hx. rewrite IH; rewrite <- app_assoc; [reflexivity | exact H].
Qed.

Lemma to_unique_tuple_id seq : unique seq -> to_unique_tuple eqb seq = seq.
Proof. intros H. apply (to_unique_loop_id seq []). exact H. Qed.

Lemma to_unique_loop_app l1 l2 acc :
  to_unique_loop eqb (l1 ++ l2) acc = to_unique_loop eqb l2 (to_unique_loop eqb l1 acc).
Proof.
  revert acc. induction l1 as [|x l1 IH]; intros acc; simpl; [reflexivity |].
  destruct (py_in eqb x acc); apply IH.
Qed.

Lemma py_in_to_unique_loop x seq acc :
  py_in eqb x (to_unique_loop eqb seq acc) = py_in eqb x seq || py_in eqb x acc.
Proof.
  destruct (py_in eqb x seq || py_in eqb x acc) eqn:H.
  - apply py_in_key, to_unique_loop_keys. apply orb_true_iff in H.
    rewrite <- !py_in_key. exact H.
  - apply py_in_key_false. rewrite to_unique_loop_keys.
    apply orb_false_iff in H as [H1 H2].
    apply py_in_key_false in H1, H2. tauto.
Qed.

(** Removing duplicates in two passes or in one is the same. *)
Lemma to_unique_loop_loop l b acc :
  to_unique_loop eqb (to_unique_loop eqb l b) acc
  = to_unique_loop eqb l (to_unique_loop eqb b acc).
Proof.
  revert b. induction l as [|x l IH]; intros b; simpl; [reflexivity |].
  rewrite py_in_to_unique_loop.
  destruct (py_in eqb x b) eqn:Hb; simpl.
  - rewrite IH. reflexivity.
  - rewrite IH, to_unique_loop_app. simpl.
    rewrite py_in_to_unique_loop, Hb. simpl.
    destruct (py_in eqb x acc); reflexivity.
Qed.

Lemma to_unique_tuple_app_r l1 l2 :
  to_unique_tuple eqb (l1 ++ to_unique_tuple eqb l2) = to_unique_tuple eqb (l1 ++ l2).
Proof.
  unfold to_unique_tuple. rewrite !to_unique_loop_app.
  apply (to_unique_loop_loop l2 []).
Qed.

Lemma unique_filter (f : A -> bool) l : unique l -> unique (List.filter f l).
Proof.
  unfold unique. induction l as [|x l IH]; simpl; [auto |].
  intros H. apply List.NoDup_cons_iff in H as [Hx Hl].
  destruct (f x); simpl; [| auto].
  apply List.NoDup_cons_iff. split; [| auto].
  intros Hin. apply Hx. apply in_map_iff in Hin as (y & Hy & Hin).
  apply filter_In in Hin as [Hin _]. apply in_map_iff. eauto.
Qed.

End Unique.

(** ** Term equality *)

Lemma factor_eqb_key (f g : Factor) :
  factor_eqb f g = true <-> factor_key f = factor_key g.
Proof. unfold factor_eqb. rewrite bool_decide_eq_true. reflexivity. Qed.

Lemma Term_eq_key (x y : Term) : Term_eq x y = true <-> term_key x = term_key y.
Proof.
  unfold Term_eq, term_key. rewrite bool_decide_eq_true.
  split; intros H; symmetry; exact H.
Qed.

Lemma elem_of_frozenset (k : string + string) (fs : list Factor) :
  k ∈ frozenset fs <-> In k (map factor_key fs).
Proof. unfold frozenset. rewrite elem_of_list_to_set. apply list_elem_of_In. Qed.

Lemma frozenset_ext (fs gs : list Factor) :
  frozenset fs = frozenset gs
  <-> forall k, In k (map factor_key fs) <-> In k (map factor_key gs).
Proof.
  split.
  - intros H k. rewrite <- !elem_of_frozenset, H. reflexivity.
  - intros H. apply leibniz_equiv. intros k. rewrite !elem_of_frozenset. apply H.
Qed.

Lemma frozenset_to_unique_tuple (fs : list Factor) :
  frozenset (to_unique_tuple factor_eqb fs) = frozenset fs.
Proof.
  apply frozenset_ext. intros k.
  apply (to_unique_tuple_keys factor_key factor_eqb factor_eqb_key).
Qed.

Lemma frozenset_empty (fs : list Factor) : frozenset fs = ∅ <-> fs = [].
Proof.
  split; [| intros ->; reflexivity].
  destruct fs as [|f fs]; [reflexivity |]. intros H. exfalso.
  assert (Hin : factor_key f ∈ frozenset (f :: fs)).
  { apply elem_of_frozenset. left. reflexivity. }
  rewrite H in Hin. exact (not_elem_of_empty _ Hin).
Qed.

Lemma term_key_Term_init (fs : list Factor) : term_key (Term_init fs) = frozenset fs.
Proof. apply frozenset_to_unique_tuple. Qed.

Lemma to_unique_tuple_nil_inv {A} (eqb : A -> A -> bool) (l : list A) :
  to_unique_tuple eqb l = [] -> l = [].
Proof.
  destruct l as [|x l]; [reflexivity |]. unfold to_unique_tuple. simpl.
  assert (H : forall seq acc, acc <> [] -> to_unique_loop eqb seq acc <> []).
  { induction seq as [|y seq IH]; intros acc Hacc; simpl; [exact Hacc |].
    destruct (py_in eqb y acc); apply IH; [exact Hacc |].
    destruct acc; discriminate. }
  intros Hl. exfalso. apply (H l [x]); [discriminate | exact Hl].
Qed.

Lemma factors_Term_init_nil (fs : list Factor) :
  factors (Term_init fs) = [] <-> fs = [].
Proof.
  split; [apply to_unique_tuple_nil_inv | intros ->; reflexivity].
Qed.

(** A term is [== INTERCEPT] exactly when it has no factors. *)
Lemma Term_eq_INTERCEPT (t : Term) : Term_eq t INTERCEPT = true <-> factors t = [].
Proof.
  rewrite Term_eq_key. unfold term_key. simpl.
  change (frozenset []) with (∅ : gset (string + string)).
  apply frozenset_empty.
Qed.

Lemma INTERCEPT_Term_eq (t : Term) : Term_eq INTERCEPT t = true <-> factors t = [].
Proof.
  rewrite Term_eq_key. unfold term_key. simpl.
  change (frozenset []) with (∅ : gset (string + string)).
  split; [intros H; symmetry in H | intros H; symmetry]; apply frozenset_empty; exact H.
Qed.

(** C5. Two terms built from two sequences of factors are [==] exactly
    when the sequences hold the same factors (every factor is [in] the one
    iff it is [in] the other), whatever the order they were given in; terms
    that are [==] have the same [hash]; so [Term([a, b]) == Term([b, a])]
    and their hashes agree. *)
Theorem Term_eq_iff_same_factor_set :
  forall (py_hash : gset (string + string) -> Z) (fs1 fs2 : list Factor),
    (Term_eq (Term_init fs1) (Term_init fs2) = true
     <-> forall f, py_in factor_eqb f fs1 = true <-> py_in factor_eqb f fs2 = true)
    /\ (Term_eq (Term_init fs1) (Term_init fs2) = true ->
        Term_hash py_hash (Term_init fs1) = Term_hash py_hash (Term_init fs2))
    /\ (forall a b : Factor,
          Term_eq (Term_init [a; b]) (Term_init [b; a]) = true
          /\ Term_hash py_hash (Term_init [a; b]) = Term_hash py_hash (Term_init [b; a])).
Proof.
  intros py_hash fs1 fs2.
  assert (Hperm : forall a b : Factor,
             term_key (Term_init [a; b]) = term_key (Term_init [b; a])).
  { intros a b. rewrite !term_key_Term_init. apply frozenset_ext. intros k.
    simpl. tauto. }
  split; [| split].
  - rewrite Term_eq_key, !term_key_Term_init, frozenset_ext. split.
    + intros H f. rewrite !(py_in_key factor_key factor_eqb factor_eqb_key). apply H.
    + intros H k. split; intros Hk; apply in_map_iff in Hk as (f & <- & Hf).
      * apply (py_in_key factor_key factor_eqb factor_eqb_key), H,
          (py_in_key factor_key factor_eqb factor_eqb_key), in_map, Hf.
      * apply (py_in_key factor_key factor_eqb factor_eqb_key), H,
          (py_in_key factor_key factor_eqb factor_eqb_key), in_map, Hf.
  - intros H. apply Term_eq_key in H. unfold Term_hash. f_equal. exact H.
  - intros a b. split.
    + apply Term_eq_key, Hperm.
    + unfold Term_hash. f_equal. apply Hperm.
Qed.

Lemma swapped_factors_instance :
  Term_hash (fun s => Z.of_nat (size s))
    (Term_init [LookupFactor "a" None; LookupFactor "b" None])
  = Term_hash (fun s => Z.of_nat (size s))
      (Term_init [LookupFactor "b" None; LookupFactor "a" None; LookupFactor "b" None]).
Proof.
  destruct (Term_eq_iff_same_factor_set (fun s => Z.of_nat (size s))
              [LookupFactor "a" None; LookupFactor "b" None]
              [LookupFactor "b" None; LookupFactor "a" None; LookupFactor "b" None])
    as (_ & H & _).
  apply H. vm_compute. reflexivity.
Defined.

(** ** The invariant of the walk *)

Lemma good_bind {A B} (P : A -> Prop) (Q : B -> Prop) (m : Result A)
    (k : A -> Result B) :
  good P m -> (forall a, P a -> good Q (k a)) -> good Q (bind m k).
Proof. destruct m as [a|e]; simpl; auto. Qed.

Lemma good_Ok {A} (P : A -> Prop) (m : Result A) (a : A) :
  good P m -> m = Ok a -> P a.
Proof. intros H ->. exact H. Qed.

Lemma IntermediateExpr_init_Ok i o r ts :
  (i = true -> truthy o = true) -> i && r = false ->
  IntermediateExpr_init i o r ts
  = Ok (mkIntermediateExpr i o r (to_unique_tuple Term_eq ts)).
Proof.
  intros Ho Hr. unfold IntermediateExpr_init.
  destruct i; simpl in *; [| reflexivity].
  rewrite (Ho eq_refl), Hr. reflexivity.
Qed.

Lemma IntermediateExpr_init_inv i o r ts e :
  IntermediateExpr_init i o r ts = Ok e ->
  e = mkIntermediateExpr i o r (to_unique_tuple Term_eq ts)
  /\ (i = true -> truthy o = true) /\ i && r = false.
Proof.
  unfold IntermediateExpr_init.
  destruct i; simpl.
  - destruct (truthy o); simpl; [| discriminate].
    destruct r; [discriminate |]. intros [= <-]. auto.
  - intros [= <-]. split; [reflexivity | split; [discriminate | reflexivity]].
Qed.

Lemma terms_unique ts : unique term_key (to_unique_tuple Term_eq ts).
Proof. apply (to_unique_tuple_unique term_key Term_eq Term_eq_key). Qed.

Lemma terms_id ts : unique term_key ts -> to_unique_tuple Term_eq ts = ts.
Proof. apply (to_unique_tuple_id term_key Term_eq Term_eq_key). Qed.

Lemma good_init i o r ts :
  (forall t, In t ts -> factors t <> []) ->
  (i = true -> truthy o = true) -> i && r = false ->
  good wf_expr (IntermediateExpr_init i o r ts).
Proof.
  intros Hts Ho Hr. rewrite IntermediateExpr_init_Ok by assumption. simpl.
  split; [apply terms_unique | split; [| split]]; simpl; try assumption.
  intros t Ht. apply Hts. eapply to_unique_tuple_In, Ht.
Qed.

Lemma good_check_interactable e :
  good (fun _ => intercept e = false) (_check_interactable e).
Proof.
  unfold _check_interactable. destruct (intercept e); simpl; [discriminate | reflexivity].
Qed.

Lemma good_interaction l r :
  (forall t, In t (terms r) -> factors t <> []) ->
  good wf_expr (_interaction l r).
Proof.
  intros Hr. unfold _interaction.
  eapply good_bind; [apply good_check_interactable | intros _ _].
  eapply good_bind; [apply good_check_interactable | intros _ _].
  apply good_init; [| discriminate | reflexivity].
  intros t Ht. apply in_flat_map in Ht as (lt & _ & Ht).
  apply in_map_iff in Ht as (rt & <- & Hrt).
  rewrite factors_Term_init_nil. intros H. apply app_eq_nil in H as [_ H].
  exact (Hr rt Hrt H).
Qed.

Section RulesGood.
Variable evaluator : ParseNode -> Result IntermediateExpr.

Local Abbreviation evaluator_good := (evaluator_good evaluator).

Lemma good_eval_args l :
  evaluator_good l ->
  good (fun exprs => Forall wf_expr exprs /\ length exprs = length l)
    (eval_args evaluator l).
Proof.
  induction 1 as [|arg rest Harg Hrest IH]; simpl; [split; [constructor | reflexivity] |].
  eapply good_bind; [exact Harg | intros e He].
  eapply good_bind; [exact IH | intros es [Hes Hlen]]. simpl.
  split; [constructor; assumption | congruence].
Qed.

Lemma wf_terms_app e1 e2 t :
  wf_expr e1 -> wf_expr e2 -> In t (terms e1 ++ terms e2) -> factors t <> [].
Proof.
  intros (_ & H1 & _) (_ & H2 & _) Ht. apply in_app_iff in Ht as [Ht | Ht]; auto.
Qed.

Lemma good_binary_plus tree :
  evaluator_good (args tree) -> good wf_value (_eval_binary_plus evaluator tree).
Proof.
  unfold _eval_binary_plus. intros Hargs.
  destruct (args tree) as [|a0 rest]; [discriminate |].
  apply Forall_cons_1 in Hargs as [H0 Hrest].
  eapply good_bind; [exact H0 | intros le Hle].
  destruct rest as [|a1 rest]; [discriminate |].
  apply Forall_cons_1 in Hrest as [H1 _].
  destruct (String.eqb (type a1) "ZERO").
  - eapply good_bind; [| intros r Hr; exact Hr].
    apply good_init; [apply Hle | discriminate | reflexivity].
  - eapply good_bind; [exact H1 | intros re Hre].
    destruct (intercept re) eqn:Hi.
    + eapply good_bind; [| intros r Hr; exact Hr].
      apply good_init; [intros t; apply wf_terms_app; assumption | | reflexivity].
      intros _. apply Hre, Hi.
    + eapply good_bind; [| intros r Hr; exact Hr].
      apply good_init; [intros t; apply wf_terms_app; assumption | apply Hle | apply Hle].
Qed.

Lemma good_binary_minus tree :
  evaluator_good (args tree) -> good wf_value (_eval_binary_minus evaluator tree).
Proof.
  unfold _eval_binary_minus. intros Hargs.
  destruct (args tree) as [|a0 rest]; [discriminate |].
  apply Forall_cons_1 in Hargs as [H0 Hrest].
  eapply good_bind; [exact H0 | intros le Hle].
  destruct rest as [|a1 rest]; [discriminate |].
  apply Forall_cons_1 in Hrest as [H1 _].
  destruct (String.eqb (type a1) "ZERO").
  { eapply good_bind; [| intros r Hr; exact Hr].
    apply good_init; [apply Hle | reflexivity | reflexivity]. }
  destruct (String.eqb (type a1) "ONE").
  { eapply good_bind; [| intros r Hr; exact Hr].
    apply good_init; [apply Hle | discriminate | reflexivity]. }
  eapply good_bind; [exact H1 | intros re Hre].
  assert (Hf : forall t,
             In t (List.filter (fun term => negb (py_in Term_eq term (terms re)))
                     (terms le)) -> factors t <> []).
  { intros t Ht. apply filter_In in Ht as [Ht _]. apply Hle, Ht. }
  destruct (intercept re).
  - eapply good_bind; [| intros r Hr; exact Hr].
    apply good_init; [exact Hf | discriminate | reflexivity].
  - eapply good_bind; [| intros r Hr; exact Hr].
    apply good_init; [exact Hf | apply Hle | apply Hle].
Qed.

Lemma good_binary_prod tree :
  evaluator_good (args tree) -> good wf_value (_eval_binary_prod evaluator tree).
Proof.
  unfold _eval_binary_prod. intros Hargs.
  eapply good_bind; [apply good_eval_args, Hargs | intros exprs [Hes _]].
  destruct exprs as [|e0 [|e1 [|e2 rest]]]; try discriminate.
  apply Forall_cons_1 in Hes as [He0 Hes]. apply Forall_cons_1 in Hes as [He1 _].
  eapply good_bind; [apply good_interaction, He1 | intros inter Hinter].
  eapply good_bind; [| intros r Hr; exact Hr].
  apply good_init; [| discriminate | reflexivity].
  intros t Ht. apply in_app_iff in Ht as [Ht | Ht]; [apply He0, Ht |].
  apply in_app_iff in Ht as [Ht | Ht]; [apply He1, Ht | apply Hinter, Ht].
Qed.

Lemma good_binary_div tree :
  evaluator_good (args tree) -> good wf_value (_eval_binary_div evaluator tree).
Proof.
  unfold _eval_binary_div. intros Hargs.
  destruct (args tree) as [|a0 rest]; [discriminate |].
  apply Forall_cons_1 in Hargs as [H0 Hrest].
  eapply good_bind; [exact H0 | intros le Hle].
  destruct rest as [|a1 rest]; [discriminate |].
  apply Forall_cons_1 in Hrest as [H1 _].
  eapply good_bind; [exact H1 | intros re Hre].
  eapply good_bind; [apply good_check_interactable | intros _ _].
  rewrite (IntermediateExpr_init_Ok false None false [_]) by (discriminate || reflexivity).
  cbn [bind].
  eapply good_bind; [apply good_interaction, Hre | intros inter Hinter].
  eapply good_bind; [| intros r Hr; exact Hr].
  apply good_init; [| discriminate | reflexivity].
  intros t Ht. apply in_app_iff in Ht as [Ht | Ht]; [apply Hle, Ht | apply Hinter, Ht].
Qed.

Lemma good_binary_interact tree :
  evaluator_good (args tree) -> good wf_value (_eval_binary_interact evaluator tree).
Proof.
  unfold _eval_binary_interact. intros Hargs.
  eapply good_bind; [apply good_eval_args, Hargs | intros exprs [Hes _]].
  destruct exprs as [|e0 [|e1 [|e2 rest]]]; try discriminate.
  apply Forall_cons_1 in Hes as [He0 Hes]. apply Forall_cons_1 in Hes as [He1 _].
  eapply good_bind; [apply good_interaction, He1 | intros r Hr; exact Hr].
Qed.

Lemma good_power_loop n le big all_terms :
  (forall t, In t (terms big) -> factors t <> []) ->
  (forall t, In t all_terms -> factors t <> []) ->
  good (fun ts => forall t, In t ts -> factors t <> [])
    (power_loop n le big all_terms).
Proof.
  revert big all_terms. induction n as [|n IH]; intros big all_terms Hbig Hall; simpl.
  - exact Hall.
  - eapply good_bind; [apply good_interaction, Hbig | intros big' Hbig'].
    apply IH; [apply Hbig' |].
    intros t Ht. apply in_app_iff in Ht as [Ht | Ht]; [apply Hall, Ht | apply Hbig', Ht].
Qed.

Lemma good_binary_power tree :
  evaluator_good (args tree) -> good wf_value (_eval_binary_power evaluator tree).
Proof.
  unfold _eval_binary_power. intros Hargs.
  destruct (args tree) as [|a0 rest]; [discriminate |].
  apply Forall_cons_1 in Hargs as [H0 Hrest].
  eapply good_bind; [exact H0 | intros le Hle].
  eapply good_bind; [apply good_check_interactable | intros _ _].
  destruct rest as [|a1 rest]; [discriminate |].
  eapply (good_bind (fun _ => True)).
  { destruct (py_in String.eqb (type a1) ["ONE"; "NUMBER"]); [| exact I].
    destruct (extra (token a1)) as [expr|]; [| discriminate].
    destruct (py_int expr); exact I. }
  intros power _. destruct (power <? 1)%Z; [discriminate |].
  eapply good_bind; [apply good_power_loop; apply Hle | intros all_terms Hall].
  eapply good_bind; [| intros r Hr; exact Hr].
  apply good_init; [exact Hall | discriminate | reflexivity].
Qed.

Lemma good_unary_plus tree :
  evaluator_good (args tree) -> good wf_value (_eval_unary_plus evaluator tree).
Proof.
  unfold _eval_unary_plus. intros Hargs.
  destruct (args tree) as [|a0 rest]; [discriminate |].
  apply Forall_cons_1 in Hargs as [H0 _].
  eapply good_bind; [exact H0 | intros r Hr; exact Hr].
Qed.

Lemma good_any_tilde tree :
  length (args tree) = 1 \/ length (args tree) = 2 ->
  evaluator_good (args tree) -> good wf_value (_eval_any_tilde evaluator tree).
Proof.
  unfold _eval_any_tilde. intros Hlen Hargs.
  eapply good_bind; [apply good_eval_args, Hargs | intros exprs [_ Hl]].
  rewrite <- Hl in Hlen.
  destruct exprs as [|e0 [|e1 [|e2 rest]]]; simpl in Hlen; try lia; simpl; exact I.
Qed.
End RulesGood.

Lemma good_unary_minus tree : good wf_value (_eval_unary_minus tree).
Proof.
  unfold _eval_unary_minus. destruct (args tree) as [|a0 rest]; [discriminate |].
  destruct (String.eqb (type a0) "ZERO"); [simpl; repeat split; try constructor; intros ? [] |].
  destruct (String.eqb (type a0) "ONE"); [simpl; repeat split; try constructor; try discriminate; intros ? [] |].
  discriminate.
Qed.

Lemma good_zero tree : good wf_value (_eval_zero tree).
Proof. simpl. repeat split; try constructor; try discriminate. intros ? []. Qed.

Lemma good_one tree : good wf_value (_eval_one tree).
Proof. simpl. repeat split; try constructor. intros ? []. Qed.

Lemma good_number tree : good wf_value (_eval_number tree).
Proof. discriminate. Qed.

Lemma good_python_expr tree : good wf_value (_eval_python_expr tree).
Proof.
  unfold _eval_python_expr. destruct (extra (token tree)) as [code|]; [| discriminate].
  eapply good_bind; [| intros r Hr; exact Hr].
  apply good_init; [| discriminate | reflexivity].
  intros t [<- | []]. rewrite factors_Term_init_nil. discriminate.
Qed.

(** ** The dispatch table *)

Lemma dispatch_unfold tree :
  dispatch tree =
  match _evaluators !! (type tree, length (args tree)) with
  | None =>
      Raise (CharltonError
               ("I don't know how to evaluate this '" +:+ type tree +:+ "' operator")
               (Some (AtToken (token tree))))
  | Some rule =>
      call rule (fun arg => result <- dispatch arg ;; check_evalexpr arg result) tree
  end.
Proof. destruct tree. reflexivity. Qed.

Lemma lookup_any_tilde ty n :
  _evaluators !! (ty, n) = Some R_any_tilde -> ty = "~" /\ (n = 1 \/ n = 2).
Proof.
  unfold _evaluators, add_op.
  repeat (rewrite lookup_insert_Some; intros [[[= <- <-] Hr] | [_ H]];
          [try discriminate Hr; auto | revert H]).
  rewrite lookup_empty. discriminate.
Qed.

Lemma good_check_evalexpr tree v :
  wf_value v -> good wf_expr (check_evalexpr tree v).
Proof. destruct v as [e|m]; simpl; [auto | discriminate]. Qed.

(** No assertion of the code fails during a walk, and every
    [IntermediateExpr] a rule returns satisfies [wf_expr]. *)
Lemma dispatch_good tree : good wf_value (dispatch tree).
Proof.
  induction tree as [ty tok l org IH] using ParseNode_ind.
  rewrite dispatch_unfold. cbn [type args].
  assert (Hev : evaluator_good
                  (fun arg => result <- dispatch arg ;; check_evalexpr arg result) l).
  { eapply List.Forall_impl; [| exact IH]. intros arg Harg. simpl in Harg.
    eapply good_bind; [exact Harg | apply good_check_evalexpr]. }
  destruct (_evaluators !! (ty, length l)) as [rule|] eqn:Hrule; [| discriminate].
  destruct rule; unfold call.
  - apply good_any_tilde; [| exact Hev]. apply lookup_any_tilde in Hrule. tauto.
  - apply good_binary_plus, Hev.
  - apply good_binary_minus, Hev.
  - apply good_binary_prod, Hev.
  - apply good_binary_div, Hev.
  - apply good_binary_interact, Hev.
  - apply good_binary_power, Hev.
  - apply good_unary_plus, Hev.
  - apply good_unary_minus.
  - apply good_zero.
  - apply good_one.
  - apply good_number.
  - apply good_python_expr.
Qed.

Lemma eval_expr_good tree : good wf_expr (eval_expr tree).
Proof.
  unfold eval_expr. eapply good_bind; [apply dispatch_good | apply good_check_evalexpr].
Qed.

Lemma eval_true_expr tree e : eval tree true = Ok (VExpr e) <-> eval_expr tree = Ok e.
Proof.
  unfold eval, eval_expr. destruct (dispatch tree) as [[e'|m]|err]; simpl;
    split; intros H; congruence.
Qed.

Lemma eval_true_wf tree e : eval tree true = Ok (VExpr e) -> wf_expr e.
Proof. intros H. apply eval_true_expr in H. exact (good_Ok _ _ _ (eval_expr_good tree) H). Qed.

(** [eval] of a node through its rule. *)
Lemma eval_call ty tok l org rule req :
  _evaluators !! (ty, length l) = Some rule ->
  eval (Node ty tok l org) req =
  (result <- call rule eval_expr (Node ty tok l org) ;;
   if req then e <- check_evalexpr (Node ty tok l org) result ;; Ok (VExpr e)
   else Ok result).
Proof.
  intros H. unfold eval. rewrite dispatch_unfold. cbn [type args]. rewrite H. reflexivity.
Qed.

Lemma lookup_tilde2 : _evaluators !! ("~", 2) = Some R_any_tilde.
Proof. vm_compute. reflexivity. Qed.
Lemma lookup_tilde1 : _evaluators !! ("~", 1) = Some R_any_tilde.
Proof. vm_compute. reflexivity. Qed.
Lemma lookup_plus2 : _evaluators !! ("+", 2) = Some R_binary_plus.
Proof. vm_compute. reflexivity. Qed.
Lemma lookup_minus2 : _evaluators !! ("-", 2) = Some R_binary_minus.
Proof. vm_compute. reflexivity. Qed.
Lemma lookup_prod2 : _evaluators !! ("*", 2) = Some R_binary_prod.
Proof. vm_compute. reflexivity. Qed.
Lemma lookup_div2 : _evaluators !! ("/", 2) = Some R_binary_div.
Proof. vm_compute. reflexivity. Qed.
Lemma lookup_interact2 : _evaluators !! (":", 2) = Some R_binary_interact.
Proof. vm_compute. reflexivity. Qed.
Lemma lookup_power2 : _evaluators !! ("**", 2) = Some R_binary_power.
Proof. vm_compute. reflexivity. Qed.
Lemma lookup_zero0 : _evaluators !! ("ZERO", 0) = Some R_zero.
Proof. vm_compute. reflexivity. Qed.

Lemma term_key_nonempty t : factors t <> [] -> term_key t <> ∅.
Proof. intros H Hk. apply H. apply frozenset_empty. exact Hk. Qed.

Lemma unique_INTERCEPT_cons e :
  wf_expr e -> unique term_key (INTERCEPT :: terms e).
Proof.
  intros (Hu & Hne & _). unfold unique. simpl. apply List.NoDup_cons; [| exact Hu].
  intros Hin. apply in_map_iff in Hin as (t & Ht & Hin).
  apply (term_key_nonempty t (Hne t Hin)). exact Ht.
Qed.

Lemma to_unique_maybe_add_intercept doit e :
  wf_expr e ->
  to_unique_tuple Term_eq (_maybe_add_intercept doit (terms e))
  = if doit then INTERCEPT :: terms e else terms e.
Proof.
  intros H. destruct doit; simpl; apply terms_id.
  - apply unique_INTERCEPT_cons, H.
  - apply H.
Qed.

(** C1. A two-argument [~] node gives the [ModelDesc] whose left-hand
    list is the terms of the left operand, behind [INTERCEPT] exactly when
    the left operand has an intercept, and whose right-hand list is the
    terms of the right operand, behind [INTERCEPT] exactly when the right
    operand has not removed its intercept.  A one-argument [~] node gives
    an empty left-hand list, and evaluates as the two-argument node with a
    literal [0] on the left.  ["y ~ a + b"] gives [y] on the left and
    [INTERCEPT], [a], [b] on the right. *)
Theorem tilde_intercept_asymmetry :
  (forall tok org l r le re,
      eval l true = Ok (VExpr le) ->
      eval r true = Ok (VExpr re) ->
      eval (Node "~" tok [l; r] org) false
      = Ok (VModel
              (mkModelDesc
                 (if intercept le then INTERCEPT :: terms le else terms le)
                 (if intercept_removed re then terms re else INTERCEPT :: terms re))))
  /\ (forall tok org r re,
         eval r true = Ok (VExpr re) ->
         eval (Node "~" tok [r] org) false
         = Ok (VModel
                 (mkModelDesc []
                    (if intercept_removed re then terms re else INTERCEPT :: terms re))))
  /\ (forall tok org tok' org' zero r,
         type zero = "ZERO" -> args zero = [] ->
         eval (Node "~" tok [r] org) false = eval (Node "~" tok' [zero; r] org') false)
  /\ from_formula f_y_a_b
     = Ok (mkModelDesc
                [Term_init [EvalFactor "y" (mkOrigin "y ~ a + b" 0 1)]]
                [INTERCEPT;
                 Term_init [EvalFactor "a" (mkOrigin "y ~ a + b" 4 5)];
                 Term_init [EvalFactor "b" (mkOrigin "y ~ a + b" 8 9)]]).
Proof.
  split; [| split; [| split]].
  - intros tok org l r le re Hl Hr.
    pose proof (eval_true_wf _ _ Hl) as Wl. pose proof (eval_true_wf _ _ Hr) as Wr.
    apply eval_true_expr in Hl, Hr.
    rewrite (eval_call "~" tok [l; r] org _ _ lookup_tilde2).
    unfold call, _eval_any_tilde. cbn [args eval_args]. rewrite Hl, Hr.
    cbn [bind length Nat.eqb]. unfold ModelDesc_init.
    rewrite !to_unique_maybe_add_intercept by assumption.
    destruct (intercept_removed re); reflexivity.
  - intros tok org r re Hr.
    pose proof (eval_true_wf _ _ Hr) as Wr. apply eval_true_expr in Hr.
    rewrite (eval_call "~" tok [r] org _ _ lookup_tilde1).
    unfold call, _eval_any_tilde. cbn [args eval_args]. rewrite Hr.
    cbn [bind length Nat.eqb].
    change (IntermediateExpr_init false None true [])
      with (Ok (mkIntermediateExpr false None true [])).
    cbn [bind intercept terms _maybe_add_intercept]. unfold ModelDesc_init.
    change (to_unique_tuple Term_eq []) with (@nil Term).
    rewrite to_unique_maybe_add_intercept by assumption.
    destruct (intercept_removed re); reflexivity.
  - intros tok org tok' org' zero r Hty Hargs.
    rewrite (eval_call "~" tok [r] org _ _ lookup_tilde1),
      (eval_call "~" tok' [zero; r] org' _ _ lookup_tilde2).
    unfold call, _eval_any_tilde. cbn [args eval_args].
    assert (Hz : eval_expr zero = Ok (mkIntermediateExpr false None true [])).
    { unfold eval_expr. rewrite dispatch_unfold, Hty, Hargs. cbn [length].
      rewrite lookup_zero0. reflexivity. }
    rewrite Hz. destruct (eval_expr r) as [re|err]; reflexivity.
  - vm_compute. reflexivity.
Qed.

(** The left operand [y] and the right operand [a + b] of ["y ~ a + b"]
    evaluate, and the first part of the theorem applies to them. *)
Lemma y_tilde_a_plus_b_instance :
  exists m, eval f_y_a_b false = Ok (VModel m) /\ length (rhs_termlist m) = 3.
Proof.
  destruct tilde_intercept_asymmetry as [H _].
  eexists. split.
  - unfold f_y_a_b, binop. apply H; vm_compute; reflexivity.
  - vm_compute. reflexivity.
Defined.

(** ** The rules at a node *)

Lemma eval_call_Ok ty tok l org rule req e :
  _evaluators !! (ty, length l) = Some rule ->
  call rule eval_expr (Node ty tok l org) = Ok (VExpr e) ->
  eval (Node ty tok l org) req = Ok (VExpr e).
Proof.
  intros Hrule Hcall. rewrite (eval_call _ _ _ _ _ _ Hrule), Hcall.
  destruct req; reflexivity.
Qed.

Lemma eval_call_Raise ty tok l org rule req err :
  _evaluators !! (ty, length l) = Some rule ->
  call rule eval_expr (Node ty tok l org) = Raise err ->
  eval (Node ty tok l org) req = Raise err.
Proof.
  intros Hrule Hcall. rewrite (eval_call _ _ _ _ _ _ Hrule), Hcall. reflexivity.
Qed.

Lemma init_plain_Ok ts :
  IntermediateExpr_init false None false ts
  = Ok (mkIntermediateExpr false None false (to_unique_tuple Term_eq ts)).
Proof. reflexivity. Qed.

Lemma init_removed_Ok ts :
  IntermediateExpr_init false None true ts
  = Ok (mkIntermediateExpr false None true (to_unique_tuple Term_eq ts)).
Proof. reflexivity. Qed.

Lemma init_copy_Ok e ts :
  wf_expr e ->
  IntermediateExpr_init (intercept e) (intercept_origin e) (intercept_removed e) ts
  = Ok (mkIntermediateExpr (intercept e) (intercept_origin e) (intercept_removed e)
          (to_unique_tuple Term_eq ts)).
Proof. intros (_ & _ & Ho & Hr). apply IntermediateExpr_init_Ok; assumption. Qed.

Lemma interaction_eq le re :
  _interaction le re =
  if intercept le then Raise (CharltonError intercept_message (intercept_origin le))
  else if intercept re then Raise (CharltonError intercept_message (intercept_origin re))
  else Ok (mkIntermediateExpr false None false
             (to_unique_tuple Term_eq (pairwise_terms (terms le) (terms re)))).
Proof.
  unfold _interaction, _check_interactable.
  destruct (intercept le); [reflexivity |]. destruct (intercept re); reflexivity.
Qed.

(** C2. A binary [+] node whose right operand is the literal [0] has no
    intercept, has its intercept removed, and keeps exactly the terms of
    its left operand, whatever intercept the left operand had: ["1 + 0"]
    has no intercept though its left operand has one, and ["0 + 1"] has
    one. *)
Theorem plus_zero_discards_left_intercept :
  (forall tok org l r le,
      type r = "ZERO" ->
      eval l true = Ok (VExpr le) ->
      eval (Node "+" tok [l; r] org) true
      = Ok (VExpr (mkIntermediateExpr false None true (terms le))))
  /\ eval (leaf "1 + 0" "ONE" 0 1 "1") true
     = Ok (VExpr (mkIntermediateExpr true (Some (AtOrigin (mkOrigin "1 + 0" 0 1)))
                    false []))
  /\ eval f_1_plus_0 true = Ok (VExpr (mkIntermediateExpr false None true []))
  /\ eval f_0_plus_1 true
     = Ok (VExpr (mkIntermediateExpr true (Some (AtOrigin (mkOrigin "0 + 1" 4 5)))
                    false [])).
Proof.
  split; [| repeat split; vm_compute; reflexivity].
  intros tok org l r le Hty Hl.
  pose proof (eval_true_wf _ _ Hl) as Wl. apply eval_true_expr in Hl.
  apply (eval_call_Ok "+" tok [l; r] org _ _ _ lookup_plus2).
  unfold call, _eval_binary_plus. cbn [args]. rewrite Hl. cbn [bind]. rewrite Hty.
  change ("ZERO" =? "ZERO")%string with true. cbv iota.
  rewrite init_removed_Ok. cbn [bind]. rewrite terms_id by apply Wl. reflexivity.
Qed.

Lemma one_plus_zero_instance :
  eval f_1_plus_0 true = Ok (VExpr (mkIntermediateExpr false None true [])).
Proof.
  destruct plus_zero_discards_left_intercept as [H _].
  unfold f_1_plus_0, binop.
  apply (H _ _ _ _ (mkIntermediateExpr true (Some (AtOrigin (mkOrigin "1 + 0" 0 1)))
                      false [])); vm_compute; reflexivity.
Defined.

(** C6. A binary [-] node whose right operand is neither the literal [0]
    nor the literal [1] keeps the terms of its left operand that are [==]
    to no term of its right operand; its intercept is removed if the right
    operand has an intercept, and is the intercept state of the left
    operand otherwise.  ["a:b - a:b"] and ["a:b - b:a"] have no terms. *)
Theorem minus_removes_equal_terms :
  (forall tok org l r le re,
      type r <> "ZERO" -> type r <> "ONE" ->
      eval l true = Ok (VExpr le) ->
      eval r true = Ok (VExpr re) ->
      exists res,
        eval (Node "-" tok [l; r] org) true = Ok (VExpr res)
        /\ terms res
           = List.filter (fun t => negb (existsb (Term_eq t) (terms re))) (terms le)
        /\ (forall t, In t (terms res)
                      <-> In t (terms le)
                          /\ forall u, In u (terms re) -> Term_eq t u = false)
        /\ (intercept re = true ->
            intercept res = false /\ intercept_removed res = true
            /\ intercept_origin res = None)
        /\ (intercept re = false ->
            intercept res = intercept le
            /\ intercept_removed res = intercept_removed le
            /\ intercept_origin res = intercept_origin le))
  /\ eval f_ab_minus_ab true = Ok (VExpr (mkIntermediateExpr false None false []))
  /\ eval f_ab_minus_ba true = Ok (VExpr (mkIntermediateExpr false None false [])).
Proof.
  split; [| split; vm_compute; reflexivity].
  intros tok org l r le re Hz Ho Hl Hr.
  pose proof (eval_true_wf _ _ Hl) as Wl. pose proof (eval_true_wf _ _ Hr) as Wr.
  apply eval_true_expr in Hl, Hr.
  apply String.eqb_neq in Hz, Ho.
  set (ts := List.filter (fun t => negb (existsb (Term_eq t) (terms re))) (terms le)).
  assert (Hts : to_unique_tuple Term_eq ts = ts).
  { apply terms_id, unique_filter, Wl. }
  assert (Hin : forall t, In t ts
                          <-> In t (terms le)
                              /\ forall u, In u (terms re) -> Term_eq t u = false).
  { intros t. unfold ts. rewrite filter_In, negb_true_iff. split.
    - intros [Ht Hex]. split; [exact Ht |]. intros u Hu.
      destruct (Term_eq t u) eqn:E; [| reflexivity].
      assert (existsb (Term_eq t) (terms re) = true) by (apply existsb_exists; eauto).
      congruence.
    - intros [Ht Hall]. split; [exact Ht |].
      destruct (existsb (Term_eq t) (terms re)) eqn:E; [| reflexivity].
      apply existsb_exists in E as (u & Hu & E). rewrite (Hall u Hu) in E. discriminate. }
  assert (Hcall : call R_binary_minus eval_expr (Node "-" tok [l; r] org)
                  = if intercept re
                    then Ok (VExpr (mkIntermediateExpr false None true ts))
                    else Ok (VExpr (mkIntermediateExpr (intercept le)
                                      (intercept_origin le) (intercept_removed le) ts))).
  { unfold call, _eval_binary_minus. cbn [args]. rewrite Hl. cbn [bind].
    rewrite Hz, Ho, Hr. cbn [bind]. fold (py_in Term_eq). unfold py_in at 1 2. fold ts.
    destruct (intercept re).
    - rewrite init_removed_Ok, Hts. reflexivity.
    - rewrite init_copy_Ok by exact Wl. rewrite Hts. reflexivity. }
  destruct (intercept re) eqn:Hi.
  - eexists. split; [apply (eval_call_Ok "-" tok [l; r] org _ _ _ lookup_minus2 Hcall) |].
    simpl. repeat split; try apply Hin; try discriminate; auto.
  - eexists. split; [apply (eval_call_Ok "-" tok [l; r] org _ _ _ lookup_minus2 Hcall) |].
    simpl. repeat split; try apply Hin; try discriminate; auto.
Qed.

Lemma ab_minus_ba_instance :
  exists res, eval f_ab_minus_ba true = Ok (VExpr res) /\ terms res = [].
Proof.
  destruct minus_removes_equal_terms as [H _].
  unfold f_ab_minus_ba.
  destruct (H (mkToken "-" (mkOrigin "a:b - b:a" 4 5) None)
              (mkOrigin "a:b - b:a" 0 9)
              (binop "a:b - b:a" ":" 1 2 (var "a:b - b:a" 0 "a") (var "a:b - b:a" 2 "b"))
              (binop "a:b - b:a" ":" 7 8 (var "a:b - b:a" 6 "b") (var "a:b - b:a" 8 "a"))
              (mkIntermediateExpr false None false
                 [Term_init [EvalFactor "a" (mkOrigin "a:b - b:a" 0 1);
                             EvalFactor "b" (mkOrigin "a:b - b:a" 2 3)]])
              (mkIntermediateExpr false None false
                 [Term_init [EvalFactor "b" (mkOrigin "a:b - b:a" 6 7);
                             EvalFactor "a" (mkOrigin "a:b - b:a" 8 9)]]))
    as (res & Hev & Hts & _).
  - vm_compute. discriminate.
  - vm_compute. discriminate.
  - vm_compute. reflexivity.
  - vm_compute. reflexivity.
  - exists res. split; [exact Hev |]. rewrite Hts. vm_compute. reflexivity.
Defined.

Lemma pairwise_terms_In lts rts t :
  In t (pairwise_terms lts rts)
  <-> exists lt rt, In lt lts /\ In rt rts /\ t = Term_init (factors lt ++ factors rt).
Proof.
  unfold pairwise_terms. rewrite in_flat_map. split.
  - intros (lt & Hlt & Ht). apply in_map_iff in Ht as (rt & <- & Hrt). eauto.
  - intros (lt & rt & Hlt & Hrt & ->). exists lt. split; [exact Hlt |].
    apply in_map_iff. eauto.
Qed.

Lemma py_in_Term_eq_In t ts : In t ts -> py_in Term_eq t ts = true.
Proof.
  intros H. apply existsb_exists. exists t. split; [exact H |].
  apply Term_eq_key. reflexivity.
Qed.

Lemma py_in_terms_unique t ts :
  py_in Term_eq t (to_unique_tuple Term_eq ts) = py_in Term_eq t ts.
Proof. apply (py_in_to_unique_tuple term_key Term_eq Term_eq_key). Qed.

(** C7. With both operands evaluated, a [:] node fails with the error
    "intercept term cannot interact with anything else" at the origin of
    the intercept of the first operand that has one; with no intercept
    pending it has, without duplicates, exactly the terms made of the
    factors of a left term followed by those of a right term, for every
    pair of a left and a right term, and no other term.  ["a:1"] fails at
    the origin of the node of [1]. *)
Theorem interact_rejects_pending_intercept :
  (forall tok org l r le re,
      eval l true = Ok (VExpr le) ->
      eval r true = Ok (VExpr re) ->
      (intercept le = true ->
       eval (Node ":" tok [l; r] org) true
       = Raise (CharltonError "intercept term cannot interact with anything else"
                  (intercept_origin le)))
      /\ (intercept le = false -> intercept re = true ->
          eval (Node ":" tok [l; r] org) true
          = Raise (CharltonError "intercept term cannot interact with anything else"
                     (intercept_origin re)))
      /\ (intercept le = false -> intercept re = false ->
          exists res,
            eval (Node ":" tok [l; r] org) true = Ok (VExpr res)
            /\ terms res
               = to_unique_tuple Term_eq (pairwise_terms (terms le) (terms re))
            /\ (forall t, In t (terms res) ->
                  exists lt rt, In lt (terms le) /\ In rt (terms re)
                                /\ t = Term_init (factors lt ++ factors rt))
            /\ (forall lt rt, In lt (terms le) -> In rt (terms re) ->
                  py_in Term_eq (Term_init (factors lt ++ factors rt)) (terms res)
                  = true)))
  /\ origin (leaf "a:1" "ONE" 2 3 "1") = mkOrigin "a:1" 2 3
  /\ eval f_a_inter_1 true
     = Raise (CharltonError "intercept term cannot interact with anything else"
                (Some (AtOrigin (mkOrigin "a:1" 2 3)))).
Proof.
  split; [| split; vm_compute; reflexivity].
  intros tok org l r le re Hl Hr.
  apply eval_true_expr in Hl, Hr.
  assert (Hcall : call R_binary_interact eval_expr (Node ":" tok [l; r] org)
                  = (r' <- _interaction le re ;; Ok (VExpr r'))).
  { unfold call, _eval_binary_interact. cbn [args eval_args]. rewrite Hl, Hr.
    reflexivity. }
  rewrite interaction_eq in Hcall. split; [| split].
  - intros Hi. rewrite Hi in Hcall.
    apply (eval_call_Raise ":" tok [l; r] org _ _ _ lookup_interact2 Hcall).
  - intros Hi Hi'. rewrite Hi, Hi' in Hcall.
    apply (eval_call_Raise ":" tok [l; r] org _ _ _ lookup_interact2 Hcall).
  - intros Hi Hi'. rewrite Hi, Hi' in Hcall. eexists.
    split; [apply (eval_call_Ok ":" tok [l; r] org _ _ _ lookup_interact2 Hcall) |].
    cbn [terms]. split; [reflexivity | split].
    + intros t Ht. apply to_unique_tuple_In in Ht. apply pairwise_terms_In, Ht.
    + intros lt rt Hlt Hrt. rewrite py_in_terms_unique. apply py_in_Term_eq_In.
      apply pairwise_terms_In. eauto.
Qed.

Lemma a_interact_one_instance :
  eval f_a_inter_1 true
  = Raise (CharltonError "intercept term cannot interact with anything else"
             (Some (AtOrigin (mkOrigin "a:1" 2 3)))).
Proof.
  destruct interact_rejects_pending_intercept as [H _].
  unfold f_a_inter_1, binop.
  destruct (H (mkToken ":" (mkOrigin "a:1" 1 2) None) (mkOrigin "a:1" 0 3)
              (var "a:1" 0 "a") (leaf "a:1" "ONE" 2 3 "1")
              (mkIntermediateExpr false None false
                 [Term_init [EvalFactor "a" (mkOrigin "a:1" 0 1)]])
              (mkIntermediateExpr true (Some (AtOrigin (mkOrigin "a:1" 2 3))) false []))
    as (_ & Hr & _); [vm_compute; reflexivity | vm_compute; reflexivity |].
  apply Hr; reflexivity.
Defined.

(** C3, as stated, fails: in ["a/1"] the left operand [a] has no pending
    intercept, and the node has no term list: it fails, because the
    right operand has a pending intercept. *)
Lemma a_div_one_fails :
  eval (var "a/1" 0 "a") true
  = Ok (VExpr (mkIntermediateExpr false None false
                 [Term_init [EvalFactor "a" (mkOrigin "a/1" 0 1)]]))
  /\ f_a_div_1
     = Node "/" (mkToken "/" (mkOrigin "a/1" 1 2) None)
         [var "a/1" 0 "a"; leaf "a/1" "ONE" 2 3 "1"] (mkOrigin "a/1" 0 3)
  /\ eval f_a_div_1 true
     = Raise (CharltonError "intercept term cannot interact with anything else"
                (Some (AtOrigin (mkOrigin "a/1" 2 3))))
  /\ ~ (exists res, eval f_a_div_1 true = Ok (VExpr res)).
Proof.
  repeat split; try (vm_compute; reflexivity).
  intros [res H]. vm_compute in H. discriminate H.
Qed.

(** C3, amended. With both operands evaluated and no intercept pending
    on the left, a [/] node fails with the intercept error when the right
    operand has a pending intercept; otherwise its terms are, without
    duplicates, the terms of the left operand followed by the interaction
    of one combined term, built from the factors of all the terms of the
    left operand in their order, with each term of the right operand.
    ["(a + b)/c"] has the terms [a], [b], [a:b:c]. *)
Theorem div_collapses_left :
  (forall tok org l r le re,
      eval l true = Ok (VExpr le) ->
      eval r true = Ok (VExpr re) ->
      intercept le = false ->
      (intercept re = true ->
       eval (Node "/" tok [l; r] org) true
       = Raise (CharltonError "intercept term cannot interact with anything else"
                  (intercept_origin re)))
      /\ (intercept re = false ->
          let combined := Term_init (flat_map factors (terms le)) in
          eval (Node "/" tok [l; r] org) true
          = Ok (VExpr
                  (mkIntermediateExpr false None false
                     (to_unique_tuple Term_eq
                        (terms le
                         ++ map (fun rt => Term_init (factors combined ++ factors rt))
                              (terms re)))))))
  /\ (exists res,
         eval f_ab_div_c true = Ok (VExpr res)
         /\ term_names (terms res) = [["a"]; ["b"]; ["a"; "b"; "c"]]).
Proof.
  split; [| eexists; split; vm_compute; reflexivity].
  intros tok org l r le re Hl Hr Hi.
  apply eval_true_expr in Hl, Hr.
  assert (Hcall : call R_binary_div eval_expr (Node "/" tok [l; r] org)
                  = (inter <- _interaction
                                (mkIntermediateExpr false None false
                                   [Term_init (flat_map factors (terms le))]) re ;;
                     r' <- IntermediateExpr_init false None false
                             (terms le ++ terms inter) ;;
                     Ok (VExpr r'))).
  { unfold call, _eval_binary_div. cbn [args]. rewrite Hl. cbn [bind]. rewrite Hr.
    cbn [bind]. unfold _check_interactable at 1. rewrite Hi. reflexivity. }
  rewrite interaction_eq in Hcall. cbn [intercept terms] in Hcall. split.
  - intros Hi'. rewrite Hi' in Hcall.
    apply (eval_call_Raise "/" tok [l; r] org _ _ _ lookup_div2 Hcall).
  - intros Hi' combined. rewrite Hi' in Hcall. cbn [bind terms] in Hcall.
    rewrite init_plain_Ok in Hcall. cbn [bind] in Hcall.
    rewrite (to_unique_tuple_app_r term_key Term_eq Term_eq_key) in Hcall.
    unfold pairwise_terms in Hcall. cbn [flat_map] in Hcall.
    rewrite app_nil_r in Hcall.
    apply (eval_call_Ok "/" tok [l; r] org _ _ _ lookup_div2 Hcall).
Qed.

Lemma a_plus_b_div_c_instance :
  exists res,
    eval f_ab_div_c true = Ok (VExpr res) /\ length (terms res) = 3.
Proof.
  destruct div_collapses_left as [H _].
  unfold f_ab_div_c.
  destruct (H (mkToken "/" (mkOrigin "(a + b)/c" 7 8) None) (mkOrigin "(a + b)/c" 1 9)
              (binop "(a + b)/c" "+" 3 4 (var "(a + b)/c" 1 "a") (var "(a + b)/c" 5 "b"))
              (var "(a + b)/c" 8 "c")
              (mkIntermediateExpr false None false
                 [Term_init [EvalFactor "a" (mkOrigin "(a + b)/c" 1 2)];
                  Term_init [EvalFactor "b" (mkOrigin "(a + b)/c" 5 6)]])
              (mkIntermediateExpr false None false
                 [Term_init [EvalFactor "c" (mkOrigin "(a + b)/c" 8 9)]]))
    as (_ & Hok); [vm_compute; reflexivity | vm_compute; reflexivity | reflexivity |].
  eexists. split; [exact (Hok eq_refl) |]. vm_compute. reflexivity.
Defined.

Lemma call_interaction_flags rule tok l r org res ty :
  rule = R_binary_interact \/ rule = R_binary_prod \/ rule = R_binary_div
  \/ rule = R_binary_power ->
  call rule eval_expr (Node ty tok [l; r] org) = Ok (VExpr res) ->
  intercept res = false /\ intercept_removed res = false.
Proof.
  intros Hrule Hcall.
  assert (Hinit : forall ts v,
             (r' <- IntermediateExpr_init false None false ts ;; Ok (VExpr r'))
             = Ok (VExpr v) ->
             intercept v = false /\ intercept_removed v = false).
  { intros ts v H. rewrite init_plain_Ok in H. cbn [bind] in H.
    injection H as <-. split; reflexivity. }
  assert (Hinter : forall a b v,
             _interaction a b = Ok v ->
             intercept v = false /\ intercept_removed v = false).
  { intros a b v H. rewrite interaction_eq in H.
    destruct (intercept a); [discriminate |]. destruct (intercept b); [discriminate |].
    injection H as <-. split; reflexivity. }
  destruct Hrule as [-> | [-> | [-> | ->]]]; unfold call in Hcall.
  - unfold _eval_binary_interact in Hcall. cbn [args eval_args] in Hcall.
    destruct (eval_expr l) as [le|]; [| discriminate].
    destruct (eval_expr r) as [re|]; [| discriminate]. cbn [bind] in Hcall.
    destruct (_interaction le re) as [v|] eqn:E; [| discriminate].
    cbn [bind] in Hcall. injection Hcall as <-. exact (Hinter _ _ _ E).
  - unfold _eval_binary_prod in Hcall. cbn [args eval_args] in Hcall.
    destruct (eval_expr l) as [le|]; [| discriminate].
    destruct (eval_expr r) as [re|]; [| discriminate]. cbn [bind] in Hcall.
    destruct (_interaction le re) as [v|]; [| discriminate].
    cbn [bind] in Hcall. exact (Hinit _ _ Hcall).
  - unfold _eval_binary_div in Hcall. cbn [args] in Hcall.
    destruct (eval_expr l) as [le|]; [| discriminate]. cbn [bind] in Hcall.
    destruct (eval_expr r) as [re|]; [| discriminate]. cbn [bind] in Hcall.
    destruct (_check_interactable le); [| discriminate]. cbn [bind] in Hcall.
    rewrite init_plain_Ok in Hcall. cbn [bind] in Hcall.
    destruct (_interaction _ re) as [v|]; [| discriminate].
    cbn [bind] in Hcall. exact (Hinit _ _ Hcall).
  - unfold _eval_binary_power in Hcall. cbn [args] in Hcall.
    destruct (eval_expr l) as [le|]; [| discriminate]. cbn [bind] in Hcall.
    destruct (_check_interactable le); [| discriminate]. cbn [bind] in Hcall.
    match type of Hcall with
    | bind ?m _ = _ => destruct m as [power|]; [| discriminate]
    end.
    cbn [bind] in Hcall. destruct (power <? 1)%Z; [discriminate |].
    destruct (power_loop _ le le (terms le)) as [ts|]; [| discriminate].
    cbn [bind] in Hcall. exact (Hinit _ _ Hcall).
Qed.

(** C9. Every [IntermediateExpr] a node evaluates to, and every one the
    constructor returns, has not both its intercept present and removed,
    and has an origin when its intercept is present; the assertions that
    guard this never fail during an evaluation. *)
Theorem intermediate_expr_invariant :
  (forall tree require_evalexpr e,
      eval tree require_evalexpr = Ok (VExpr e) ->
      ~ (intercept e = true /\ intercept_removed e = true)
      /\ (intercept e = true -> exists o, intercept_origin e = Some o))
  /\ (forall i o r ts e,
         IntermediateExpr_init i o r ts = Ok e ->
         ~ (intercept e = true /\ intercept_removed e = true)
         /\ (intercept e = true -> exists o', intercept_origin e = Some o'))
  /\ (forall tree require_evalexpr,
         eval tree require_evalexpr <> Raise AssertionError).
Proof.
  assert (Hwf : forall e, wf_expr e ->
             ~ (intercept e = true /\ intercept_removed e = true)
             /\ (intercept e = true -> exists o, intercept_origin e = Some o)).
  { intros e (_ & _ & Ho & Hr). split.
    - intros [H1 H2]. rewrite H1, H2 in Hr. discriminate.
    - intros Hi. specialize (Ho Hi). destruct (intercept_origin e); [eauto | discriminate]. }
  split; [| split].
  - intros tree req e H. apply Hwf.
    pose proof (dispatch_good tree) as Hd. unfold eval in H.
    destruct (dispatch tree) as [[e'|m]|]; try discriminate.
    + destruct req; cbn in H; injection H as <-; exact Hd.
    + destruct req; cbn in H; discriminate.
  - intros i o r ts e H. apply IntermediateExpr_init_inv in H as (-> & Ho & Hr).
    cbn [intercept intercept_removed intercept_origin]. split.
    + intros [H1 H2]. rewrite H1, H2 in Hr. discriminate.
    + intros Hi. specialize (Ho Hi). destruct o; [eauto | discriminate].
  - intros tree req H. pose proof (dispatch_good tree) as Hd. unfold eval in H.
    destruct (dispatch tree) as [[e'|m]|err]; cbn in H.
    + destruct req; discriminate.
    + destruct req; discriminate.
    + injection H as ->. apply Hd. reflexivity.
Qed.

Lemma zero_plus_one_instance :
  exists o, intercept_origin
              (mkIntermediateExpr true (Some (AtOrigin (mkOrigin "0 + 1" 4 5))) false [])
            = Some o.
Proof.
  destruct intermediate_expr_invariant as (H & _ & _).
  destruct (H f_0_plus_1 true
              (mkIntermediateExpr true (Some (AtOrigin (mkOrigin "0 + 1" 4 5))) false []))
    as [_ Ho]; [vm_compute; reflexivity |].
  apply Ho. reflexivity.
Defined.

(** ** Power *)

Lemma interaction_order_S ts j :
  interaction_order ts (S (S j))
  = to_unique_tuple Term_eq (pairwise_terms ts (interaction_order ts (S j))).
Proof. reflexivity. Qed.

Lemma power_loop_orders n le : forall j big all_terms,
  intercept le = false ->
  intercept big = false ->
  terms big = interaction_order (terms le) (S j) ->
  power_loop n le big all_terms
  = Ok (all_terms ++ flat_map (interaction_order (terms le)) (seq (S (S j)) n)).
Proof.
  induction n as [|n IH]; intros j big all_terms Hle Hbig Hterms.
  - simpl. rewrite app_nil_r. reflexivity.
  - cbn [power_loop]. rewrite interaction_eq, Hle, Hbig. cbn [bind].
    rewrite (IH (S j)); [| exact Hle | reflexivity |].
    + cbn [terms seq flat_map]. rewrite Hterms, <- interaction_order_S, <- app_assoc.
      reflexivity.
    + cbn [terms]. rewrite Hterms. reflexivity.
Qed.

Lemma power_call tok org l r le k :
  eval_expr l = Ok le ->
  intercept le = false ->
  positive_integer_literal r k ->
  call R_binary_power eval_expr (Node "**" tok [l; r] org)
  = Ok (VExpr
          (mkIntermediateExpr false None false
             (to_unique_tuple Term_eq
                (terms le
                 ++ flat_map (interaction_order (terms le))
                      (seq 2 (Nat.min (length (terms le)) (Z.to_nat k) - 1)))))).
Proof.
  intros Hl Hi (Hty & (expr & Hex & Hint) & Hk).
  unfold call, _eval_binary_power. cbn [args]. rewrite Hl. cbn [bind].
  unfold _check_interactable. rewrite Hi. cbn [bind].
  assert (Hin : py_in String.eqb (type r) ["ONE"; "NUMBER"] = true).
  { destruct Hty as [-> | ->]; reflexivity. }
  rewrite Hin, Hex, Hint. cbn [bind].
  destruct (k <? 1)%Z eqn:Hlt; [apply Z.ltb_lt in Hlt; lia |].
  destruct (terms le) as [|t0 ts] eqn:Hts.
  - cbn [length]. replace (Z.to_nat (Z.min (Z.of_nat 0) k - 1)) with 0%nat by lia.
    reflexivity.
  - rewrite <- Hts.
    rewrite (power_loop_orders _ le 0 le (terms le) Hi Hi) by reflexivity.
    cbn [bind]. rewrite init_plain_Ok. cbn [bind].
    replace (Z.to_nat (Z.min (Z.of_nat (length (terms le))) k - 1))
      with (Nat.min (length (terms le)) (Z.to_nat k) - 1)%nat by lia.
    reflexivity.
Qed.

(** C4. With the left operand evaluated and without a pending intercept,
    a [**] node whose exponent is a positive integer literal [k] has,
    without duplicates, the terms of its left operand followed by the
    interactions of order 2, 3, ... up to the smaller of the number of
    left terms and [k], each order being the interaction of the left
    terms with the order before; so two exponents that are both at least
    the number of left terms give the same result.  The terms of an
    order above one are the terms made of a left term and a term of the
    order before, and each such pair has its term there.
    ["(a+b+c+d)**2"] has the four terms [a], [b], [c], [d] and the six
    terms of two of them. *)
Theorem power_accumulates_interaction_orders :
  (forall tok org l r le k,
      eval l true = Ok (VExpr le) ->
      intercept le = false ->
      positive_integer_literal r k ->
      eval (Node "**" tok [l; r] org) true
      = Ok (VExpr
              (mkIntermediateExpr false None false
                 (to_unique_tuple Term_eq
                    (terms le
                     ++ flat_map (interaction_order (terms le))
                          (seq 2 (Nat.min (length (terms le)) (Z.to_nat k) - 1)))))))
  /\ (forall tok org l r r' le k k',
         eval l true = Ok (VExpr le) ->
         intercept le = false ->
         positive_integer_literal r k ->
         positive_integer_literal r' k' ->
         (Z.of_nat (length (terms le)) <= k)%Z ->
         (Z.of_nat (length (terms le)) <= k')%Z ->
         eval (Node "**" tok [l; r] org) true = eval (Node "**" tok [l; r'] org) true)
  /\ (forall ts j t,
         In t (interaction_order ts (S (S j))) ->
         exists lt pt,
           In lt ts /\ In pt (interaction_order ts (S j))
           /\ t = Term_init (factors lt ++ factors pt))
  /\ (forall ts j lt pt,
         In lt ts -> In pt (interaction_order ts (S j)) ->
         py_in Term_eq (Term_init (factors lt ++ factors pt))
           (interaction_order ts (S (S j))) = true)
  /\ (exists res,
         eval f_abcd_pow_2 true = Ok (VExpr res)
         /\ term_names (terms res)
            = [["a"]; ["b"]; ["c"]; ["d"];
               ["a"; "b"]; ["a"; "c"]; ["a"; "d"];
               ["b"; "c"]; ["b"; "d"]; ["c"; "d"]]).
Proof.
  split; [| split; [| split; [| split]]].
  - intros tok org l r le k Hl Hi Hk. apply eval_true_expr in Hl.
    apply (eval_call_Ok "**" tok [l; r] org _ _ _ lookup_power2).
    apply power_call; assumption.
  - intros tok org l r r' le k k' Hl Hi Hk Hk' Hn Hn'. apply eval_true_expr in Hl.
    rewrite (eval_call_Ok "**" tok [l; r] org _ _ _ lookup_power2
               (power_call tok org l r le k Hl Hi Hk)).
    rewrite (eval_call_Ok "**" tok [l; r'] org _ _ _ lookup_power2
               (power_call tok org l r' le k' Hl Hi Hk')).
    replace (Nat.min (length (terms le)) (Z.to_nat k'))
      with (Nat.min (length (terms le)) (Z.to_nat k)) by lia.
    reflexivity.
  - intros ts j t Ht. rewrite interaction_order_S in Ht.
    apply to_unique_tuple_In in Ht. apply pairwise_terms_In, Ht.
  - intros ts j lt pt Hlt Hpt. rewrite interaction_order_S, py_in_terms_unique.
    apply py_in_Term_eq_In, pairwise_terms_In. eauto.
  - eexists. split; vm_compute; reflexivity.
Qed.

Lemma abcd_power_two_instance :
  exists res, eval f_abcd_pow_2 true = Ok (VExpr res) /\ length (terms res) = 10.
Proof.
  destruct power_accumulates_interaction_orders as [H _].
  unfold f_abcd_pow_2.
  eexists. split.
  - apply (H _ _ _ _
             (mkIntermediateExpr false None false
                [Term_init [EvalFactor "a" (mkOrigin "(a+b+c+d)**2" 1 2)];
                 Term_init [EvalFactor "b" (mkOrigin "(a+b+c+d)**2" 3 4)];
                 Term_init [EvalFactor "c" (mkOrigin "(a+b+c+d)**2" 5 6)];
                 Term_init [EvalFactor "d" (mkOrigin "(a+b+c+d)**2" 7 8)]]) 2%Z).
    + vm_compute. reflexivity.
    + reflexivity.
    + split; [right; reflexivity | split; [| lia]].
      exists "2". split; vm_compute; reflexivity.
  - vm_compute. reflexivity.
Defined.

(** ** Description *)

Lemma Term_eq_INTERCEPT_bool t : Term_eq t INTERCEPT = is_intercept t.
Proof.
  unfold is_intercept. destruct (factors t) eqn:E.
  - apply Term_eq_INTERCEPT. exact E.
  - destruct (Term_eq t INTERCEPT) eqn:H; [| reflexivity].
    apply Term_eq_INTERCEPT in H. congruence.
Qed.

Lemma INTERCEPT_Term_eq_bool t : Term_eq INTERCEPT t = is_intercept t.
Proof.
  unfold is_intercept. destruct (factors t) eqn:E.
  - apply INTERCEPT_Term_eq. exact E.
  - destruct (Term_eq INTERCEPT t) eqn:H; [| reflexivity].
    apply INTERCEPT_Term_eq in H. congruence.
Qed.

Lemma term_code_text t : term_code t = term_text t.
Proof.
  unfold term_code, term_text. rewrite Term_eq_INTERCEPT_bool.
  unfold is_intercept, Term_name. destruct (factors t); reflexivity.
Qed.

Lemma tuple_eq_singleton_INTERCEPT rhs :
  tuple_eq Term_eq rhs [INTERCEPT]
  = match rhs with [t] => is_intercept t | _ => false end.
Proof.
  destruct rhs as [|t [|u rhs]]; cbn [tuple_eq]; [reflexivity | |].
  - rewrite Term_eq_INTERCEPT_bool. apply andb_true_r.
  - apply andb_false_r.
Qed.

Lemma existsb_pointwise {A} (f g : A -> bool) (l : list A) :
  (forall x, f x = g x) -> existsb f l = existsb g l.
Proof.
  intros H. induction l as [|x l IH]; simpl; [reflexivity |]. rewrite H, IH. reflexivity.
Qed.

(** C8, as stated, fails on a model without left-hand terms: [describe]
    gives ["~ 0"], not the left text, [ ~ ] and the right text. *)
Lemma describe_empty_model :
  describe (ModelDesc_init [] []) = "~ 0"
  /\ describe_as_stated (ModelDesc_init [] []) = " ~ 0"
  /\ describe (ModelDesc_init [] []) <> describe_as_stated (ModelDesc_init [] []).
Proof.
  split; [vm_compute; reflexivity | split; [vm_compute; reflexivity |]].
  vm_compute. discriminate.
Qed.

Lemma filter_ne_INTERCEPT_id rhs :
  existsb is_intercept rhs = false -> List.filter ne_INTERCEPT rhs = rhs.
Proof.
  induction rhs as [|t rhs IH]; simpl; [reflexivity |].
  intros H. apply orb_false_iff in H as [Ht Hrhs].
  destruct t as [|fs]; [discriminate Ht |]. simpl. rewrite IH by exact Hrhs. reflexivity.
Qed.

(** C8, amended. [describe] gives the left text, [ ~ ] and the right text
    when the left text is not empty, and [~ ] and the right text when it
    is; a term renders as [1] when it is an intercept term and as the
    names of its factors joined by [:] otherwise, and the terms of a side
    are joined by [ + ]; the right side is [1] when the right-hand list is
    an intercept term alone, and otherwise, when the list has no intercept
    term, a [0] followed by all its terms. *)
Theorem describe_renders_canonical_text :
  (forall md, describe md = describe_amended md)
  /\ (forall md t,
         rhs_termlist md = [t] -> is_intercept t = true ->
         describe md
         = (if String.eqb (lhs_text (lhs_termlist md)) "" then "~ "
            else lhs_text (lhs_termlist md) +:+ " ~ ") +:+ "1")
  /\ (forall md,
         existsb is_intercept (rhs_termlist md) = false ->
         describe md
         = (if String.eqb (lhs_text (lhs_termlist md)) "" then "~ "
            else lhs_text (lhs_termlist md) +:+ " ~ ")
           +:+ String.concat " + " ("0" :: map term_text (rhs_termlist md)))
  /\ describe test_model = "1 + a ~ 0 + a + a:b"
  /\ describe (ModelDesc_init [INTERCEPT] []) = "1 ~ 0"
  /\ describe (ModelDesc_init [INTERCEPT] [INTERCEPT]) = "1 ~ 1"
  /\ describe (ModelDesc_init [INTERCEPT] [INTERCEPT; Term_init [LookupFactor "b" None]])
     = "1 ~ b".
Proof.
  assert (Hgen : forall md, describe md = describe_amended md).
  { intros md. unfold describe, describe_amended, lhs_text, rhs_text.
    rewrite (map_ext _ _ term_code_text (lhs_termlist md)).
    rewrite tuple_eq_singleton_INTERCEPT.
    unfold py_in.
    rewrite (existsb_pointwise _ _ (rhs_termlist md) INTERCEPT_Term_eq_bool).
    rewrite (map_ext _ _ term_code_text).
    rewrite (term_code_text INTERCEPT).
    set (lhs := String.concat " + " (map term_text (lhs_termlist md))).
    assert (Hsep : (if String.eqb lhs "" then lhs +:+ "~ " else lhs +:+ " ~ ")
                   = (if String.eqb lhs "" then "~ " else lhs +:+ " ~ ")).
    { destruct (String.eqb lhs "") eqn:E; [| reflexivity].
      apply String.eqb_eq in E. rewrite E. reflexivity. }
    rewrite Hsep.
    destruct (existsb is_intercept (rhs_termlist md)) eqn:Hex; cbn [negb].
    - destruct (rhs_termlist md) as [|t [|u rhs]]; try reflexivity.
      destruct (is_intercept t); reflexivity.
    - destruct (rhs_termlist md) as [|t [|u rhs]]; try reflexivity.
      destruct (is_intercept t); reflexivity. }
  split; [exact Hgen | split; [| split; [| repeat split; vm_compute; reflexivity]]].
  - intros md t Hrhs Ht. rewrite Hgen. unfold describe_amended, rhs_text.
    rewrite Hrhs, Ht. reflexivity.
  - intros md Hex. rewrite Hgen. unfold describe_amended, rhs_text.
    rewrite Hex, filter_ne_INTERCEPT_id by exact Hex.
    destruct (rhs_termlist md) as [|t [|u rhs]]; try reflexivity.
    simpl in Hex. apply orb_false_iff in Hex as [Ht _]. rewrite Ht. reflexivity.
Qed.

Lemma test_model_instance :
  describe test_model = "1 + a ~ 0 + a + a:b".
Proof.
  destruct describe_renders_canonical_text as (_ & _ & H & _).
  rewrite (H test_model); vm_compute; reflexivity.
Defined.

(** * Further properties of the rules *)

(** ** Lists without duplicates *)

Section UniqueMore.
Context {A K : Type} (key : A -> K) (eqb : A -> A -> bool).
Hypothesis eqb_key : forall x y, eqb x y = true <-> key x = key y.

Lemma to_unique_loop_filter seq acc :
  unique key seq ->
  to_unique_loop eqb seq acc
  = acc ++ List.filter (fun x => negb (py_in eqb x acc)) seq.
Proof.
  revert acc. induction seq as [|x seq IH]; intros acc Hseq; simpl.
  - symmetry. apply app_nil_r.
  - unfold unique in Hseq. simpl in Hseq. apply List.NoDup_cons_iff in Hseq as [Hx Hseq].
    destruct (py_in eqb x acc) eqn:Hin; simpl.
    + apply IH, Hseq.
    + rewrite (IH _ Hseq), <- app_assoc. simpl. f_equal. f_equal.
      apply filter_ext_in. intros y Hy. f_equal.
      unfold py_in. rewrite existsb_app. simpl. rewrite orb_false_r.
      destruct (eqb y x) eqn:E; [| apply orb_false_r].
      exfalso. apply Hx. apply eqb_key in E. rewrite <- E. apply in_map, Hy.
Qed.

(** The union of two lists without duplicates keeps the first and appends
    what of the second is not [in] it. *)
Lemma to_unique_tuple_union l1 l2 :
  unique key l1 -> unique key l2 ->
  to_unique_tuple eqb (l1 ++ l2)
  = l1 ++ List.filter (fun x => negb (py_in eqb x l1)) l2.
Proof.
  intros H1 H2. unfold to_unique_tuple. rewrite to_unique_loop_app.
  fold (to_unique_tuple eqb l1).
  rewrite (to_unique_tuple_id key eqb eqb_key l1 H1).
  apply to_unique_loop_filter, H2.
Qed.

Lemma py_in_refl x l : In x l -> py_in eqb x l = true.
Proof.
  intros H. apply existsb_exists. exists x. split; [exact H |].
  apply eqb_key. reflexivity.
Qed.

Lemma filter_not_in_self l l' :
  (forall x, In x l' -> In x l) ->
  List.filter (fun x => negb (py_in eqb x l)) l' = [].
Proof.
  induction l' as [|x l' IH]; intros H; simpl; [reflexivity |].
  rewrite py_in_refl by (apply H; left; reflexivity). simpl.
  apply IH. intros y Hy. apply H. right. exact Hy.
Qed.

Lemma to_unique_tuple_app_self l :
  unique key l -> to_unique_tuple eqb (l ++ l) = l.
Proof.
  intros H. rewrite (to_unique_tuple_union l l H H).
  rewrite filter_not_in_self by auto. apply app_nil_r.
Qed.

Lemma to_unique_tuple_app_l l1 l2 :
  to_unique_tuple eqb (to_unique_tuple eqb l1 ++ l2) = to_unique_tuple eqb (l1 ++ l2).
Proof.
  unfold to_unique_tuple. rewrite !to_unique_loop_app.
  fold (to_unique_tuple eqb l1). fold (to_unique_tuple eqb (to_unique_tuple eqb l1)).
  rewrite (to_unique_tuple_id key eqb eqb_key (to_unique_tuple eqb l1))
    by apply (to_unique_tuple_unique key eqb eqb_key).
  reflexivity.
Qed.
End UniqueMore.

Lemma expr_eta e :
  mkIntermediateExpr (intercept e) (intercept_origin e) (intercept_removed e) (terms e) = e.
Proof. destruct e. reflexivity. Qed.

Lemma eval_expr_node ty tok l org rule e :
  _evaluators !! (ty, length l) = Some rule ->
  call rule eval_expr (Node ty tok l org) = Ok (VExpr e) ->
  eval_expr (Node ty tok l org) = Ok e.
Proof.
  intros Hrule Hcall. unfold eval_expr. rewrite dispatch_unfold. cbn [type args].
  rewrite Hrule. change (fun arg => result <- dispatch arg ;; check_evalexpr arg result)
    with eval_expr. rewrite Hcall. reflexivity.
Qed.

Lemma eval_expr_zero x e :
  type x = "ZERO" -> eval_expr x = Ok e -> e = mkIntermediateExpr false None true [].
Proof.
  intros Hty. unfold eval_expr. rewrite dispatch_unfold, Hty.
  destruct (_evaluators !! ("ZERO", length (args x))) as [rule|] eqn:E; [| discriminate].
  assert (rule = R_zero) as ->.
  { revert E. unfold _evaluators, add_op.
    repeat (rewrite lookup_insert_Some; intros [[Hk Hr] | [_ H]];
            [congruence | revert H]).
    rewrite lookup_empty. discriminate. }
  cbn. intros [= <-]. reflexivity.
Qed.

(** The result of a binary [+] node from the results of its operands. *)
Lemma plus_expr tok org l r le re :
  eval_expr l = Ok le ->
  eval_expr r = Ok re ->
  eval_expr (Node "+" tok [l; r] org)
  = Ok (if intercept re
        then mkIntermediateExpr true (intercept_origin re) false
               (to_unique_tuple Term_eq (terms le ++ terms re))
        else if String.eqb (type r) "ZERO"
        then mkIntermediateExpr false None true
               (to_unique_tuple Term_eq (terms le ++ terms re))
        else mkIntermediateExpr (intercept le) (intercept_origin le)
               (intercept_removed le)
               (to_unique_tuple Term_eq (terms le ++ terms re))).
Proof.
  intros Hl Hr.
  pose proof (good_Ok _ _ _ (eval_expr_good l) Hl) as Wl.
  pose proof (good_Ok _ _ _ (eval_expr_good r) Hr) as Wr.
  apply (eval_expr_node "+" tok [l; r] org _ _ lookup_plus2).
  unfold call, _eval_binary_plus. cbn [args]. rewrite Hl. cbn [bind].
  destruct (String.eqb (type r) "ZERO") eqn:Hz.
  - apply String.eqb_eq in Hz. rewrite (eval_expr_zero r re Hz Hr).
    cbn [intercept terms]. rewrite app_nil_r, init_removed_Ok. reflexivity.
  - rewrite Hr. cbn [bind]. destruct (intercept re) eqn:Hi.
    + rewrite IntermediateExpr_init_Ok; [reflexivity | intros _; apply Wr, Hi | reflexivity].
    + rewrite init_copy_Ok by exact Wl. reflexivity.
Qed.

(** The result of a binary [-] node whose right operand is no literal. *)
Lemma minus_expr tok org l r le re :
  type r <> "ZERO" -> type r <> "ONE" ->
  eval_expr l = Ok le ->
  eval_expr r = Ok re ->
  let ts :=
    List.filter (fun t => negb (py_in Term_eq t (terms re))) (terms le) in
  eval_expr (Node "-" tok [l; r] org)
  = Ok (if intercept re then mkIntermediateExpr false None true ts
        else mkIntermediateExpr (intercept le) (intercept_origin le)
               (intercept_removed le) ts).
Proof.
  intros Hz Ho Hl Hr ts.
  pose proof (good_Ok _ _ _ (eval_expr_good l) Hl) as Wl.
  apply String.eqb_neq in Hz, Ho.
  assert (Hts : to_unique_tuple Term_eq ts = ts).
  { apply terms_id, unique_filter, Wl. }
  apply (eval_expr_node "-" tok [l; r] org _ _ lookup_minus2).
  unfold call, _eval_binary_minus. cbn [args]. rewrite Hl. cbn [bind].
  rewrite Hz, Ho, Hr. cbn [bind]. fold ts.
  destruct (intercept re).
  - rewrite init_removed_Ok, Hts. reflexivity.
  - rewrite init_copy_Ok by exact Wl. rewrite Hts. reflexivity.
Qed.

(** The result of a [:] node whose operands have no pending intercept. *)
Lemma interact_expr tok org l r le re :
  eval_expr l = Ok le -> eval_expr r = Ok re ->
  intercept le = false -> intercept re = false ->
  eval_expr (Node ":" tok [l; r] org)
  = Ok (mkIntermediateExpr false None false
          (to_unique_tuple Term_eq (pairwise_terms (terms le) (terms re)))).
Proof.
  intros Hl Hr Hi Hi'.
  apply (eval_expr_node ":" tok [l; r] org _ _ lookup_interact2).
  unfold call, _eval_binary_interact. cbn [args eval_args]. rewrite Hl, Hr.
  cbn [bind]. rewrite interaction_eq, Hi, Hi'. reflexivity.
Qed.

(** What the rule of [*] returns, from the results of the operands. *)
Lemma prod_call tok org l r le re :
  eval_expr l = Ok le -> eval_expr r = Ok re ->
  call R_binary_prod eval_expr (Node "*" tok [l; r] org)
  = if intercept le
    then Raise (CharltonError intercept_message (intercept_origin le))
    else if intercept re
    then Raise (CharltonError intercept_message (intercept_origin re))
    else Ok (VExpr
               (mkIntermediateExpr false None false
                  (to_unique_tuple Term_eq
                     (terms le ++ terms re
                      ++ pairwise_terms (terms le) (terms re))))).
Proof.
  intros Hl Hr.
  unfold call, _eval_binary_prod. cbn [args eval_args]. rewrite Hl, Hr. cbn [bind].
  rewrite interaction_eq.
  destruct (intercept le); [reflexivity |]. destruct (intercept re); [reflexivity |].
  cbn [bind terms]. rewrite init_plain_Ok. cbn [bind].
  rewrite app_assoc, (to_unique_tuple_app_r term_key Term_eq Term_eq_key),
    <- app_assoc.
  reflexivity.
Qed.

(** ** [+], [-], [*] and the unary operators *)

(** X1. A binary [+] node whose right operand is not the literal [0]
    keeps the terms of the left operand and appends the terms of the right
    operand that are not [in] the left; it has an intercept, at the origin
    of the right operand's, when the right operand has one, and the
    intercept state of the left operand otherwise, whether or not the
    right operand had removed its intercept. *)
Theorem plus_right_intercept_wins :
  forall tok org l r le re,
    type r <> "ZERO" ->
    eval l true = Ok (VExpr le) ->
    eval r true = Ok (VExpr re) ->
    let ts :=
      terms le
      ++ List.filter (fun t => negb (py_in Term_eq t (terms le))) (terms re) in
    eval (Node "+" tok [l; r] org) true
    = Ok (VExpr
            (if intercept re
             then mkIntermediateExpr true (intercept_origin re) false ts
             else mkIntermediateExpr (intercept le) (intercept_origin le)
                    (intercept_removed le) ts)).
Proof.
  intros tok org l r le re Hz Hl Hr ts.
  pose proof (eval_true_wf _ _ Hl) as Wl. pose proof (eval_true_wf _ _ Hr) as Wr.
  apply eval_true_expr. apply eval_true_expr in Hl, Hr. apply String.eqb_neq in Hz.
  rewrite (plus_expr tok org l r le re Hl Hr), Hz.
  rewrite (to_unique_tuple_union term_key Term_eq Term_eq_key) by (apply Wl || apply Wr).
  destruct (intercept re); reflexivity.
Qed.

Lemma a_plus_one_instance :
  eval (binop "a + 1" "+" 2 3 (var "a + 1" 0 "a") (leaf "a + 1" "ONE" 4 5 "1")) true
  = Ok (VExpr (mkIntermediateExpr true (Some (AtOrigin (mkOrigin "a + 1" 4 5))) false
                 [Term_init [EvalFactor "a" (mkOrigin "a + 1" 0 1)]])).
Proof.
  unfold binop.
  apply (plus_right_intercept_wins _ _ _ _
           (mkIntermediateExpr false None false
              [Term_init [EvalFactor "a" (mkOrigin "a + 1" 0 1)]])
           (mkIntermediateExpr true (Some (AtOrigin (mkOrigin "a + 1" 4 5))) false []));
    [vm_compute; discriminate | vm_compute; reflexivity | vm_compute; reflexivity].
Defined.

(** X2. A binary [-] node whose right operand is the literal [0] has an
    intercept whose origin is that right node, and one whose right operand
    is the literal [1] has its intercept removed; both keep the terms of
    the left operand and do not evaluate the right operand. *)
Theorem minus_literal_sets_intercept :
  forall tok org l r le,
    eval l true = Ok (VExpr le) ->
    (type r = "ZERO" ->
     eval (Node "-" tok [l; r] org) true
     = Ok (VExpr (mkIntermediateExpr true (Some (AtNode r)) false (terms le))))
    /\ (type r = "ONE" ->
        eval (Node "-" tok [l; r] org) true
        = Ok (VExpr (mkIntermediateExpr false None true (terms le)))).
Proof.
  intros tok org l r le Hl.
  pose proof (eval_true_wf _ _ Hl) as Wl. apply eval_true_expr in Hl.
  split; intros Hty; apply (eval_call_Ok "-" tok [l; r] org _ _ _ lookup_minus2);
    unfold call, _eval_binary_minus; cbn [args]; rewrite Hl; cbn [bind]; rewrite Hty.
  - change ("ZERO" =? "ZERO")%string with true. cbv iota.
    rewrite IntermediateExpr_init_Ok by (reflexivity || discriminate).
    cbn [bind]. rewrite terms_id by apply Wl. reflexivity.
  - change ("ONE" =? "ZERO")%string with false.
    change ("ONE" =? "ONE")%string with true. cbv iota.
    rewrite init_removed_Ok. cbn [bind]. rewrite terms_id by apply Wl. reflexivity.
Qed.

Lemma a_minus_zero_instance :
  eval (binop "a - 0" "-" 2 3 (var "a - 0" 0 "a") (leaf "a - 0" "ZERO" 4 5 "0")) true
  = Ok (VExpr (mkIntermediateExpr true (Some (AtNode (leaf "a - 0" "ZERO" 4 5 "0"))) false
                 [Term_init [EvalFactor "a" (mkOrigin "a - 0" 0 1)]])).
Proof.
  unfold binop.
  destruct (minus_literal_sets_intercept
              (mkToken "-" (mkOrigin "a - 0" 2 3) None) (mkOrigin "a - 0" 0 5)
              (var "a - 0" 0 "a") (leaf "a - 0" "ZERO" 4 5 "0")
              (mkIntermediateExpr false None false
                 [Term_init [EvalFactor "a" (mkOrigin "a - 0" 0 1)]]))
    as [H _]; [vm_compute; reflexivity |].
  apply H. reflexivity.
Defined.

(** X3. With both operands evaluated, a [*] node fails with the intercept
    error at the origin of the intercept of the first operand that has
    one; otherwise it has neither intercept nor removal and, without
    duplicates, the terms of the left operand, then those of the right
    operand, then their pairwise interactions. *)
Theorem prod_main_effects_then_interaction :
  forall tok org l r le re,
    eval l true = Ok (VExpr le) ->
    eval r true = Ok (VExpr re) ->
    eval (Node "*" tok [l; r] org) true
    = if intercept le
      then Raise (CharltonError intercept_message (intercept_origin le))
      else if intercept re
      then Raise (CharltonError intercept_message (intercept_origin re))
      else Ok (VExpr
                 (mkIntermediateExpr false None false
                    (to_unique_tuple Term_eq
                       (terms le ++ terms re
                        ++ pairwise_terms (terms le) (terms re))))).
Proof.
  intros tok org l r le re Hl Hr. apply eval_true_expr in Hl, Hr.
  pose proof (prod_call tok org l r le re Hl Hr) as Hcall.
  destruct (intercept le);
    [apply (eval_call_Raise "*" tok [l; r] org _ _ _ lookup_prod2 Hcall) |].
  destruct (intercept re);
    [apply (eval_call_Raise "*" tok [l; r] org _ _ _ lookup_prod2 Hcall) |].
  apply (eval_call_Ok "*" tok [l; r] org _ _ _ lookup_prod2 Hcall).
Qed.

Lemma a_times_b_instance :
  exists res,
    eval (binop "a * b" "*" 2 3 (var "a * b" 0 "a") (var "a * b" 4 "b")) true
    = Ok (VExpr res)
    /\ term_names (terms res) = [["a"]; ["b"]; ["a"; "b"]].
Proof.
  unfold binop. eexists. split.
  - rewrite (prod_main_effects_then_interaction _ _ _ _
               (mkIntermediateExpr false None false
                  [Term_init [EvalFactor "a" (mkOrigin "a * b" 0 1)]])
               (mkIntermediateExpr false None false
                  [Term_init [EvalFactor "b" (mkOrigin "a * b" 4 5)]]));
      [reflexivity | vm_compute; reflexivity | vm_compute; reflexivity].
  - vm_compute. reflexivity.
Defined.

(** X4. A unary [+] node evaluates exactly as its operand does: to the
    same [IntermediateExpr], or with the same error. *)
Theorem unary_plus_is_identity :
  forall tok org x require_evalexpr,
    eval (Node "+" tok [x] org) require_evalexpr = eval x true.
Proof.
  intros tok org x req.
  assert (Hlook : _evaluators !! ("+", length [x]) = Some R_unary_plus)
    by (vm_compute; reflexivity).
  rewrite (eval_call "+" tok [x] org _ req Hlook).
  unfold call, _eval_unary_plus, eval. cbn [args]. fold (eval_expr x).
  unfold eval_expr. destruct (dispatch x) as [[e|m]|err]; cbn; destruct req; reflexivity.
Qed.

(** X5. A unary [-] node on the literal [0] has an intercept at the origin
    of the node itself, on the literal [1] it has its intercept removed,
    and on any other operand it fails with "Unary minus can only be
    applied to 1 or 0" at the node; in no case is the operand evaluated. *)
Theorem unary_minus_only_on_literals :
  forall tok org x,
    (type x = "ZERO" ->
     eval (Node "-" tok [x] org) true
     = Ok (VExpr (mkIntermediateExpr true (Some (AtOrigin org)) false [])))
    /\ (type x = "ONE" ->
        eval (Node "-" tok [x] org) true
        = Ok (VExpr (mkIntermediateExpr false None true [])))
    /\ (type x <> "ZERO" -> type x <> "ONE" ->
        eval (Node "-" tok [x] org) true
        = Raise (CharltonError "Unary minus can only be applied to 1 or 0"
                   (Some (AtNode (Node "-" tok [x] org))))).
Proof.
  intros tok org x.
  assert (Hlook : _evaluators !! ("-", length [x]) = Some R_unary_minus)
    by (vm_compute; reflexivity).
  rewrite (eval_call "-" tok [x] org _ true Hlook).
  unfold call, _eval_unary_minus. cbn [args origin]. split; [| split].
  - intros ->. reflexivity.
  - intros ->. reflexivity.
  - intros Hz Ho. apply String.eqb_neq in Hz, Ho. rewrite Hz, Ho. reflexivity.
Qed.

Lemma minus_a_instance :
  eval (Node "-" (mkToken "-" (mkOrigin "-a" 0 1) None) [var "-a" 1 "a"]
          (mkOrigin "-a" 0 2)) true
  = Raise (CharltonError "Unary minus can only be applied to 1 or 0"
             (Some (AtNode (Node "-" (mkToken "-" (mkOrigin "-a" 0 1) None)
                              [var "-a" 1 "a"] (mkOrigin "-a" 0 2))))).
Proof.
  destruct (unary_minus_only_on_literals (mkToken "-" (mkOrigin "-a" 0 1) None)
              (mkOrigin "-a" 0 2) (var "-a" 1 "a")) as (_ & _ & H).
  apply H; vm_compute; discriminate.
Defined.

(** ** The dispatch table and the errors of the walk *)

Lemma lookup_registered ty n :
  is_Some (_evaluators !! (ty, n)) <-> In (ty, n) registered_keys.
Proof.
  unfold _evaluators, add_op, registered_keys.
  rewrite !lookup_insert_is_Some', lookup_empty, <- !list_elem_of_In, !elem_of_cons,
    elem_of_nil.
  assert (Hn : ~ is_Some (@None Rule)) by (intros [? ?]; discriminate).
  split; intros H.
  - repeat (destruct H as [H | H]; [rewrite <- H; tauto |]). tauto.
  - repeat (destruct H as [H | H]; [rewrite H; tauto |]). tauto.
Qed.

(** X6. A node whose type and number of arguments are not among the
    fourteen registered keys fails with "I don't know how to evaluate this
    '<type>' operator" at its token, whatever its arguments are; with a
    registered key it does not fail that way on its own account (its rule
    runs). *)
Theorem unregistered_operator_fails :
  forall tree require_evalexpr,
    (~ In (type tree, length (args tree)) registered_keys ->
     eval tree require_evalexpr
     = Raise (CharltonError
                ("I don't know how to evaluate this '" +:+ type tree +:+ "' operator")
                (Some (AtToken (token tree)))))
    /\ (In (type tree, length (args tree)) registered_keys ->
        exists rule,
          _evaluators !! (type tree, length (args tree)) = Some rule
          /\ dispatch tree = call rule eval_expr tree).
Proof.
  intros tree req. split; intros H.
  - unfold eval. rewrite dispatch_unfold.
    destruct (_evaluators !! (type tree, length (args tree))) as [rule|] eqn:E.
    + exfalso. apply H, lookup_registered. eauto.
    + reflexivity.
  - apply lookup_registered in H as [rule Hrule]. exists rule. split; [exact Hrule |].
    rewrite dispatch_unfold, Hrule. reflexivity.
Qed.

Lemma three_argument_plus_instance :
  eval (Node "+" (mkToken "+" (mkOrigin "a" 0 1) None)
          [var "a" 0 "a"; var "a" 0 "a"; var "a" 0 "a"] (mkOrigin "a" 0 1)) true
  = Raise (CharltonError "I don't know how to evaluate this '+' operator"
             (Some (AtToken (mkToken "+" (mkOrigin "a" 0 1) None)))).
Proof.
  destruct (unregistered_operator_fails
              (Node "+" (mkToken "+" (mkOrigin "a" 0 1) None)
                 [var "a" 0 "a"; var "a" 0 "a"; var "a" 0 "a"] (mkOrigin "a" 0 1)) true)
    as [H _].
  apply H. vm_compute. intuition discriminate.
Defined.

Lemma call_VModel rule tree m :
  call rule eval_expr tree = Ok (VModel m) -> rule = R_any_tilde.
Proof.
  destruct rule; [reflexivity | | | | | | | | | | | |]; unfold call; intros H; exfalso.
  - unfold _eval_binary_plus in H. destruct (args tree) as [|a0 [|a1 rest]];
      try discriminate; destruct (eval_expr a0); try discriminate; cbn [bind] in H;
      try discriminate.
    destruct (String.eqb (type a1) "ZERO").
    + destruct (IntermediateExpr_init _ _ _ _); discriminate.
    + destruct (eval_expr a1); [| discriminate]. cbn [bind] in H.
      destruct (intercept _); destruct (IntermediateExpr_init _ _ _ _); discriminate.
  - unfold _eval_binary_minus in H. destruct (args tree) as [|a0 [|a1 rest]];
      try discriminate; destruct (eval_expr a0); try discriminate; cbn [bind] in H;
      try discriminate.
    destruct (String.eqb (type a1) "ZERO");
      [destruct (IntermediateExpr_init _ _ _ _); discriminate |].
    destruct (String.eqb (type a1) "ONE");
      [destruct (IntermediateExpr_init _ _ _ _); discriminate |].
    destruct (eval_expr a1); [| discriminate]. cbn [bind] in H.
    destruct (intercept _); destruct (IntermediateExpr_init _ _ _ _); discriminate.
  - unfold _eval_binary_prod in H. destruct (eval_args eval_expr (args tree)) as [exprs|];
      [| discriminate]. cbn [bind] in H.
    destruct exprs as [|e0 [|e1 [|e2 rest]]]; try discriminate.
    destruct (_interaction e0 e1); [| discriminate]. cbn [bind] in H.
    destruct (IntermediateExpr_init _ _ _ _); discriminate.
  - unfold _eval_binary_div in H. destruct (args tree) as [|a0 [|a1 rest]];
      try discriminate; destruct (eval_expr a0); try discriminate; cbn [bind] in H;
      try discriminate.
    destruct (eval_expr a1); [| discriminate]. cbn [bind] in H.
    destruct (_check_interactable _); [| discriminate]. cbn [bind] in H.
    destruct (IntermediateExpr_init false None false [_]); [| discriminate].
    cbn [bind] in H. destruct (_interaction _ _); [| discriminate]. cbn [bind] in H.
    destruct (IntermediateExpr_init _ _ _ _); discriminate.
  - unfold _eval_binary_interact in H.
    destruct (eval_args eval_expr (args tree)) as [exprs|]; [| discriminate].
    cbn [bind] in H. destruct exprs as [|e0 [|e1 [|e2 rest]]]; try discriminate.
    destruct (_interaction e0 e1); discriminate.
  - unfold _eval_binary_power in H. destruct (args tree) as [|a0 rest];
      try discriminate; destruct (eval_expr a0); try discriminate; cbn [bind] in H.
    destruct (_check_interactable _); [| discriminate]. cbn [bind] in H.
    destruct rest as [|x1 rest']; [discriminate |].
    match type of H with bind ?m _ = _ => destruct m as [power|]; [| discriminate] end.
    cbn [bind] in H. destruct (power <? 1)%Z; [discriminate |].
    destruct (power_loop _ _ _ _); [| discriminate]. cbn [bind] in H.
    destruct (IntermediateExpr_init _ _ _ _); discriminate.
  - unfold _eval_unary_plus in H. destruct (args tree) as [|a0 rest]; [discriminate |].
    destruct (eval_expr a0); discriminate.
  - unfold _eval_unary_minus in H. destruct (args tree) as [|a0 rest]; [discriminate |].
    destruct (String.eqb (type a0) "ZERO"); [discriminate |].
    destruct (String.eqb (type a0) "ONE"); discriminate.
  - discriminate.
  - discriminate.
  - discriminate.
  - unfold _eval_python_expr in H. destruct (extra (token tree)); discriminate.
Qed.

Lemma dispatch_VModel tree m : dispatch tree = Ok (VModel m) -> type tree = "~".
Proof.
  rewrite dispatch_unfold.
  destruct (_evaluators !! (type tree, length (args tree))) as [rule|] eqn:E;
    [| discriminate].
  intros H. apply call_VModel in H. subst rule. apply lookup_any_tilde in E. tauto.
Qed.

(** X7. [eval] with [require_evalexpr] never returns a [ModelDesc]; a
    tree that evaluates to a [ModelDesc] without it has a [~] at its root
    and fails, with it, with "~ can only be used once, and only at the top
    level" at the tree. *)
Theorem tilde_only_at_top_level :
  (forall tree v, eval tree true = Ok v -> exists e, v = VExpr e)
  /\ (forall tree m,
         eval tree false = Ok (VModel m) ->
         type tree = "~"
         /\ eval tree true
            = Raise (CharltonError "~ can only be used once, and only at the top level"
                       (Some (AtNode tree)))).
Proof.
  split.
  - intros tree v. unfold eval. destruct (dispatch tree) as [[e|m]|err]; cbn;
      [| discriminate | discriminate].
    intros [= <-]. eauto.
  - intros tree m. unfold eval.
    destruct (dispatch tree) as [[e|m']|err] eqn:E; cbn; try discriminate.
    intros _. split; [apply (dispatch_VModel tree m'), E | reflexivity].
Qed.

Lemma nested_tilde_instance :
  eval f_y_a_b true
  = Raise (CharltonError "~ can only be used once, and only at the top level"
             (Some (AtNode f_y_a_b))).
Proof.
  destruct tilde_only_at_top_level as [_ H].
  destruct (H f_y_a_b
              (mkModelDesc
                 [Term_init [EvalFactor "y" (mkOrigin "y ~ a + b" 0 1)]]
                 [INTERCEPT;
                  Term_init [EvalFactor "a" (mkOrigin "y ~ a + b" 4 5)];
                  Term_init [EvalFactor "b" (mkOrigin "y ~ a + b" 8 9)]]))
    as [_ Hr]; [vm_compute; reflexivity | exact Hr].
Defined.

Lemma eval_true_Raise tree err :
  eval tree true = Raise err <-> eval_expr tree = Raise err.
Proof.
  unfold eval, eval_expr. destruct (dispatch tree) as [[e'|m]|err']; simpl;
    split; intros H; congruence.
Qed.

Lemma binary_lookup ty :
  In ty binary_operators -> exists rule, _evaluators !! (ty, 2) = Some rule
    /\ In rule [R_any_tilde; R_binary_plus; R_binary_minus; R_binary_prod;
                R_binary_div; R_binary_interact; R_binary_power].
Proof.
  unfold binary_operators. cbn [In].
  intros [<- | [<- | [<- | [<- | [<- | [<- | [<- | []]]]]]]]; eexists;
    (split; [vm_compute; reflexivity | cbn [In]; tauto]).
Qed.

Lemma binary_left_Raise ty tok org l r err req :
  In ty binary_operators ->
  eval_expr l = Raise err ->
  eval (Node ty tok [l; r] org) req = Raise err.
Proof.
  intros Hty Hl. destruct (binary_lookup ty Hty) as (rule & Hlook & Hrule).
  apply (eval_call_Raise ty tok [l; r] org rule req err Hlook).
  simpl in Hrule.
  destruct Hrule as [<- | [<- | [<- | [<- | [<- | [<- | [<- | []]]]]]]]; unfold call.
  - unfold _eval_any_tilde. cbn [args eval_args]. rewrite Hl. reflexivity.
  - unfold _eval_binary_plus. cbn [args]. rewrite Hl. reflexivity.
  - unfold _eval_binary_minus. cbn [args]. rewrite Hl. reflexivity.
  - unfold _eval_binary_prod. cbn [args eval_args]. rewrite Hl. reflexivity.
  - unfold _eval_binary_div. cbn [args]. rewrite Hl. reflexivity.
  - unfold _eval_binary_interact. cbn [args eval_args]. rewrite Hl. reflexivity.
  - unfold _eval_binary_power. cbn [args]. rewrite Hl. reflexivity.
Qed.

Lemma binary_right_Raise ty tok org l r le err req :
  In ty ["~"; "*"; "/"; ":"]
  \/ (ty = "+" /\ type r <> "ZERO")
  \/ (ty = "-" /\ type r <> "ZERO" /\ type r <> "ONE") ->
  eval_expr l = Ok le ->
  eval_expr r = Raise err ->
  eval (Node ty tok [l; r] org) req = Raise err.
Proof.
  intros Hty Hl Hr.
  destruct Hty as [Hty | [[-> Hz] | (-> & Hz & Ho)]].
  - simpl in Hty. destruct Hty as [<- | [<- | [<- | [<- | []]]]].
    + apply (eval_call_Raise "~" tok [l; r] org _ req err lookup_tilde2).
      unfold call, _eval_any_tilde. cbn [args eval_args]. rewrite Hl, Hr. reflexivity.
    + apply (eval_call_Raise "*" tok [l; r] org _ req err lookup_prod2).
      unfold call, _eval_binary_prod. cbn [args eval_args]. rewrite Hl, Hr. reflexivity.
    + apply (eval_call_Raise "/" tok [l; r] org _ req err lookup_div2).
      unfold call, _eval_binary_div. cbn [args]. rewrite Hl. cbn [bind]. rewrite Hr.
      reflexivity.
    + apply (eval_call_Raise ":" tok [l; r] org _ req err lookup_interact2).
      unfold call, _eval_binary_interact. cbn [args eval_args]. rewrite Hl, Hr.
      reflexivity.
  - apply String.eqb_neq in Hz.
    apply (eval_call_Raise "+" tok [l; r] org _ req err lookup_plus2).
    unfold call, _eval_binary_plus. cbn [args]. rewrite Hl. cbn [bind].
    rewrite Hz, Hr. reflexivity.
  - apply String.eqb_neq in Hz, Ho.
    apply (eval_call_Raise "-" tok [l; r] org _ req err lookup_minus2).
    unfold call, _eval_binary_minus. cbn [args]. rewrite Hl. cbn [bind].
    rewrite Hz, Ho, Hr. reflexivity.
Qed.

(** X8. No rule catches an error of an operand.  A binary node whose left
    operand fails fails with the same error; so does one whose left
    operand evaluates and whose right operand fails, for [~], [*], [/] and
    [:], for [+] unless the right operand is the literal [0], and for [-]
    unless it is the literal [0] or [1] (the rules then do not evaluate the
    right operand). *)
Theorem operand_errors_propagate :
  forall ty tok org l r err require_evalexpr,
    (In ty ["~"; "+"; "-"; "*"; "/"; ":"; "**"] ->
     eval l true = Raise err ->
     eval (Node ty tok [l; r] org) require_evalexpr = Raise err)
    /\ (forall le,
           In ty ["~"; "*"; "/"; ":"]
           \/ (ty = "+" /\ type r <> "ZERO")
           \/ (ty = "-" /\ type r <> "ZERO" /\ type r <> "ONE") ->
           eval l true = Ok (VExpr le) ->
           eval r true = Raise err ->
           eval (Node ty tok [l; r] org) require_evalexpr = Raise err).
Proof.
  intros ty tok org l r err req. split.
  - intros Hty Hl. apply eval_true_Raise in Hl. apply binary_left_Raise; assumption.
  - intros le Hty Hl Hr. apply eval_true_expr in Hl. apply eval_true_Raise in Hr.
    apply (binary_right_Raise ty tok org l r le); assumption.
Qed.

Lemma a_plus_minus_a_instance :
  let inner :=
    Node "-" (mkToken "-" (mkOrigin "b + (-a)" 5 6) None) [var "b + (-a)" 6 "a"]
      (mkOrigin "b + (-a)" 5 7) in
  eval (binop "b + (-a)" "+" 2 3 (var "b + (-a)" 0 "b") inner) true
  = Raise (CharltonError "Unary minus can only be applied to 1 or 0"
             (Some (AtNode inner))).
Proof.
  intros inner. unfold binop.
  destruct (operand_errors_propagate "+" (mkToken "+" (mkOrigin "b + (-a)" 2 3) None)
              (mkOrigin "b + (-a)" (o_start (origin (var "b + (-a)" 0 "b")))
                 (o_end (origin inner)))
              (var "b + (-a)" 0 "b") inner
              (CharltonError "Unary minus can only be applied to 1 or 0"
                 (Some (AtNode inner))) true) as [_ H].
  apply (H (mkIntermediateExpr false None false
              [Term_init [EvalFactor "b" (mkOrigin "b + (-a)" 0 1)]])).
  - right. left. split; [reflexivity | vm_compute; discriminate].
  - vm_compute. reflexivity.
  - vm_compute. reflexivity.
Defined.

(** X9. With its left operand evaluated, a [**] node fails with the
    intercept error when the left operand has a pending intercept,
    whatever the exponent; otherwise it fails with "'**' requires a
    positive integer" at the exponent node when that node is no [ONE] or
    [NUMBER] leaf, or its text is no integer, or an integer below one.  The
    exponent node is never evaluated. *)
Theorem power_rejects_bad_exponent :
  forall tok org l r le,
    eval l true = Ok (VExpr le) ->
    (intercept le = true ->
     eval (Node "**" tok [l; r] org) true
     = Raise (CharltonError "intercept term cannot interact with anything else"
                (intercept_origin le)))
    /\ (intercept le = false -> bad_exponent r ->
        eval (Node "**" tok [l; r] org) true
        = Raise (CharltonError "'**' requires a positive integer" (Some (AtNode r)))).
Proof.
  intros tok org l r le Hl. apply eval_true_expr in Hl. split.
  - intros Hi. apply (eval_call_Raise "**" tok [l; r] org _ true _ lookup_power2).
    unfold call, _eval_binary_power, _check_interactable. cbn [args].
    rewrite Hl. cbn [bind]. rewrite Hi. reflexivity.
  - intros Hi Hbad. apply (eval_call_Raise "**" tok [l; r] org _ true _ lookup_power2).
    unfold call, _eval_binary_power, _check_interactable. cbn [args].
    rewrite Hl. cbn [bind]. rewrite Hi. cbn [bind].
    destruct Hbad as [[Ho Hn] | (expr & Hex & Hint)].
    + apply String.eqb_neq in Ho, Hn. unfold py_in. cbn [existsb].
      rewrite Ho, Hn. reflexivity.
    + rewrite Hex.
      destruct (py_in String.eqb (type r) ["ONE"; "NUMBER"]); [| reflexivity].
      destruct Hint as [-> | (k & -> & Hk)]; [reflexivity |]. cbn [bind].
      apply Z.ltb_lt in Hk. rewrite Hk. reflexivity.
Qed.

Lemma a_power_fraction_instance :
  eval (Node "**" (mkToken "**" (mkOrigin "a ** 1.5" 2 4) None)
          [var "a ** 1.5" 0 "a"; leaf "a ** 1.5" "NUMBER" 5 8 "1.5"]
          (mkOrigin "a ** 1.5" 0 8)) true
  = Raise (CharltonError "'**' requires a positive integer"
             (Some (AtNode (leaf "a ** 1.5" "NUMBER" 5 8 "1.5")))).
Proof.
  destruct (power_rejects_bad_exponent (mkToken "**" (mkOrigin "a ** 1.5" 2 4) None)
              (mkOrigin "a ** 1.5" 0 8) (var "a ** 1.5" 0 "a")
              (leaf "a ** 1.5" "NUMBER" 5 8 "1.5")
              (mkIntermediateExpr false None false
                 [Term_init [EvalFactor "a" (mkOrigin "a ** 1.5" 0 1)]]))
    as [_ H]; [vm_compute; reflexivity |].
  apply H; [reflexivity |].
  right. exists "1.5". split; [reflexivity | left; vm_compute; reflexivity].
Defined.

Lemma eval_expr_number tok org :
  eval_expr (Node "NUMBER" tok [] org)
  = Raise (CharltonError "numbers besides '0' and '1' are only allowed with **"
             (Some (AtNode (Node "NUMBER" tok [] org)))).
Proof.
  unfold eval_expr. rewrite dispatch_unfold. cbn [type args length].
  replace (_evaluators !! ("NUMBER", 0)) with (Some R_number) by (vm_compute; reflexivity).
  reflexivity.
Qed.

(** X10. A number other than [0] and [1] is an error wherever it is
    evaluated: a [NUMBER] leaf fails with "numbers besides '0' and '1' are
    only allowed with **" at the leaf, and so does every binary node that
    has it as left operand, and every [~], [+], [-], [*], [/] or [:] node
    that has it as right operand behind a left operand that evaluates. *)
Theorem number_only_as_exponent :
  forall tok org,
    let number := Node "NUMBER" tok [] org in
    let error :=
      CharltonError "numbers besides '0' and '1' are only allowed with **"
        (Some (AtNode number)) in
    (forall require_evalexpr, eval number require_evalexpr = Raise error)
    /\ (forall ty tok' org' r require_evalexpr,
           In ty ["~"; "+"; "-"; "*"; "/"; ":"; "**"] ->
           eval (Node ty tok' [number; r] org') require_evalexpr = Raise error)
    /\ (forall ty tok' org' l le require_evalexpr,
           In ty ["~"; "+"; "-"; "*"; "/"; ":"] ->
           eval l true = Ok (VExpr le) ->
           eval (Node ty tok' [l; number] org') require_evalexpr = Raise error).
Proof.
  intros tok org number error. split; [| split].
  - intros req. unfold eval. rewrite dispatch_unfold. cbn [type args length].
    replace (_evaluators !! ("NUMBER", 0)) with (Some R_number)
      by (vm_compute; reflexivity).
    reflexivity.
  - intros ty tok' org' r req Hty. apply binary_left_Raise; [exact Hty |].
    apply eval_expr_number.
  - intros ty tok' org' l le req Hty Hl. apply eval_true_expr in Hl.
    apply (binary_right_Raise ty tok' org' l number le); [| exact Hl | apply eval_expr_number].
    cbn [In] in Hty |- *.
    destruct Hty as [<- | [<- | [<- | [<- | [<- | [<- | []]]]]]]; try tauto.
    + right. left. split; [reflexivity | discriminate].
    + right. right. repeat split; discriminate.
Qed.

Lemma a_plus_two_instance :
  eval (binop "a + 2" "+" 2 3 (var "a + 2" 0 "a") (leaf "a + 2" "NUMBER" 4 5 "2")) true
  = Raise (CharltonError "numbers besides '0' and '1' are only allowed with **"
             (Some (AtNode (leaf "a + 2" "NUMBER" 4 5 "2")))).
Proof.
  destruct (number_only_as_exponent (mkToken "NUMBER" (mkOrigin "a + 2" 4 5) (Some "2"))
              (mkOrigin "a + 2" 4 5)) as (_ & _ & H).
  unfold binop.
  apply (H "+" _ _ _ (mkIntermediateExpr false None false
                        [Term_init [EvalFactor "a" (mkOrigin "a + 2" 0 1)]]));
    [simpl; tauto | vm_compute; reflexivity].
Defined.

(** ** Laws of the formula calculus *)

Lemma filter_nil {A} (f : A -> bool) (l : list A) :
  (forall x, In x l -> f x = false) -> List.filter f l = [].
Proof.
  induction l as [|x l IH]; intros H; simpl; [reflexivity |].
  rewrite (H x) by (left; reflexivity). apply IH. intros y Hy. apply H. right. exact Hy.
Qed.

Lemma plus_terms tok org l r le re :
  eval_expr l = Ok le -> eval_expr r = Ok re ->
  exists res,
    eval_expr (Node "+" tok [l; r] org) = Ok res
    /\ terms res = to_unique_tuple Term_eq (terms le ++ terms re).
Proof.
  intros Hl Hr. eexists. split; [apply (plus_expr tok org l r le re Hl Hr) |].
  destruct (intercept re); [reflexivity |].
  destruct (String.eqb (type r) "ZERO"); reflexivity.
Qed.

(** X11. Adding what is already there changes no term: when every term
    of the right operand of a binary [+] node is [in] the terms of the
    left operand, the node has exactly the terms of the left operand; and
    a node with the same operand on both sides evaluates to the very
    [IntermediateExpr] of the operand. *)
Theorem plus_absorbs_known_terms :
  (forall tok org l r le re,
      eval l true = Ok (VExpr le) ->
      eval r true = Ok (VExpr re) ->
      (forall t, In t (terms re) -> py_in Term_eq t (terms le) = true) ->
      exists res,
        eval (Node "+" tok [l; r] org) true = Ok (VExpr res)
        /\ terms res = terms le)
  /\ (forall tok org x e,
         eval x true = Ok (VExpr e) ->
         eval (Node "+" tok [x; x] org) true = Ok (VExpr e)).
Proof.
  split.
  - intros tok org l r le re Hl Hr Hin.
    pose proof (eval_true_wf _ _ Hl) as Wl. pose proof (eval_true_wf _ _ Hr) as Wr.
    apply eval_true_expr in Hl, Hr.
    destruct (plus_terms tok org l r le re Hl Hr) as (res & Hres & Hts).
    exists res. split; [apply eval_true_expr, Hres |].
    rewrite Hts, (to_unique_tuple_union term_key Term_eq Term_eq_key)
      by (apply Wl || apply Wr).
    rewrite filter_nil; [apply app_nil_r |].
    intros t Ht. rewrite (Hin t Ht). reflexivity.
  - intros tok org x e Hx. pose proof (eval_true_wf _ _ Hx) as W.
    apply eval_true_expr. apply eval_true_expr in Hx.
    rewrite (plus_expr tok org x x e e Hx Hx).
    rewrite (to_unique_tuple_app_self term_key Term_eq Term_eq_key) by apply W.
    destruct W as (_ & _ & _ & Hr).
    destruct (intercept e) eqn:Hi.
    + simpl in Hr. rewrite <- Hi, <- Hr at 1. f_equal. apply expr_eta.
    + destruct (String.eqb (type x) "ZERO") eqn:Hz.
      * apply String.eqb_eq in Hz. rewrite (eval_expr_zero x e Hz Hx). reflexivity.
      * rewrite <- Hi at 1. f_equal. apply expr_eta.
Qed.

Lemma a_plus_a_instance :
  exists res,
    eval (binop "a + a" "+" 2 3 (var "a + a" 0 "a") (var "a + a" 4 "a")) true
    = Ok (VExpr res)
    /\ terms res = [Term_init [EvalFactor "a" (mkOrigin "a + a" 0 1)]].
Proof.
  destruct plus_absorbs_known_terms as [H _]. unfold binop.
  apply (H _ _ _ _
           (mkIntermediateExpr false None false
              [Term_init [EvalFactor "a" (mkOrigin "a + a" 0 1)]])
           (mkIntermediateExpr false None false
              [Term_init [EvalFactor "a" (mkOrigin "a + a" 4 5)]]));
    [vm_compute; reflexivity | vm_compute; reflexivity |].
  intros t [<- | []]. vm_compute. reflexivity.
Defined.

(** X12. Subtracting at least what is there leaves no term: when every
    term of the left operand of a binary [-] node is [in] the terms of the
    right operand, and the right operand is no literal [0] or [1], the
    node has no terms; so it is when both operands are the same node. *)
Theorem minus_cancels_known_terms :
  (forall tok org l r le re,
      type r <> "ZERO" -> type r <> "ONE" ->
      eval l true = Ok (VExpr le) ->
      eval r true = Ok (VExpr re) ->
      (forall t, In t (terms le) -> py_in Term_eq t (terms re) = true) ->
      exists res,
        eval (Node "-" tok [l; r] org) true = Ok (VExpr res) /\ terms res = [])
  /\ (forall tok org x e,
         type x <> "ZERO" -> type x <> "ONE" ->
         eval x true = Ok (VExpr e) ->
         eval (Node "-" tok [x; x] org) true
         = Ok (VExpr (if intercept e then mkIntermediateExpr false None true []
                      else mkIntermediateExpr false (intercept_origin e)
                             (intercept_removed e) []))).
Proof.
  split.
  - intros tok org l r le re Hz Ho Hl Hr Hin. apply eval_true_expr in Hl, Hr.
    eexists. split.
    + apply eval_true_expr. apply (minus_expr tok org l r le re Hz Ho Hl Hr).
    + rewrite filter_nil.
      * destruct (intercept re); reflexivity.
      * intros t Ht. rewrite (Hin t Ht). reflexivity.
  - intros tok org x e Hz Ho Hx.
    apply eval_true_expr. apply eval_true_expr in Hx.
    rewrite (minus_expr tok org x x e e Hz Ho Hx Hx).
    rewrite (filter_not_in_self term_key Term_eq Term_eq_key) by auto.
    destruct (intercept e); reflexivity.
Qed.

Lemma a_plus_b_minus_itself_instance :
  exists res,
    eval (binop "a + b - (a + b)" "-" 6 7
            (binop "a + b - (a + b)" "+" 2 3
               (var "a + b - (a + b)" 0 "a") (var "a + b - (a + b)" 4 "b"))
            (binop "a + b - (a + b)" "+" 11 12
               (var "a + b - (a + b)" 9 "a") (var "a + b - (a + b)" 13 "b"))) true
    = Ok (VExpr res)
    /\ terms res = [].
Proof.
  destruct minus_cancels_known_terms as [H _]. unfold binop at 1.
  apply (H _ _ _ _
           (mkIntermediateExpr false None false
              [Term_init [EvalFactor "a" (mkOrigin "a + b - (a + b)" 0 1)];
               Term_init [EvalFactor "b" (mkOrigin "a + b - (a + b)" 4 5)]])
           (mkIntermediateExpr false None false
              [Term_init [EvalFactor "a" (mkOrigin "a + b - (a + b)" 9 10)];
               Term_init [EvalFactor "b" (mkOrigin "a + b - (a + b)" 13 14)]]));
    [vm_compute; discriminate | vm_compute; discriminate | vm_compute; reflexivity
    | vm_compute; reflexivity |].
  intros t [<- | [<- | []]]; vm_compute; reflexivity.
Defined.

(** X13. Crossing is main effects plus interaction: when neither operand
    has a pending intercept, [l * r] and [(l + r) + (l : r)] both evaluate
    and have the same list of terms. *)
Theorem prod_is_plus_and_interaction :
  forall tok tok1 tok2 tok3 org org1 org2 org3 l r le re,
    eval l true = Ok (VExpr le) ->
    eval r true = Ok (VExpr re) ->
    intercept le = false -> intercept re = false ->
    exists p q,
      eval (Node "*" tok [l; r] org) true = Ok (VExpr p)
      /\ eval (Node "+" tok1 [Node "+" tok2 [l; r] org2; Node ":" tok3 [l; r] org3] org1)
           true = Ok (VExpr q)
      /\ terms p = terms q.
Proof.
  intros tok tok1 tok2 tok3 org org1 org2 org3 l r le re Hl Hr Hi Hi'.
  apply eval_true_expr in Hl, Hr.
  pose proof (prod_call tok org l r le re Hl Hr) as Hp. rewrite Hi, Hi' in Hp.
  pose proof (plus_expr tok2 org2 l r le re Hl Hr) as Hs. rewrite Hi' in Hs.
  pose proof (interact_expr tok3 org3 l r le re Hl Hr Hi Hi') as Hx.
  pose proof (plus_expr tok1 org1 _ _ _ _ Hs Hx) as Hq.
  cbn [intercept type] in Hq. change (":" =? "ZERO")%string with false in Hq.
  eexists. eexists. split; [| split].
  - apply (eval_call_Ok "*" tok [l; r] org _ _ _ lookup_prod2 Hp).
  - apply eval_true_expr. exact Hq.
  - assert (Hterms : forall (b : bool) (a c : IntermediateExpr),
               terms a = terms c -> terms (if b then a else c) = terms a).
    { intros [] a c H; [reflexivity | symmetry; exact H]. }
    rewrite !Hterms by reflexivity. cbn [terms].
    rewrite (to_unique_tuple_app_r term_key Term_eq Term_eq_key).
    rewrite (to_unique_tuple_app_l term_key Term_eq Term_eq_key).
    rewrite <- app_assoc. reflexivity.
Qed.

Lemma a_times_b_law_instance :
  exists p q,
    eval (binop "a * b" "*" 2 3 (var "a * b" 0 "a") (var "a * b" 4 "b")) true
    = Ok (VExpr p)
    /\ eval (binop "a + b + a:b" "+" 6 7
               (binop "a + b + a:b" "+" 2 3 (var "a * b" 0 "a") (var "a * b" 4 "b"))
               (binop "a + b + a:b" ":" 9 10 (var "a * b" 0 "a") (var "a * b" 4 "b")))
         true = Ok (VExpr q)
    /\ terms p = terms q.
Proof.
  unfold binop.
  apply (prod_is_plus_and_interaction _ _ _ _ _ _ _ _ _ _
           (mkIntermediateExpr false None false
              [Term_init [EvalFactor "a" (mkOrigin "a * b" 0 1)]])
           (mkIntermediateExpr false None false
              [Term_init [EvalFactor "b" (mkOrigin "a * b" 4 5)]]));
    (vm_compute; reflexivity) || reflexivity.
Defined.

(** X14. Interaction does not depend on the order of its operands, up to
    the equality of terms: when no operand has a pending intercept and
    the terms of [l] are [in] those of [l'], and those of [r] in those of
    [r'], then [(l : r) - (r' : l')] evaluates to an expression without
    terms, intercept or removal. *)
Theorem interaction_commutes_under_minus :
  forall tok tok1 tok2 org org1 org2 l r l' r' le re le' re',
    eval l true = Ok (VExpr le) ->
    eval r true = Ok (VExpr re) ->
    eval l' true = Ok (VExpr le') ->
    eval r' true = Ok (VExpr re') ->
    intercept le = false -> intercept re = false ->
    intercept le' = false -> intercept re' = false ->
    (forall t, In t (terms le) -> py_in Term_eq t (terms le') = true) ->
    (forall t, In t (terms re) -> py_in Term_eq t (terms re') = true) ->
    eval (Node "-" tok [Node ":" tok1 [l; r] org1; Node ":" tok2 [r'; l'] org2] org) true
    = Ok (VExpr (mkIntermediateExpr false None false [])).
Proof.
  intros tok tok1 tok2 org org1 org2 l r l' r' le re le' re'
    Hl Hr Hl' Hr' Hi Hi' Hj Hj' Hlin Hrin.
  apply eval_true_expr. apply eval_true_expr in Hl, Hr, Hl', Hr'.
  pose proof (interact_expr tok1 org1 l r le re Hl Hr Hi Hi') as H1.
  pose proof (interact_expr tok2 org2 r' l' re' le' Hr' Hl' Hj' Hj) as H2.
  assert (Hz : type (Node ":" tok2 [r'; l'] org2) <> "ZERO") by (cbn; discriminate).
  assert (Ho : type (Node ":" tok2 [r'; l'] org2) <> "ONE") by (cbn; discriminate).
  rewrite (minus_expr tok org _ _ _ _ Hz Ho H1 H2).
  cbn [intercept intercept_origin intercept_removed terms]. f_equal. f_equal.
  apply filter_nil. intros t Ht. apply negb_false_iff.
  rewrite py_in_terms_unique.
  apply to_unique_tuple_In, pairwise_terms_In in Ht as (lt & rt & Hlt & Hrt & ->).
  apply Hlin in Hlt. apply Hrin in Hrt.
  apply existsb_exists in Hlt as (lt' & Hlt' & El).
  apply existsb_exists in Hrt as (rt' & Hrt' & Er).
  apply existsb_exists. exists (Term_init (factors rt' ++ factors lt')).
  split; [apply pairwise_terms_In; eauto |].
  apply Term_eq_key in El, Er. apply Term_eq_key.
  rewrite !term_key_Term_init. unfold term_key in El, Er.
  apply frozenset_ext. intros k.
  pose proof (proj1 (frozenset_ext _ _) El k) as El'.
  pose proof (proj1 (frozenset_ext _ _) Er k) as Er'.
  rewrite !map_app, !in_app_iff. tauto.
Qed.

Lemma ab_minus_ba_law_instance :
  eval f_ab_minus_ba true = Ok (VExpr (mkIntermediateExpr false None false [])).
Proof.
  apply (interaction_commutes_under_minus
           (mkToken "-" (mkOrigin "a:b - b:a" 4 5) None)
           (mkToken ":" (mkOrigin "a:b - b:a" 1 2) None)
           (mkToken ":" (mkOrigin "a:b - b:a" 7 8) None)
           (mkOrigin "a:b - b:a" 0 9) (mkOrigin "a:b - b:a" 0 3)
           (mkOrigin "a:b - b:a" 6 9)
           (var "a:b - b:a" 0 "a") (var "a:b - b:a" 2 "b")
           (var "a:b - b:a" 8 "a") (var "a:b - b:a" 6 "b")
           (mkIntermediateExpr false None false
              [Term_init [EvalFactor "a" (mkOrigin "a:b - b:a" 0 1)]])
           (mkIntermediateExpr false None false
              [Term_init [EvalFactor "b" (mkOrigin "a:b - b:a" 2 3)]])
           (mkIntermediateExpr false None false
              [Term_init [EvalFactor "a" (mkOrigin "a:b - b:a" 8 9)]])
           (mkIntermediateExpr false None false
              [Term_init [EvalFactor "b" (mkOrigin "a:b - b:a" 6 7)]]));
    [vm_compute; reflexivity | vm_compute; reflexivity | vm_compute; reflexivity
    | vm_compute; reflexivity | reflexivity | reflexivity | reflexivity | reflexivity
    | intros t [<- | []]; vm_compute; reflexivity
    | intros t [<- | []]; vm_compute; reflexivity].
Defined.

(** ** Where the terms and factors of a result come from *)

Lemma holds_bind {A B} (P : A -> Prop) (Q : B -> Prop) (m : Result A)
    (k : A -> Result B) :
  holds P m -> (forall a, P a -> holds Q (k a)) -> holds Q (bind m k).
Proof. destruct m as [a|e]; simpl; auto. Qed.

Lemma holds_Ok {A} (P : A -> Prop) (m : Result A) (a : A) :
  holds P m -> m = Ok a -> P a.
Proof. intros H ->. exact H. Qed.

Lemma holds_weaken {A} (P Q : A -> Prop) (m : Result A) :
  (forall a, P a -> Q a) -> holds P m -> holds Q m.
Proof. destruct m; simpl; auto. Qed.

Lemma term_built_weaken (F G : Factor -> Prop) t :
  (forall f, F f -> G f) -> term_built F t -> term_built G t.
Proof.
  intros HFG (fs & -> & Hne & Hu & HF). exists fs. repeat split; try assumption.
  eapply List.Forall_impl; [exact HFG | exact HF].
Qed.

Lemma term_built_factors F t : term_built F t -> Forall F (factors t).
Proof. intros (fs & -> & _ & _ & HF). exact HF. Qed.

Lemma term_built_Term_init (F : Factor -> Prop) fs :
  fs <> [] -> Forall F fs -> term_built F (Term_init fs).
Proof.
  intros Hne HF. exists (to_unique_tuple factor_eqb fs). repeat split.
  - intros H. apply Hne. apply (to_unique_tuple_nil_inv factor_eqb fs H).
  - apply (to_unique_tuple_unique factor_key factor_eqb factor_eqb_key).
  - apply List.Forall_forall. intros f Hf. apply to_unique_tuple_In in Hf.
    revert f Hf. apply List.Forall_forall. exact HF.
Qed.

Lemma holds_init_built F i o r ts :
  Forall (term_built F) ts ->
  holds (built_expr F) (IntermediateExpr_init i o r ts).
Proof.
  intros Hts. unfold IntermediateExpr_init.
  destruct (i && negb (truthy o)); [exact I |]. destruct (i && r); [exact I |].
  unfold holds, built_expr. cbn [terms]. apply List.Forall_forall. intros t Ht.
  apply to_unique_tuple_In in Ht. revert t Ht. apply List.Forall_forall. exact Hts.
Qed.

Lemma holds_interaction_built F l r :
  Forall (fun t => Forall F (factors t)) (terms l) ->
  built_expr F r ->
  holds (built_expr F) (_interaction l r).
Proof.
  intros Hl Hr. unfold _interaction.
  apply (holds_bind (fun _ => True)); [destruct (_check_interactable l); exact I |].
  intros _ _.
  apply (holds_bind (fun _ => True)); [destruct (_check_interactable r); exact I |].
  intros _ _. apply holds_init_built. apply List.Forall_forall. intros t Ht.
  apply in_flat_map in Ht as (lt & Hlt & Ht). apply in_map_iff in Ht as (rt & <- & Hrt).
  pose proof (proj1 (List.Forall_forall _ _) Hl lt Hlt) as HFl.
  pose proof (proj1 (List.Forall_forall _ _) Hr rt Hrt) as (fs & Ert & Hne & _ & HFr).
  apply term_built_Term_init.
  - rewrite Ert. cbn [factors]. intros H. apply app_eq_nil in H as [_ H]. exact (Hne H).
  - apply Forall_app. split; [exact HFl |]. rewrite Ert. exact HFr.
Qed.

Lemma built_expr_factors F e :
  built_expr F e -> Forall (fun t => Forall F (factors t)) (terms e).
Proof.
  intros H. eapply List.Forall_impl; [| exact H]. intros t. apply term_built_factors.
Qed.

Section RulesBuilt.
Variable evaluator : ParseNode -> Result IntermediateExpr.
Variable F : Factor -> Prop.

Local Abbreviation operands_built l :=
  (Forall (fun arg => holds (built_expr F) (evaluator arg)) l).

Lemma holds_eval_args l :
  operands_built l ->
  holds (Forall (built_expr F)) (eval_args evaluator l).
Proof.
  induction 1 as [|arg rest Harg Hrest IH]; simpl; [constructor |].
  eapply holds_bind; [exact Harg | intros e He].
  eapply holds_bind; [exact IH | intros es Hes]. simpl. constructor; assumption.
Qed.

Lemma built_app e1 e2 :
  built_expr F e1 -> built_expr F e2 -> Forall (term_built F) (terms e1 ++ terms e2).
Proof. intros H1 H2. apply Forall_app. split; assumption. Qed.

Lemma built_filter (f : Term -> bool) e :
  built_expr F e -> Forall (term_built F) (List.filter f (terms e)).
Proof.
  intros H. apply List.Forall_forall. intros t Ht. apply filter_In in Ht as [Ht _].
  revert t Ht. apply List.Forall_forall. exact H.
Qed.

Lemma holds_binary_plus tree :
  operands_built (args tree) ->
  holds (built_value F) (_eval_binary_plus evaluator tree).
Proof.
  unfold _eval_binary_plus. intros Hargs.
  destruct (args tree) as [|a0 rest]; [exact I |].
  apply Forall_cons_1 in Hargs as [H0 Hrest].
  eapply holds_bind; [exact H0 | intros le Hle].
  destruct rest as [|a1 rest]; [exact I |].
  apply Forall_cons_1 in Hrest as [H1 _].
  destruct (String.eqb (type a1) "ZERO").
  - eapply holds_bind; [apply holds_init_built, Hle | intros r Hr; exact Hr].
  - eapply holds_bind; [exact H1 | intros re Hre].
    destruct (intercept re);
      (eapply holds_bind;
       [apply holds_init_built, built_app; assumption | intros r Hr; exact Hr]).
Qed.

Lemma holds_binary_minus tree :
  operands_built (args tree) ->
  holds (built_value F) (_eval_binary_minus evaluator tree).
Proof.
  unfold _eval_binary_minus. intros Hargs.
  destruct (args tree) as [|a0 rest]; [exact I |].
  apply Forall_cons_1 in Hargs as [H0 Hrest].
  eapply holds_bind; [exact H0 | intros le Hle].
  destruct rest as [|a1 rest]; [exact I |].
  apply Forall_cons_1 in Hrest as [H1 _].
  destruct (String.eqb (type a1) "ZERO");
    [eapply holds_bind; [apply holds_init_built, Hle | intros r Hr; exact Hr] |].
  destruct (String.eqb (type a1) "ONE");
    [eapply holds_bind; [apply holds_init_built, Hle | intros r Hr; exact Hr] |].
  eapply holds_bind; [exact H1 | intros re Hre].
  destruct (intercept re);
    (eapply holds_bind;
     [apply holds_init_built, built_filter, Hle | intros r Hr; exact Hr]).
Qed.

Lemma holds_binary_prod tree :
  operands_built (args tree) ->
  holds (built_value F) (_eval_binary_prod evaluator tree).
Proof.
  unfold _eval_binary_prod. intros Hargs.
  eapply holds_bind; [apply holds_eval_args, Hargs | intros exprs Hes].
  destruct exprs as [|e0 [|e1 [|e2 rest]]]; try exact I.
  apply Forall_cons_1 in Hes as [He0 Hes]. apply Forall_cons_1 in Hes as [He1 _].
  eapply holds_bind;
    [apply holds_interaction_built; [apply built_expr_factors, He0 | exact He1] |].
  intros inter Hinter.
  eapply holds_bind; [| intros r Hr; exact Hr].
  apply holds_init_built. apply Forall_app. split; [exact He0 |].
  apply Forall_app. split; assumption.
Qed.

Lemma holds_binary_div tree :
  operands_built (args tree) ->
  holds (built_value F) (_eval_binary_div evaluator tree).
Proof.
  unfold _eval_binary_div. intros Hargs.
  destruct (args tree) as [|a0 rest]; [exact I |].
  apply Forall_cons_1 in Hargs as [H0 Hrest].
  eapply holds_bind; [exact H0 | intros le Hle].
  destruct rest as [|a1 rest]; [exact I |].
  apply Forall_cons_1 in Hrest as [H1 _].
  eapply holds_bind; [exact H1 | intros re Hre].
  apply (holds_bind (fun _ => True)); [destruct (_check_interactable le); exact I |].
  intros _ _.
  rewrite (init_plain_Ok [_]). cbn [bind].
  eapply holds_bind.
  - apply holds_interaction_built; [| exact Hre]. cbn [terms].
    apply List.Forall_forall. intros t Ht. apply to_unique_tuple_In in Ht.
    destruct Ht as [<- | []]. apply List.Forall_forall. intros f Hf.
    apply to_unique_tuple_In in Hf. apply in_flat_map in Hf as (lt & Hlt & Hf).
    pose proof (proj1 (List.Forall_forall _ _) (built_expr_factors F le Hle) lt Hlt) as HF.
    exact (proj1 (List.Forall_forall _ _) HF f Hf).
  - intros inter Hinter. eapply holds_bind; [| intros r Hr; exact Hr].
    apply holds_init_built, built_app; assumption.
Qed.

Lemma holds_binary_interact tree :
  operands_built (args tree) ->
  holds (built_value F) (_eval_binary_interact evaluator tree).
Proof.
  unfold _eval_binary_interact. intros Hargs.
  eapply holds_bind; [apply holds_eval_args, Hargs | intros exprs Hes].
  destruct exprs as [|e0 [|e1 [|e2 rest]]]; try exact I.
  apply Forall_cons_1 in Hes as [He0 Hes]. apply Forall_cons_1 in Hes as [He1 _].
  eapply holds_bind;
    [apply holds_interaction_built; [apply built_expr_factors, He0 | exact He1] |].
  intros r Hr. exact Hr.
Qed.

Lemma holds_power_loop n le big all_terms :
  built_expr F le -> built_expr F big -> Forall (term_built F) all_terms ->
  holds (Forall (term_built F)) (power_loop n le big all_terms).
Proof.
  revert big all_terms. induction n as [|n IH]; intros big all_terms Hle Hbig Hall; simpl.
  - exact Hall.
  - eapply holds_bind;
      [apply holds_interaction_built; [apply built_expr_factors, Hle | exact Hbig] |].
    intros big' Hbig'. apply IH; [exact Hle | exact Hbig' |].
    apply Forall_app. split; assumption.
Qed.

Lemma holds_binary_power tree :
  operands_built (args tree) ->
  holds (built_value F) (_eval_binary_power evaluator tree).
Proof.
  unfold _eval_binary_power. intros Hargs.
  destruct (args tree) as [|a0 rest]; [exact I |].
  apply Forall_cons_1 in Hargs as [H0 Hrest].
  eapply holds_bind; [exact H0 | intros le Hle].
  apply (holds_bind (fun _ => True)); [destruct (_check_interactable le); exact I |].
  intros _ _. destruct rest as [|a1 rest]; [exact I |].
  apply (holds_bind (fun _ => True)).
  { destruct (py_in String.eqb (type a1) ["ONE"; "NUMBER"]); [| exact I].
    destruct (extra (token a1)) as [expr|]; [| exact I].
    destruct (py_int expr); exact I. }
  intros power _. destruct (power <? 1)%Z; [exact I |].
  eapply holds_bind; [apply holds_power_loop; assumption | intros all_terms Hall].
  eapply holds_bind; [apply holds_init_built, Hall | intros r Hr; exact Hr].
Qed.

Lemma holds_unary_plus tree :
  operands_built (args tree) ->
  holds (built_value F) (_eval_unary_plus evaluator tree).
Proof.
  unfold _eval_unary_plus. intros Hargs.
  destruct (args tree) as [|a0 rest]; [exact I |].
  apply Forall_cons_1 in Hargs as [H0 _].
  eapply holds_bind; [exact H0 | intros r Hr; exact Hr].
Qed.
End RulesBuilt.

Lemma holds_unary_minus F tree : holds (built_value F) (_eval_unary_minus tree).
Proof.
  unfold _eval_unary_minus. destruct (args tree) as [|a0 rest]; [exact I |].
  destruct (String.eqb (type a0) "ZERO"); [constructor |].
  destruct (String.eqb (type a0) "ONE"); [constructor | exact I].
Qed.

Lemma holds_python_expr (F : Factor -> Prop) tree :
  (forall code, extra (token tree) = Some code -> F (EvalFactor code (origin tree))) ->
  holds (built_value F) (_eval_python_expr tree).
Proof.
  intros HF. unfold _eval_python_expr.
  destruct (extra (token tree)) as [code|]; [| exact I].
  eapply holds_bind; [| intros r Hr; exact Hr].
  apply holds_init_built. constructor; [| constructor].
  apply term_built_Term_init; [discriminate |]. constructor; [| constructor].
  apply HF. reflexivity.
Qed.

Lemma lookup_python_expr ty n :
  _evaluators !! (ty, n) = Some R_python_expr -> ty = "PYTHON_EXPR" /\ n = 0.
Proof.
  unfold _evaluators, add_op.
  repeat (rewrite lookup_insert_Some; intros [[[= <- <-] Hr] | [_ H]];
          [try discriminate Hr; auto | revert H]).
  rewrite lookup_empty. discriminate.
Qed.

Lemma python_factors_unfold ty tok l org :
  python_factors (Node ty tok l org)
  = (match extra tok, l with
     | Some code, [] =>
         if String.eqb ty "PYTHON_EXPR" then [EvalFactor code org] else []
     | _, _ => []
     end) ++ flat_map python_factors l.
Proof.
  cbn [python_factors]. apply f_equal.
  induction l as [|arg rest IH]; [reflexivity |].
  cbn [flat_map]. rewrite <- IH. reflexivity.
Qed.

Lemma python_factors_arg ty tok l org arg f :
  In arg l -> In f (python_factors arg) -> In f (python_factors (Node ty tok l org)).
Proof.
  intros Harg Hf. rewrite python_factors_unfold. apply in_app_iff. right.
  apply in_flat_map. eauto.
Qed.

Lemma dispatch_built tree :
  holds (built_value (fun f => In f (python_factors tree))) (dispatch tree).
Proof.
  induction tree as [ty tok l org IH] using ParseNode_ind.
  rewrite dispatch_unfold. cbn [type args].
  set (F := fun f => In f (python_factors (Node ty tok l org))).
  assert (Hev : Forall (fun arg => holds (built_expr F) (eval_expr arg)) l).
  { apply List.Forall_forall. intros arg Harg.
    pose proof (proj1 (List.Forall_forall _ _) IH arg Harg) as Hd. simpl in Hd.
    unfold eval_expr. eapply holds_bind; [exact Hd |].
    intros [e|m] He; simpl; [| exact I].
    eapply List.Forall_impl; [| exact He]. intros t. apply term_built_weaken.
    intros f. apply python_factors_arg, Harg. }
  change (fun arg => result <- dispatch arg ;; check_evalexpr arg result) with eval_expr.
  destruct (_evaluators !! (ty, length l)) as [rule|] eqn:Hrule; [| exact I].
  destruct rule; unfold call.
  - unfold _eval_any_tilde. cbn [args].
    destruct (eval_args eval_expr l) as [exprs|]; [| exact I]. cbn [bind].
    match goal with |- holds _ (bind ?m _) => destruct m as [exprs'|]; [| exact I] end.
    cbn [bind]. destruct exprs' as [|e0 [|e1 [|e2 rest]]]; exact I.
  - apply holds_binary_plus, Hev.
  - apply holds_binary_minus, Hev.
  - apply holds_binary_prod, Hev.
  - apply holds_binary_div, Hev.
  - apply holds_binary_interact, Hev.
  - apply holds_binary_power, Hev.
  - apply holds_unary_plus, Hev.
  - apply holds_unary_minus.
  - constructor.
  - constructor.
  - exact I.
  - apply holds_python_expr. cbn [token origin]. intros code Hcode.
    apply lookup_python_expr in Hrule as [-> Hlen].
    destruct l; [| discriminate Hlen]. unfold F. rewrite python_factors_unfold, Hcode.
    left. reflexivity.
Qed.

(** X15. The terms of a result come from the leaves of the tree: every
    term of the [IntermediateExpr] a tree evaluates to is a term built by
    [Term(...)] (never the object [INTERCEPT]), with at least one factor
    and no factor twice, and each of its factors is the [EvalFactor] made
    of a [PYTHON_EXPR] leaf of the tree, with the text and the origin of
    that leaf; and no term occurs twice in the list. *)
Theorem result_terms_come_from_leaves :
  forall tree e,
    eval tree true = Ok (VExpr e) ->
    unique term_key (terms e)
    /\ Forall (term_built (fun f => In f (python_factors tree))) (terms e).
Proof.
  intros tree e H. split; [apply (eval_true_wf tree e H) |].
  apply eval_true_expr in H. unfold eval_expr in H.
  pose proof (dispatch_built tree) as Hd.
  destruct (dispatch tree) as [[e'|m]|err]; try discriminate.
  cbn in H. injection H as <-. exact Hd.
Qed.

Lemma a_colon_b_leaves_instance :
  Forall (term_built
            (fun f => In f [EvalFactor "a" (mkOrigin "a:b" 0 1);
                            EvalFactor "b" (mkOrigin "a:b" 2 3)]))
    [Term_init [EvalFactor "a" (mkOrigin "a:b" 0 1);
                EvalFactor "b" (mkOrigin "a:b" 2 3)]].
Proof.
  destruct (result_terms_come_from_leaves
              (binop "a:b" ":" 1 2 (var "a:b" 0 "a") (var "a:b" 2 "b"))
              (mkIntermediateExpr false None false
                 [Term_init [EvalFactor "a" (mkOrigin "a:b" 0 1);
                             EvalFactor "b" (mkOrigin "a:b" 2 3)]]))
    as [_ H]; [vm_compute; reflexivity |].
  exact H.
Defined.

(** ** The model of a formula *)

Lemma eval_expr_built tree e :
  eval_expr tree = Ok e -> built_expr (fun f => In f (python_factors tree)) e.
Proof.
  unfold eval_expr. intros H. pose proof (dispatch_built tree) as Hd.
  destruct (dispatch tree) as [[e'|m]|err]; try discriminate.
  cbn in H. injection H as <-. exact Hd.
Qed.

Lemma eval_expr_wf tree e : eval_expr tree = Ok e -> wf_expr e.
Proof. intros H. exact (good_Ok _ _ _ (eval_expr_good tree) H). Qed.

(** What [eval] gives at a two-argument [~] node. *)
Lemma tilde2_model tok org l r le re :
  eval_expr l = Ok le -> eval_expr r = Ok re ->
  eval (Node "~" tok [l; r] org) false
  = Ok (VModel
          (mkModelDesc
             (if intercept le then INTERCEPT :: terms le else terms le)
             (if intercept_removed re then terms re else INTERCEPT :: terms re))).
Proof.
  intros Hl Hr.
  pose proof (eval_expr_wf _ _ Hl) as Wl. pose proof (eval_expr_wf _ _ Hr) as Wr.
  rewrite (eval_call "~" tok [l; r] org _ _ lookup_tilde2).
  unfold call, _eval_any_tilde. cbn [args eval_args]. rewrite Hl, Hr.
  cbn [bind length Nat.eqb]. unfold ModelDesc_init.
  rewrite !to_unique_maybe_add_intercept by assumption.
  destruct (intercept_removed re); reflexivity.
Qed.

(** What [eval] gives at a one-argument [~] node. *)
Lemma tilde1_model tok org r re :
  eval_expr r = Ok re ->
  eval (Node "~" tok [r] org) false
  = Ok (VModel
          (mkModelDesc []
             (if intercept_removed re then terms re else INTERCEPT :: terms re))).
Proof.
  intros Hr. pose proof (eval_expr_wf _ _ Hr) as Wr.
  rewrite (eval_call "~" tok [r] org _ _ lookup_tilde1).
  unfold call, _eval_any_tilde. cbn [args eval_args]. rewrite Hr.
  cbn [bind length Nat.eqb].
  change (IntermediateExpr_init false None true [])
    with (Ok (mkIntermediateExpr false None true [])).
  cbn [bind intercept terms _maybe_add_intercept]. unfold ModelDesc_init.
  change (to_unique_tuple Term_eq []) with (@nil Term).
  rewrite to_unique_maybe_add_intercept by assumption.
  destruct (intercept_removed re); reflexivity.
Qed.

Lemma eval_args_Raise_or_Ok l :
  forall es, eval_args eval_expr l = Ok es ->
  Forall2 (fun arg e => eval_expr arg = Ok e) l es.
Proof.
  induction l as [|arg rest IH]; intros es; cbn [eval_args].
  - intros [= <-]. constructor.
  - destruct (eval_expr arg) as [e|] eqn:E; [| discriminate]. cbn [bind].
    destruct (eval_args eval_expr rest) as [es'|]; [| discriminate]. cbn [bind].
    intros [= <-]. constructor; [exact E | apply IH; reflexivity].
Qed.

Lemma unique_maybe_INTERCEPT (b : bool) e :
  wf_expr e -> unique term_key (if b then INTERCEPT :: terms e else terms e).
Proof.
  intros W. destruct b; [apply unique_INTERCEPT_cons, W | apply W].
Qed.

Lemma built_from_arg ty tok l org arg e :
  In arg l -> eval_expr arg = Ok e ->
  Forall (term_built (fun f => In f (python_factors (Node ty tok l org)))) (terms e).
Proof.
  intros Harg He. eapply List.Forall_impl; [| apply (eval_expr_built arg e He)].
  intros t. apply term_built_weaken. intros f. apply python_factors_arg, Harg.
Qed.

(** X16. [from_formula] returns a model only for a tree with [~] at its
    root.  Each term list of the model is the object [INTERCEPT], or not,
    followed by terms built by [Term(...)] of the factors of the leaves of
    the tree, each with at least one factor and no factor twice; no two
    terms of a list are equal.  And [from_formula] fails its assertion
    exactly when the tree evaluates to an [IntermediateExpr]. *)
Theorem from_formula_model_is_well_formed :
  (forall tree m,
      from_formula tree = Ok m ->
      type tree = "~"
      /\ unique term_key (lhs_termlist m)
      /\ unique term_key (rhs_termlist m)
      /\ exists (li ri : bool) lts rts,
           lhs_termlist m = (if li then INTERCEPT :: lts else lts)
           /\ rhs_termlist m = (if ri then INTERCEPT :: rts else rts)
           /\ Forall (term_built (fun f => In f (python_factors tree))) lts
           /\ Forall (term_built (fun f => In f (python_factors tree))) rts)
  /\ (forall tree,
         from_formula tree = Raise AssertionError
         <-> exists e, eval tree false = Ok (VExpr e)).
Proof.
  split.
  - intros tree m H. unfold from_formula in H.
    destruct (eval tree false) as [[e|m']|err] eqn:E; try discriminate.
    cbn in H. injection H as <-.
    assert (Hd : dispatch tree = Ok (VModel m')).
    { unfold eval in E. destruct (dispatch tree) as [[e|m'']|err]; cbn in E; congruence. }
    split; [apply (dispatch_VModel tree m' Hd) |].
    destruct tree as [ty tok l org].
    rewrite dispatch_unfold in Hd. cbn [type args] in Hd.
    destruct (_evaluators !! (ty, length l)) as [rule|] eqn:Hrule; [| discriminate].
    pose proof (call_VModel rule _ _ Hd) as ->.
    apply lookup_any_tilde in Hrule as [-> Hlen].
    destruct l as [|a [|b [|c rest]]]; cbn in Hlen; try lia.
    + (* one argument *)
      clear Hd. destruct (eval_expr a) as [re|err] eqn:Ha.
      * rewrite (tilde1_model tok org a re Ha) in E. injection E as <-.
        pose proof (eval_expr_wf _ _ Ha) as W. cbn [lhs_termlist rhs_termlist].
        split; [constructor | split].
        -- destruct (intercept_removed re);
             [apply W | apply unique_INTERCEPT_cons, W].
        -- exists false, (negb (intercept_removed re)), [], (terms re).
           split; [reflexivity | split; [| split; [constructor |]]].
           ++ destruct (intercept_removed re); reflexivity.
           ++ apply (built_from_arg "~" tok [a] org a re); [left; reflexivity | exact Ha].
      * exfalso. rewrite (eval_call "~" tok [a] org _ _ lookup_tilde1) in E.
        unfold call, _eval_any_tilde in E. cbn [args eval_args] in E.
        rewrite Ha in E. discriminate.
    + (* two arguments *)
      clear Hd.
      destruct (eval_expr a) as [le|err] eqn:Ha;
        [destruct (eval_expr b) as [re|err] eqn:Hb |].
      * rewrite (tilde2_model tok org a b le re Ha Hb) in E. injection E as <-.
        pose proof (eval_expr_wf _ _ Ha) as Wl. pose proof (eval_expr_wf _ _ Hb) as Wr.
        cbn [lhs_termlist rhs_termlist].
        split; [apply unique_maybe_INTERCEPT, Wl | split].
        -- destruct (intercept_removed re);
             [apply Wr | apply unique_INTERCEPT_cons, Wr].
        -- exists (intercept le), (negb (intercept_removed re)), (terms le), (terms re).
           split; [reflexivity | split; [| split]].
           ++ destruct (intercept_removed re); reflexivity.
           ++ apply (built_from_arg "~" tok [a; b] org a le); [left; reflexivity | exact Ha].
           ++ apply (built_from_arg "~" tok [a; b] org b re);
                [right; left; reflexivity | exact Hb].
      * exfalso. rewrite (eval_call "~" tok [a; b] org _ _ lookup_tilde2) in E.
        unfold call, _eval_any_tilde in E. cbn [args eval_args] in E.
        rewrite Ha, Hb in E. discriminate.
      * exfalso. rewrite (eval_call "~" tok [a; b] org _ _ lookup_tilde2) in E.
        unfold call, _eval_any_tilde in E. cbn [args eval_args] in E.
        rewrite Ha in E. discriminate.
  - intros tree. unfold from_formula, eval.
    pose proof (dispatch_good tree) as Hd.
    destruct (dispatch tree) as [[e|m]|err]; cbn; split.
    + intros _. eauto.
    + reflexivity.
    + discriminate.
    + intros [e H]. discriminate.
    + intros [= ->]. exfalso. apply Hd. reflexivity.
    + intros [e H]. discriminate.
Qed.

Lemma model_of_y_a_b_instance :
  unique term_key
    [INTERCEPT;
     Term_init [EvalFactor "a" (mkOrigin "y ~ a + b" 4 5)];
     Term_init [EvalFactor "b" (mkOrigin "y ~ a + b" 8 9)]]
  /\ from_formula (binop "a + b" "+" 2 3 (var "a + b" 0 "a") (var "a + b" 4 "b"))
     = Raise AssertionError.
Proof.
  destruct from_formula_model_is_well_formed as [Hm Ha]. split.
  - destruct (Hm f_y_a_b
                (mkModelDesc
                   [Term_init [EvalFactor "y" (mkOrigin "y ~ a + b" 0 1)]]
                   [INTERCEPT;
                    Term_init [EvalFactor "a" (mkOrigin "y ~ a + b" 4 5)];
                    Term_init [EvalFactor "b" (mkOrigin "y ~ a + b" 8 9)]]))
      as (_ & _ & Hr & _); [vm_compute; reflexivity | exact Hr].
  - apply Ha. eexists. vm_compute. reflexivity.
Defined.

Lemma describe_text md : describe md = describe_amended md.
Proof.
  unfold describe, describe_amended, lhs_text, rhs_text.
  rewrite (map_ext _ _ term_code_text (lhs_termlist md)).
  rewrite tuple_eq_singleton_INTERCEPT.
  unfold py_in.
  rewrite (existsb_pointwise _ _ (rhs_termlist md) INTERCEPT_Term_eq_bool).
  rewrite (map_ext _ _ term_code_text).
  rewrite (term_code_text INTERCEPT).
  set (lhs := String.concat " + " (map term_text (lhs_termlist md))).
  assert (Hsep : (if String.eqb lhs "" then lhs +:+ "~ " else lhs +:+ " ~ ")
                 = (if String.eqb lhs "" then "~ " else lhs +:+ " ~ ")).
  { destruct (String.eqb lhs "") eqn:E; [| reflexivity].
    apply String.eqb_eq in E. rewrite E. reflexivity. }
  rewrite Hsep.
  destruct (existsb is_intercept (rhs_termlist md)) eqn:Hex; cbn [negb].
  - destruct (rhs_termlist md) as [|t [|u rhs]]; try reflexivity.
    destruct (is_intercept t); reflexivity.
  - destruct (rhs_termlist md) as [|t [|u rhs]]; try reflexivity.
    destruct (is_intercept t); reflexivity.
Qed.

Lemma term_text_names t : factors t <> [] -> term_text t = factor_names t.
Proof.
  unfold term_text, factor_names, is_intercept. destruct (factors t); [congruence | reflexivity].
Qed.

Lemma map_term_text_names ts :
  (forall t, In t ts -> factors t <> []) -> map term_text ts = map factor_names ts.
Proof. intros H. apply map_ext_in. intros t Ht. apply term_text_names, H, Ht. Qed.

Lemma existsb_is_intercept_false ts :
  (forall t, In t ts -> factors t <> []) -> existsb is_intercept ts = false.
Proof.
  induction ts as [|t ts IH]; intros H; simpl; [reflexivity |].
  rewrite IH by (intros u Hu; apply H; right; exact Hu).
  unfold is_intercept. destruct (factors t) eqn:E; [| reflexivity].
  exfalso. exact (H t (or_introl eq_refl) E).
Qed.

Lemma rhs_text_INTERCEPT_cons ts :
  ts <> [] -> (forall t, In t ts -> factors t <> []) ->
  rhs_text (INTERCEPT :: ts) = String.concat " + " (map factor_names ts).
Proof.
  intros Hne N. destruct ts as [|t ts]; [congruence |].
  unfold rhs_text. cbn [existsb is_intercept factors orb app].
  change (List.filter ne_INTERCEPT (INTERCEPT :: t :: ts))
    with (List.filter ne_INTERCEPT (t :: ts)).
  rewrite (filter_ne_INTERCEPT_id (t :: ts)) by (apply existsb_is_intercept_false, N).
  rewrite (map_term_text_names _ N). reflexivity.
Qed.

(** X17. The description of the model of a two-argument [~] node.  Its
    left side is the names of the terms of the left operand, behind a [1]
    when that operand has an intercept.  Its right side is, when the right
    operand has removed its intercept, a [0] followed by the names of its
    terms; otherwise [1] when it has no terms, and the names of its terms
    alone when it has some (the intercept is then not written). *)
Theorem describe_of_formula :
  forall tok org l r le re,
    eval l true = Ok (VExpr le) ->
    eval r true = Ok (VExpr re) ->
    exists m,
      from_formula (Node "~" tok [l; r] org) = Ok m
      /\ describe m
         = (let lhs :=
              String.concat " + "
                ((if intercept le then ["1"] else [])
                 ++ map factor_names (terms le)) in
            if String.eqb lhs "" then "~ " else lhs +:+ " ~ ")
           +:+ (if intercept_removed re
                then String.concat " + " ("0" :: map factor_names (terms re))
                else match terms re with
                     | [] => "1"
                     | _ :: _ => String.concat " + " (map factor_names (terms re))
                     end).
Proof.
  intros tok org l r le re Hl Hr. apply eval_true_expr in Hl, Hr.
  pose proof (eval_expr_wf _ _ Hl) as (_ & Nl & _).
  pose proof (eval_expr_wf _ _ Hr) as (_ & Nr & _).
  eexists. split.
  - unfold from_formula. rewrite (tilde2_model tok org l r le re Hl Hr). reflexivity.
  - rewrite describe_text. unfold describe_amended, lhs_text.
    cbn [lhs_termlist rhs_termlist].
    assert (Hlhs : map term_text (if intercept le then INTERCEPT :: terms le else terms le)
                   = (if intercept le then ["1"] else []) ++ map factor_names (terms le)).
    { destruct (intercept le); cbn [map app]; rewrite map_term_text_names by exact Nl;
        reflexivity. }
    rewrite Hlhs. cbv zeta. f_equal.
    assert (Hfilter : List.filter ne_INTERCEPT (terms re) = terms re).
    { apply filter_ne_INTERCEPT_id, existsb_is_intercept_false, Nr. }
    destruct (intercept_removed re).
    + unfold rhs_text. rewrite (existsb_is_intercept_false _ Nr), Hfilter, (map_term_text_names _ Nr).
      destruct (terms re) as [|t [|u ts]] eqn:E; try reflexivity.
      unfold is_intercept. destruct (factors t) eqn:Ef; [| reflexivity].
      exfalso. apply (Nr t); [try rewrite E; left; reflexivity | exact Ef].
    + clear Hfilter. destruct (terms re) as [|t ts]; [reflexivity |].
      apply rhs_text_INTERCEPT_cons; [discriminate | exact Nr].
Qed.

Lemma describe_y_a_b_instance :
  exists m, from_formula f_y_a_b = Ok m /\ describe m = "y ~ a + b".
Proof.
  destruct (describe_of_formula (mkToken "~" (mkOrigin "y ~ a + b" 2 3) None)
              (mkOrigin "y ~ a + b" 0 9) (var "y ~ a + b" 0 "y")
              (binop "y ~ a + b" "+" 6 7 (var "y ~ a + b" 4 "a") (var "y ~ a + b" 8 "b"))
              (mkIntermediateExpr false None false
                 [Term_init [EvalFactor "y" (mkOrigin "y ~ a + b" 0 1)]])
              (mkIntermediateExpr false None false
                 [Term_init [EvalFactor "a" (mkOrigin "y ~ a + b" 4 5)];
                  Term_init [EvalFactor "b" (mkOrigin "y ~ a + b" 8 9)]]))
    as (m & Hm & Hd); [vm_compute; reflexivity | vm_compute; reflexivity |].
  exists m. split; [exact Hm |]. rewrite Hd. vm_compute. reflexivity.
Defined.

(** ** Nesting distributes to the right *)

Section UniqueMap.
Context {A K : Type} (key : A -> K) (eqb : A -> A -> bool).
Hypothesis eqb_key : forall x y, eqb x y = true <-> key x = key y.
Variable f : A -> A.
Hypothesis f_key : forall x y, key x = key y -> key (f x) = key (f y).

Lemma py_in_map x l : py_in eqb x l = true -> py_in eqb (f x) (map f l) = true.
Proof.
  intros H. apply existsb_exists in H as (y & Hy & E).
  apply existsb_exists. exists (f y). split; [apply in_map, Hy |].
  apply eqb_key, f_key, eqb_key, E.
Qed.

(** Removing the duplicates before or after mapping [f] makes no
    difference once the duplicates of the images are removed. *)
Lemma to_unique_loop_map l : forall b acc,
  to_unique_loop eqb (map f (to_unique_loop eqb l b)) acc
  = to_unique_loop eqb (map f l) (to_unique_loop eqb (map f b) acc).
Proof.
  induction l as [|x l IH]; intros b acc; cbn [to_unique_loop map]; [reflexivity |].
  destruct (py_in eqb x b) eqn:Hb.
  - rewrite IH.
    rewrite (py_in_to_unique_loop key eqb eqb_key), (py_in_map x b Hb). reflexivity.
  - rewrite IH, map_app, to_unique_loop_app. cbn [map to_unique_loop].
    destruct (py_in eqb (f x) (to_unique_loop eqb (map f b) acc)); reflexivity.
Qed.

Lemma to_unique_loop_absorb l acc :
  (forall x, In x l -> py_in eqb x acc = true) -> to_unique_loop eqb l acc = acc.
Proof.
  induction l as [|x l IH]; intros H; cbn [to_unique_loop]; [reflexivity |].
  rewrite (H x) by (left; reflexivity). apply IH. intros y Hy. apply H. right. exact Hy.
Qed.

Lemma to_unique_tuple_map_inner a l :
  to_unique_tuple eqb (a ++ map f (to_unique_tuple eqb l))
  = to_unique_tuple eqb (a ++ map f l).
Proof.
  unfold to_unique_tuple. rewrite !to_unique_loop_app.
  rewrite (to_unique_loop_map l [] (to_unique_loop eqb a [])). reflexivity.
Qed.

Lemma to_unique_tuple_repeat a b c :
  to_unique_tuple eqb ((a ++ b) ++ (a ++ c)) = to_unique_tuple eqb (a ++ b ++ c).
Proof.
  unfold to_unique_tuple. rewrite !to_unique_loop_app.
  rewrite (to_unique_loop_absorb a); [reflexivity |].
  intros x Hx. rewrite !(py_in_to_unique_loop key eqb eqb_key).
  rewrite (py_in_refl key eqb eqb_key x a Hx). apply orb_true_iff. right. reflexivity.
Qed.
End UniqueMap.

(** The result of a [/] node whose operands have no pending intercept. *)
Lemma div_expr tok org l r le re :
  eval_expr l = Ok le -> eval_expr r = Ok re ->
  intercept le = false -> intercept re = false ->
  eval_expr (Node "/" tok [l; r] org)
  = Ok (mkIntermediateExpr false None false
          (to_unique_tuple Term_eq
             (terms le
              ++ map (fun rt =>
                        Term_init
                          (factors (Term_init (flat_map factors (terms le)))
                           ++ factors rt))
                   (terms re)))).
Proof.
  intros Hl Hr Hi Hi'.
  apply (eval_expr_node "/" tok [l; r] org _ _ lookup_div2).
  unfold call, _eval_binary_div. cbn [args]. rewrite Hl. cbn [bind]. rewrite Hr.
  cbn [bind]. unfold _check_interactable at 1. rewrite Hi. cbn [bind].
  rewrite (init_plain_Ok [_]). cbn [bind].
  rewrite interaction_eq. cbn [intercept terms]. rewrite Hi'. cbn [bind terms].
  rewrite init_plain_Ok. cbn [bind].
  rewrite (to_unique_tuple_app_r term_key Term_eq Term_eq_key).
  unfold pairwise_terms. cbn [to_unique_tuple to_unique_loop py_in existsb app flat_map].
  rewrite app_nil_r. reflexivity.
Qed.

Lemma term_key_prepend c u v :
  term_key u = term_key v ->
  term_key (Term_init (c ++ factors u)) = term_key (Term_init (c ++ factors v)).
Proof.
  intros H. rewrite !term_key_Term_init. unfold term_key in H.
  apply frozenset_ext. intros k.
  pose proof (proj1 (frozenset_ext _ _) H k) as Hk.
  rewrite !map_app, !in_app_iff. tauto.
Qed.

(** X18. Nesting distributes over a sum on its right: when no operand has
    a pending intercept, [l / (r1 + r2)] and [(l / r1) + (l / r2)] both
    evaluate, and to the same list of terms. *)
Theorem div_distributes_to_the_right :
  forall tok tok1 tok2 tok3 tok4 org org1 org2 org3 org4 l r1 r2 le e1 e2,
    eval l true = Ok (VExpr le) ->
    eval r1 true = Ok (VExpr e1) ->
    eval r2 true = Ok (VExpr e2) ->
    intercept le = false -> intercept e1 = false -> intercept e2 = false ->
    exists p q,
      eval (Node "/" tok [l; Node "+" tok1 [r1; r2] org1] org) true = Ok (VExpr p)
      /\ eval (Node "+" tok2 [Node "/" tok3 [l; r1] org3; Node "/" tok4 [l; r2] org4] org2)
           true = Ok (VExpr q)
      /\ terms p = terms q.
Proof.
  intros tok tok1 tok2 tok3 tok4 org org1 org2 org3 org4 l r1 r2 le e1 e2
    Hl H1 H2 Hi Hi1 Hi2.
  apply eval_true_expr in Hl, H1, H2.
  pose proof (plus_expr tok1 org1 r1 r2 e1 e2 H1 H2) as Hsum. rewrite Hi2 in Hsum.
  assert (Hsum_i : forall s, Ok s = Ok (if String.eqb (type r2) "ZERO"
                     then mkIntermediateExpr false None true
                            (to_unique_tuple Term_eq (terms e1 ++ terms e2))
                     else mkIntermediateExpr (intercept e1) (intercept_origin e1)
                            (intercept_removed e1)
                            (to_unique_tuple Term_eq (terms e1 ++ terms e2))) ->
             intercept s = false
             /\ terms s = to_unique_tuple Term_eq (terms e1 ++ terms e2)).
  { intros s [= ->]. destruct (String.eqb (type r2) "ZERO"); split; auto. }
  destruct (Hsum_i _ eq_refl) as [Hsi Hst].
  pose proof (div_expr tok org l _ le _ Hl Hsum Hi Hsi) as Hp.
  pose proof (div_expr tok3 org3 l r1 le e1 Hl H1 Hi Hi1) as Hq1.
  pose proof (div_expr tok4 org4 l r2 le e2 Hl H2 Hi Hi2) as Hq2.
  pose proof (plus_expr tok2 org2 _ _ _ _ Hq1 Hq2) as Hq.
  cbn [intercept type] in Hq. change ("/" =? "ZERO")%string with false in Hq.
  cbv iota in Hq. cbn [terms] in Hq.
  eexists. eexists. split; [apply eval_true_expr, Hp | split; [apply eval_true_expr, Hq |]].
  cbn [terms]. rewrite Hst.
  set (C := fun rt => Term_init
                        (factors (Term_init (flat_map factors (terms le))) ++ factors rt)).
  assert (HC : forall x y, term_key x = term_key y -> term_key (C x) = term_key (C y)).
  { intros x y. apply term_key_prepend. }
  rewrite (to_unique_tuple_map_inner term_key Term_eq Term_eq_key C HC).
  rewrite (to_unique_tuple_app_r term_key Term_eq Term_eq_key).
  rewrite (to_unique_tuple_app_l term_key Term_eq Term_eq_key).
  rewrite (to_unique_tuple_repeat term_key Term_eq Term_eq_key).
  rewrite map_app. reflexivity.
Qed.

Lemma a_div_b_plus_c_instance :
  exists p q,
    eval (binop "a/(b + c)" "/" 1 2 (var "a/(b + c)" 0 "a")
            (binop "a/(b + c)" "+" 5 6 (var "a/(b + c)" 3 "b") (var "a/(b + c)" 7 "c")))
      true = Ok (VExpr p)
    /\ eval (binop "a/b + a/c" "+" 4 5
               (binop "a/b + a/c" "/" 1 2 (var "a/(b + c)" 0 "a") (var "a/(b + c)" 3 "b"))
               (binop "a/b + a/c" "/" 7 8 (var "a/(b + c)" 0 "a") (var "a/(b + c)" 7 "c")))
         true = Ok (VExpr q)
    /\ terms p = terms q.
Proof.
  unfold binop.
  apply (div_distributes_to_the_right _ _ _ _ _ _ _ _ _ _
           (var "a/(b + c)" 0 "a") (var "a/(b + c)" 3 "b") (var "a/(b + c)" 7 "c")
           (mkIntermediateExpr false None false
              [Term_init [EvalFactor "a" (mkOrigin "a/(b + c)" 0 1)]])
           (mkIntermediateExpr false None false
              [Term_init [EvalFactor "b" (mkOrigin "a/(b + c)" 3 4)]])
           (mkIntermediateExpr false None false
              [Term_init [EvalFactor "c" (mkOrigin "a/(b + c)" 7 8)]]));
    [vm_compute; reflexivity | vm_compute; reflexivity | vm_compute; reflexivity
    | reflexivity | reflexivity | reflexivity].
Defined.

(** ** A larger exponent only appends terms *)

Lemma to_unique_loop_extends {A} (eqb : A -> A -> bool) seq :
  forall acc, exists suffix, to_unique_loop eqb seq acc = acc ++ suffix.
Proof.
  induction seq as [|x seq IH]; intros acc; cbn [to_unique_loop].
  - exists []. symmetry. apply app_nil_r.
  - destruct (py_in eqb x acc); [apply IH |].
    destruct (IH (acc ++ [x])) as [s Hs]. exists (x :: s).
    rewrite Hs, <- app_assoc. reflexivity.
Qed.

Lemma to_unique_tuple_app_extends {A} (eqb : A -> A -> bool) (l1 l2 : list A) :
  exists suffix, to_unique_tuple eqb (l1 ++ l2) = to_unique_tuple eqb l1 ++ suffix.
Proof.
  unfold to_unique_tuple. rewrite to_unique_loop_app. apply to_unique_loop_extends.
Qed.

(** X19. Raising the exponent of [**] only appends terms: for the same
    left operand, without pending intercept, and two positive integer
    exponents [k <= k'], both nodes evaluate and the terms of the first
    are the beginning of the terms of the second. *)
Theorem power_terms_grow_with_exponent :
  forall tok tok' org org' l r r' le k k',
    eval l true = Ok (VExpr le) ->
    intercept le = false ->
    positive_integer_literal r k ->
    positive_integer_literal r' k' ->
    (k <= k')%Z ->
    exists p q suffix,
      eval (Node "**" tok [l; r] org) true = Ok (VExpr p)
      /\ eval (Node "**" tok' [l; r'] org') true = Ok (VExpr q)
      /\ terms q = terms p ++ suffix.
Proof.
  intros tok tok' org org' l r r' le k k' Hl Hi Hk Hk' Hle.
  apply eval_true_expr in Hl.
  pose proof (power_call tok org l r le k Hl Hi Hk) as Hp.
  pose proof (power_call tok' org' l r' le k' Hl Hi Hk') as Hq.
  set (m := Nat.min (length (terms le)) (Z.to_nat k)) in *.
  set (m' := Nat.min (length (terms le)) (Z.to_nat k')) in *.
  assert (Hm : (m - 1 <= m' - 1)%nat) by (destruct Hk as (_ & _ & Hk1); lia).
  assert (Hseq : seq 2 (m' - 1) = seq 2 (m - 1) ++ seq (2 + (m - 1)) (m' - 1 - (m - 1))).
  { rewrite <- seq_app. f_equal. lia. }
  rewrite Hseq, flat_map_app, app_assoc in Hq.
  destruct (to_unique_tuple_app_extends Term_eq
              (terms le ++ flat_map (interaction_order (terms le)) (seq 2 (m - 1)))
              (flat_map (interaction_order (terms le))
                 (seq (2 + (m - 1)) (m' - 1 - (m - 1))))) as [suffix Hs].
  rewrite Hs in Hq.
  eexists. eexists. exists suffix. split; [| split].
  - apply (eval_call_Ok "**" tok [l; r] org _ _ _ lookup_power2 Hp).
  - apply (eval_call_Ok "**" tok' [l; r'] org' _ _ _ lookup_power2 Hq).
  - reflexivity.
Qed.

Lemma abcd_power_two_three_instance :
  exists p q suffix,
    eval f_abcd_pow_2 true = Ok (VExpr p)
    /\ eval (Node "**" (mkToken "**" (mkOrigin "(a+b+c+d)**3" 9 11) None)
               [binop "(a+b+c+d)**2" "+" 6 7
                  (binop "(a+b+c+d)**2" "+" 4 5
                     (binop "(a+b+c+d)**2" "+" 2 3
                        (var "(a+b+c+d)**2" 1 "a") (var "(a+b+c+d)**2" 3 "b"))
                     (var "(a+b+c+d)**2" 5 "c"))
                  (var "(a+b+c+d)**2" 7 "d");
                leaf "(a+b+c+d)**3" "NUMBER" 11 12 "3"]
               (mkOrigin "(a+b+c+d)**3" 0 12)) true = Ok (VExpr q)
    /\ terms q = terms p ++ suffix.
Proof.
  unfold f_abcd_pow_2.
  apply (power_terms_grow_with_exponent _ _ _ _ _ _ _
           (mkIntermediateExpr false None false
              [Term_init [EvalFactor "a" (mkOrigin "(a+b+c+d)**2" 1 2)];
               Term_init [EvalFactor "b" (mkOrigin "(a+b+c+d)**2" 3 4)];
               Term_init [EvalFactor "c" (mkOrigin "(a+b+c+d)**2" 5 6)];
               Term_init [EvalFactor "d" (mkOrigin "(a+b+c+d)**2" 7 8)]]) 2%Z 3%Z).
  - vm_compute. reflexivity.
  - reflexivity.
  - split; [right; reflexivity | split; [| lia]].
    exists "2". split; vm_compute; reflexivity.
  - split; [right; reflexivity | split; [| lia]].
    exists "3". split; vm_compute; reflexivity.
  - lia.
Defined.

(** ** The intercept check at the four interacting operators *)

(** What a [:], [*] or [/] node evaluates to, from the intercepts of its
    evaluated operands. *)
Lemma interacting_node ty tok org l r le re :
  In ty [":"; "*"; "/"] ->
  eval_expr l = Ok le ->
  eval_expr r = Ok re ->
  exists ts,
    eval (Node ty tok [l; r] org) true
    = if intercept le
      then Raise (CharltonError intercept_message (intercept_origin le))
      else if intercept re
      then Raise (CharltonError intercept_message (intercept_origin re))
      else Ok (VExpr (mkIntermediateExpr false None false ts)).
Proof.
  intros Hty Hl Hr. cbn [In] in Hty. destruct Hty as [<- | [<- | [<- | []]]].
  - eexists.
    assert (Hcall : call R_binary_interact eval_expr (Node ":" tok [l; r] org)
                    = (r' <- _interaction le re ;; Ok (VExpr r'))).
    { unfold call, _eval_binary_interact. cbn [args eval_args]. rewrite Hl, Hr.
      reflexivity. }
    rewrite interaction_eq in Hcall.
    destruct (intercept le);
      [apply (eval_call_Raise ":" tok [l; r] org _ _ _ lookup_interact2 Hcall) |].
    destruct (intercept re);
      [apply (eval_call_Raise ":" tok [l; r] org _ _ _ lookup_interact2 Hcall) |].
    apply (eval_call_Ok ":" tok [l; r] org _ _ _ lookup_interact2 Hcall).
  - eexists. pose proof (prod_call tok org l r le re Hl Hr) as Hcall.
    destruct (intercept le);
      [apply (eval_call_Raise "*" tok [l; r] org _ _ _ lookup_prod2 Hcall) |].
    destruct (intercept re);
      [apply (eval_call_Raise "*" tok [l; r] org _ _ _ lookup_prod2 Hcall) |].
    apply (eval_call_Ok "*" tok [l; r] org _ _ _ lookup_prod2 Hcall).
  - eexists.
    assert (Hcall : call R_binary_div eval_expr (Node "/" tok [l; r] org)
                    = (_check_interactable le ;;
                       inter <- _interaction
                                  (mkIntermediateExpr false None false
                                     [Term_init (flat_map factors (terms le))]) re ;;
                       r' <- IntermediateExpr_init false None false
                               (terms le ++ terms inter) ;;
                       Ok (VExpr r'))).
    { unfold call, _eval_binary_div. cbn [args]. rewrite Hl. cbn [bind]. rewrite Hr.
      reflexivity. }
    unfold _check_interactable in Hcall. rewrite interaction_eq in Hcall.
    cbn [intercept] in Hcall.
    destruct (intercept le);
      [apply (eval_call_Raise "/" tok [l; r] org _ _ _ lookup_div2 Hcall) |].
    cbn [bind] in Hcall.
    destruct (intercept re);
      [apply (eval_call_Raise "/" tok [l; r] org _ _ _ lookup_div2 Hcall) |].
    cbn [bind] in Hcall. rewrite init_plain_Ok in Hcall. cbn [bind] in Hcall.
    apply (eval_call_Ok "/" tok [l; r] org _ _ _ lookup_div2 Hcall).
Qed.

(** C10. [_check_interactable] rejects an expression exactly when its
    intercept is present, so one whose intercept was removed passes.  At
    every [:], [*] and [/] node whose operands evaluate, and at every [**]
    node whose left operand evaluates and whose exponent is a positive
    integer literal, the node is accepted as soon as no operand has a
    present intercept, whether or not an operand had removed its
    intercept, and it fails with the intercept error exactly when an
    operand has a present intercept; the result of [_interaction] and of
    each of these nodes has neither an intercept nor a removed intercept.
    In ["(a - 1):b"] the left operand has its intercept removed and the
    node evaluates to [a:b] with both flags false; ["(a - 1)*b"],
    ["(a - 1)/b"] and ["(a - 1)**2"] evaluate as well. *)
Theorem interaction_accepts_removed_intercept :
  (forall e, (exists err, _check_interactable e = Raise err) <-> intercept e = true)
  /\ (forall e, intercept e = false -> _check_interactable e = Ok tt)
  /\ (forall le re,
         intercept le = false -> intercept re = false ->
         exists res, _interaction le re = Ok res)
  /\ (forall le re res,
         _interaction le re = Ok res ->
         intercept res = false /\ intercept_removed res = false)
  /\ (forall ty tok l r org res,
         In ty [":"; "*"; "/"; "**"] ->
         eval (Node ty tok [l; r] org) true = Ok (VExpr res) ->
         intercept res = false /\ intercept_removed res = false)
  /\ eval (binop "(a - 1):b" "-" 3 4 (var "(a - 1):b" 1 "a")
             (leaf "(a - 1):b" "ONE" 5 6 "1")) true
     = Ok (VExpr (mkIntermediateExpr false None true
                    [Term_init [EvalFactor "a" (mkOrigin "(a - 1):b" 1 2)]]))
  /\ eval f_a_minus_1_inter_b true
     = Ok (VExpr (mkIntermediateExpr false None false
                    [Term_init [EvalFactor "a" (mkOrigin "(a - 1):b" 1 2);
                                EvalFactor "b" (mkOrigin "(a - 1):b" 8 9)]]))
  /\ (forall ty tok org l r le re,
         In ty [":"; "*"; "/"] ->
         eval l true = Ok (VExpr le) ->
         eval r true = Ok (VExpr re) ->
         (intercept le = false -> intercept re = false ->
          exists res,
            eval (Node ty tok [l; r] org) true = Ok (VExpr res)
            /\ intercept res = false /\ intercept_removed res = false)
         /\ (intercept le = true ->
             eval (Node ty tok [l; r] org) true
             = Raise (CharltonError "intercept term cannot interact with anything else"
                        (intercept_origin le)))
         /\ (intercept le = false -> intercept re = true ->
             eval (Node ty tok [l; r] org) true
             = Raise (CharltonError "intercept term cannot interact with anything else"
                        (intercept_origin re)))
         /\ ((exists err, eval (Node ty tok [l; r] org) true = Raise err)
             <-> intercept le = true \/ intercept re = true))
  /\ (forall tok org l r le k,
         eval l true = Ok (VExpr le) ->
         positive_integer_literal r k ->
         (intercept le = false ->
          exists res,
            eval (Node "**" tok [l; r] org) true = Ok (VExpr res)
            /\ intercept res = false /\ intercept_removed res = false)
         /\ (intercept le = true ->
             eval (Node "**" tok [l; r] org) true
             = Raise (CharltonError "intercept term cannot interact with anything else"
                        (intercept_origin le)))
         /\ ((exists err, eval (Node "**" tok [l; r] org) true = Raise err)
             <-> intercept le = true))
  /\ (exists res,
         eval (binop "(a - 1)*b" "*" 7 8
                 (binop "(a - 1)*b" "-" 3 4 (var "(a - 1)*b" 1 "a")
                    (leaf "(a - 1)*b" "ONE" 5 6 "1"))
                 (var "(a - 1)*b" 8 "b")) true = Ok (VExpr res)
         /\ term_names (terms res) = [["a"]; ["b"]; ["a"; "b"]])
  /\ (exists res,
         eval (binop "(a - 1)/b" "/" 7 8
                 (binop "(a - 1)/b" "-" 3 4 (var "(a - 1)/b" 1 "a")
                    (leaf "(a - 1)/b" "ONE" 5 6 "1"))
                 (var "(a - 1)/b" 8 "b")) true = Ok (VExpr res)
         /\ term_names (terms res) = [["a"]; ["a"; "b"]])
  /\ (exists res,
         eval (Node "**" (mkToken "**" (mkOrigin "(a - 1)**2" 7 9) None)
                 [binop "(a - 1)**2" "-" 3 4 (var "(a - 1)**2" 1 "a")
                    (leaf "(a - 1)**2" "ONE" 5 6 "1");
                  leaf "(a - 1)**2" "NUMBER" 9 10 "2"]
                 (mkOrigin "(a - 1)**2" 1 10)) true = Ok (VExpr res)
         /\ term_names (terms res) = [["a"]]).
Proof.
  split; [| split; [| split; [| split; [| split; [| split; [| split;
    [| split; [| split; [| split; [| split]]]]]]]]]].
  - intros e. unfold _check_interactable. destruct (intercept e); split.
    + reflexivity.
    + intros _. eexists. reflexivity.
    + intros [err H]. discriminate H.
    + discriminate.
  - intros e H. unfold _check_interactable. rewrite H. reflexivity.
  - intros le re Hl Hr. rewrite interaction_eq, Hl, Hr. eexists. reflexivity.
  - intros le re res H. rewrite interaction_eq in H.
    destruct (intercept le); [discriminate |]. destruct (intercept re); [discriminate |].
    injection H as <-. split; reflexivity.
  - intros ty tok l r org res Hty Hev.
    assert (Hcases : exists rule,
               _evaluators !! (ty, 2) = Some rule
               /\ (rule = R_binary_interact \/ rule = R_binary_prod
                   \/ rule = R_binary_div \/ rule = R_binary_power)).
    { cbn [In] in Hty. destruct Hty as [<- | [<- | [<- | [<- | []]]]].
      - exists R_binary_interact. split; [apply lookup_interact2 | tauto].
      - exists R_binary_prod. split; [apply lookup_prod2 | tauto].
      - exists R_binary_div. split; [apply lookup_div2 | tauto].
      - exists R_binary_power. split; [apply lookup_power2 | tauto]. }
    destruct Hcases as (rule & Hlook & Hrule).
    rewrite (eval_call ty tok [l; r] org rule true Hlook) in Hev.
    destruct (call rule eval_expr (Node ty tok [l; r] org)) as [[v|m]|] eqn:Hcall;
      try discriminate.
    cbn [bind check_evalexpr] in Hev. injection Hev as <-.
    exact (call_interaction_flags rule tok l r org v ty Hrule Hcall).
  - vm_compute. reflexivity.
  - vm_compute. reflexivity.
  - intros ty tok org l r le re Hty Hl Hr. apply eval_true_expr in Hl, Hr.
    destruct (interacting_node ty tok org l r le re Hty Hl Hr) as [ts Hev].
    unfold intercept_message in Hev. rewrite Hev.
    split; [| split; [| split]].
    + intros -> ->. eexists. split; [reflexivity | split; reflexivity].
    + intros ->. reflexivity.
    + intros -> ->. reflexivity.
    + destruct (intercept le); [split; [auto | intros _; eauto] |].
      destruct (intercept re); [split; [auto | intros _; eauto] |].
      split; [intros [err H]; discriminate H | intros [H | H]; discriminate H].
  - intros tok org l r le k Hl Hk. apply eval_true_expr in Hl.
    assert (Hraise : intercept le = true ->
              eval (Node "**" tok [l; r] org) true
              = Raise (CharltonError "intercept term cannot interact with anything else"
                         (intercept_origin le))).
    { intros Hi. apply (eval_call_Raise "**" tok [l; r] org _ true _ lookup_power2).
      unfold call, _eval_binary_power, _check_interactable. cbn [args].
      rewrite Hl. cbn [bind]. rewrite Hi. reflexivity. }
    assert (Hok : intercept le = false ->
              exists res,
                eval (Node "**" tok [l; r] org) true = Ok (VExpr res)
                /\ intercept res = false /\ intercept_removed res = false).
    { intros Hi. eexists. split.
      - apply (eval_call_Ok "**" tok [l; r] org _ _ _ lookup_power2).
        apply (power_call tok org l r le k Hl Hi Hk).
      - split; reflexivity. }
    split; [exact Hok | split; [exact Hraise |]].
    destruct (intercept le) eqn:Hi.
    + split; [reflexivity | intros _; rewrite (Hraise eq_refl); eauto].
    + destruct (Hok eq_refl) as (res & Hres & _). rewrite Hres.
      split; [intros [err H]; discriminate H | discriminate].
  - eexists. split; vm_compute; reflexivity.
  - eexists. split; vm_compute; reflexivity.
  - eexists. split; vm_compute; reflexivity.
Qed.

Lemma a_minus_one_interact_b_instance :
  intercept (mkIntermediateExpr false None false
               [Term_init [EvalFactor "a" (mkOrigin "(a - 1):b" 1 2);
                           EvalFactor "b" (mkOrigin "(a - 1):b" 8 9)]]) = false
  /\ _check_interactable
       (mkIntermediateExpr false None true
          [Term_init [EvalFactor "a" (mkOrigin "(a - 1):b" 1 2)]]) = Ok tt
  /\ (exists res,
         eval (binop "(a - 1)*b" "*" 7 8
                 (binop "(a - 1)*b" "-" 3 4 (var "(a - 1)*b" 1 "a")
                    (leaf "(a - 1)*b" "ONE" 5 6 "1"))
                 (var "(a - 1)*b" 8 "b")) true = Ok (VExpr res)
         /\ intercept res = false /\ intercept_removed res = false)
  /\ (exists res,
         eval (Node "**" (mkToken "**" (mkOrigin "(a - 1)**2" 7 9) None)
                 [binop "(a - 1)**2" "-" 3 4 (var "(a - 1)**2" 1 "a")
                    (leaf "(a - 1)**2" "ONE" 5 6 "1");
                  leaf "(a - 1)**2" "NUMBER" 9 10 "2"]
                 (mkOrigin "(a - 1)**2" 1 10)) true = Ok (VExpr res)
         /\ intercept res = false /\ intercept_removed res = false).
Proof.
  destruct interaction_accepts_removed_intercept
    as (_ & Hpass & _ & _ & Hnode & _ & _ & Hbin & Hpow & _).
  split; [| split; [| split]].
  - apply (Hnode ":" (mkToken ":" (mkOrigin "(a - 1):b" 7 8) None)
             (binop "(a - 1):b" "-" 3 4 (var "(a - 1):b" 1 "a")
                (leaf "(a - 1):b" "ONE" 5 6 "1"))
             (var "(a - 1):b" 8 "b") (mkOrigin "(a - 1):b" 1 9)).
    + cbn [In]. auto.
    + vm_compute. reflexivity.
  - apply Hpass. reflexivity.
  - unfold binop at 1.
    destruct (Hbin "*" (mkToken "*" (mkOrigin "(a - 1)*b" 7 8) None)
                (mkOrigin "(a - 1)*b" 1 9)
                (binop "(a - 1)*b" "-" 3 4 (var "(a - 1)*b" 1 "a")
                   (leaf "(a - 1)*b" "ONE" 5 6 "1"))
                (var "(a - 1)*b" 8 "b")
                (mkIntermediateExpr false None true
                   [Term_init [EvalFactor "a" (mkOrigin "(a - 1)*b" 1 2)]])
                (mkIntermediateExpr false None false
                   [Term_init [EvalFactor "b" (mkOrigin "(a - 1)*b" 8 9)]]))
      as (Hok & _); [cbn [In]; auto | vm_compute; reflexivity | vm_compute; reflexivity |].
    exact (Hok eq_refl eq_refl).
  - destruct (Hpow (mkToken "**" (mkOrigin "(a - 1)**2" 7 9) None)
                (mkOrigin "(a - 1)**2" 1 10)
                (binop "(a - 1)**2" "-" 3 4 (var "(a - 1)**2" 1 "a")
                   (leaf "(a - 1)**2" "ONE" 5 6 "1"))
                (leaf "(a - 1)**2" "NUMBER" 9 10 "2")
                (mkIntermediateExpr false None true
                   [Term_init [EvalFactor "a" (mkOrigin "(a - 1)**2" 1 2)]]) 2%Z)
      as (Hok & _); [vm_compute; reflexivity | |].
    + split; [right; reflexivity | split; [| lia]].
      exists "2". split; vm_compute; reflexivity.
    + exact (Hok eq_refl).
Defined.
